(** * hyperfleet-adapter: the per-event execution engine

    A shallow embedding of [internal/executor]: the event interpreter
    ([Execute], [CreateHandler]), the precondition executor and the
    post-action executor, together with the ManifestWork builder and the
    deep copier they rely on.

    Go pointers to the per-event [ExecutionContext] become explicit state
    passing; the HTTP client, the criteria evaluator, the resource executor
    and the other packages the executor calls into are operations of the
    class [Externals]. *)

From stdpp Require Import gmap strings list fin_maps pretty.
From Stdlib Require Import ZArith Ascii.

Set Warnings "-register-all".
Set Default Proof Using "Type".

(** ** Dynamic values: Go's [interface{}] trees *)

(** Keys of a [map[interface{}]interface{}], as YAML decoding produces. *)
Inductive AnyKey := KStr (s : string) | KInt (z : Z) | KBool (b : bool).

Global Instance AnyKey_eq_dec : EqDecision AnyKey.
Proof. solve_decision. Defined.

Global Instance AnyKey_countable : Countable AnyKey.
Proof.
  refine (inj_countable'
    (fun k => match k with
              | KStr s => inl s | KInt z => inr (inl z) | KBool b => inr (inr b)
              end)
    (fun x => match x with
              | inl s => KStr s | inr (inl z) => KInt z | inr (inr b) => KBool b
              end) _).
  by intros [].
Defined.

(** Numbers are carried as integers: no operation of the engine inspects
    them, they are only moved between maps. *)
Inductive Value :=
| VNil
| VBool (b : bool)
| VNum (n : Z)
| VStr (s : string)
| VList (l : list Value)
| VMap (m : gmap string Value)
| VAnyMap (m : gmap AnyKey Value).

(** The [%T] verb of [fmt] on a dynamic value. A number prints as the
    [float64] that [json.Unmarshal] produces: the executor prints the type
    of decoded response data only, and the Go type of a number from another
    source is not recorded in [VNum]. *)
Definition goTypeName (v : Value) : string :=
  match v with
  | VNil => "<nil>"
  | VBool _ => "bool"
  | VNum _ => "float64"
  | VStr _ => "string"
  | VList _ => "[]interface {}"
  | VMap _ => "map[string]interface {}"
  | VAnyMap _ => "map[interface {}]interface {}"
  end.

(** ** Phases, statuses and errors *)

Inductive ExecutionPhase :=
| PhaseNone            (* the zero value of the string type *)
| PhaseParamExtraction
| PhasePreconditions
| PhaseResources
| PhasePostActions.

Inductive ExecutionStatus := StatusSuccess | StatusFailed.

Global Instance ExecutionPhase_eq_dec : EqDecision ExecutionPhase.
Proof. solve_decision. Defined.
Global Instance ExecutionStatus_eq_dec : EqDecision ExecutionStatus.
Proof. solve_decision. Defined.

(** Go's [error] values: the two error types of the repository, and
    [fmt.Errorf] with and without a wrapped cause. *)
Inductive error :=
| ExecutorError (phase : ExecutionPhase) (step message : string) (cause : option error)
| APIError (method url : string) (status : Z) (body : string) (cause : option error)
| WrapError (msg : string) (cause : error)
| PlainError (msg : string).

(** A Go result pair [(value, err)] in which exactly one side is set. *)
Inductive Res (A : Type) := Ok (a : A) | Err (e : error).
Arguments Ok {A} a.
Arguments Err {A} e.

(** ** Configuration (package [config_loader], read-only) *)

Record APICall := {
  ac_Method : string;
  ac_URL : string;
  ac_Headers : list (string * string);
  ac_Body : string
}.

Record LogAction := { la_Message : string; la_Level : string }.

Record CaptureField := { cf_Name : string; cf_Field : string }.

Record Condition := { cond_Field : string; cond_Operator : string; cond_Value : Value }.

Record Precondition := {
  pc_Name : string;
  pc_Log : option LogAction;
  pc_APICall : option APICall;
  pc_Capture : list CaptureField;
  pc_Conditions : list Condition;
  pc_Expression : string
}.

Record Resource := { rs_Name : string; rs_Manifest : Value }.

(** [Build] and [BuildRefContent] are of type [any]; [VNil] is Go's [nil]. *)
Record Payload := { pl_Name : string; pl_Build : Value; pl_BuildRefContent : Value }.

Record PostAction := {
  pa_Name : string;
  pa_Log : option LogAction;
  pa_APICall : option APICall
}.

Record PostConfig := { Payloads : list Payload; PostActions : list PostAction }.

Record AdapterConfig := {
  spec_Preconditions : list Precondition;
  spec_Resources : list Resource;
  spec_Post : option PostConfig
}.

(** ** Criteria records (package [criteria]) *)

Record ConditionDef := { cd_Field : string; cd_Operator : string; cd_Value : Value }.

Record EvaluationResult := {
  er_Field : string;
  er_Operator : string;
  er_ExpectedValue : Value;
  er_FieldValue : Value;
  er_Matched : bool
}.

Record ConditionsResult := { cr_Matched : bool; cr_Results : list EvaluationResult }.

Record CELResult := {
  cel_Matched : bool;
  cel_Value : Value;
  cel_ErrorReason : string;
  cel_Error : option error
}.

(** ** The execution context *)

Record ExecutionError := {
  ee_Phase : ExecutionPhase;
  ee_Step : string;
  ee_Message : string
}.

Record AdapterMetadata := {
  ad_ExecutionError : option ExecutionError;
  ad_Error : option (string * string);      (* reason, message *)
  ad_Skipped : option (string * string)     (* reason, message *)
}.

Inductive EvaluationDetail :=
| ConditionsDetail (fieldResults : gmap string EvaluationResult)
| CELDetail (expression : string).

Record EvaluationRecord := {
  ev_Phase : ExecutionPhase;
  ev_Name : string;
  ev_Matched : bool;
  ev_Detail : EvaluationDetail
}.

Record ExecutionContext := {
  Params : gmap string Value;
  Adapter : AdapterMetadata;
  Evaluations : list EvaluationRecord;
  EventData : gmap string Value
}.

Definition withParams (f : gmap string Value → gmap string Value)
    (c : ExecutionContext) : ExecutionContext :=
  {| Params := f (Params c); Adapter := Adapter c;
     Evaluations := Evaluations c; EventData := EventData c |}.

Definition withAdapter (f : AdapterMetadata → AdapterMetadata)
    (c : ExecutionContext) : ExecutionContext :=
  {| Params := Params c; Adapter := f (Adapter c);
     Evaluations := Evaluations c; EventData := EventData c |}.

Definition withEvaluation (r : EvaluationRecord) (c : ExecutionContext) : ExecutionContext :=
  {| Params := Params c; Adapter := Adapter c;
     Evaluations := Evaluations c ++ [r]; EventData := EventData c |}.

Definition assignExecutionError (e : ExecutionError) (a : AdapterMetadata) : AdapterMetadata :=
  {| ad_ExecutionError := Some e; ad_Error := ad_Error a; ad_Skipped := ad_Skipped a |}.

(** Modelled from the spec: [SetError] and [SetSkipped], methods of
    [ExecutionContext], are missing from the translated files; section 4.1 lists
    [setError(reason,msg)] and [setSkipped(reason,msg)] and section 3 gives
    the adapter metadata an optional [executionError] and an optional
    [skipped] reason, which are separate fields. *)
Definition SetError (reason message : string) (c : ExecutionContext) : ExecutionContext :=
  withAdapter (fun a => {| ad_ExecutionError := ad_ExecutionError a;
                           ad_Error := Some (reason, message);
                           ad_Skipped := ad_Skipped a |}) c.

(** Modelled from the spec: [SetSkipped] is missing from the translated
    files; see [SetError]. *)
Definition SetSkipped (reason message : string) (c : ExecutionContext) : ExecutionContext :=
  withAdapter (fun a => {| ad_ExecutionError := ad_ExecutionError a;
                           ad_Error := ad_Error a;
                           ad_Skipped := Some (reason, message) |}) c.

(** Modelled from the spec: [AddConditionsEvaluation] and [AddCELEvaluation]
    are missing from the translated files; by section 3, [evaluations] is
    an append-only sequence of records tagged with phase, step name, matched
    flag and the per-field details or the CEL source. *)
Definition AddConditionsEvaluation (phase : ExecutionPhase) (name : string) (matched : bool)
    (fieldResults : gmap string EvaluationResult) (c : ExecutionContext) : ExecutionContext :=
  withEvaluation {| ev_Phase := phase; ev_Name := name; ev_Matched := matched;
                    ev_Detail := ConditionsDetail fieldResults |} c.

(** Modelled from the spec: [AddCELEvaluation] is missing from the
    translated files; see [AddConditionsEvaluation]. *)
Definition AddCELEvaluation (phase : ExecutionPhase) (name expression : string) (matched : bool)
    (c : ExecutionContext) : ExecutionContext :=
  withEvaluation {| ev_Phase := phase; ev_Name := name; ev_Matched := matched;
                    ev_Detail := CELDetail expression |} c.

(** Modelled from the spec: [NewExecutionContext] is missing from the
    translated files; section 4.10 step 4 constructs a fresh context holding
    the parsed event payload, with no parameter bound yet. *)
Definition NewExecutionContext (eventData : gmap string Value) : ExecutionContext :=
  {| Params := ∅;
     Adapter := {| ad_ExecutionError := None; ad_Error := None; ad_Skipped := None |};
     Evaluations := [];
     EventData := eventData |}.

(** ** Outcome records *)

Record PreconditionResult := {
  pr_Name : string;
  pr_Status : ExecutionStatus;
  pr_Matched : bool;
  pr_CapturedFields : gmap string Value;
  pr_APICallMade : bool;
  pr_APIResponse : option string;
  pr_ConditionResults : list EvaluationResult;
  pr_CELResult : option CELResult;
  pr_Error : option error
}.

Record PreconditionsOutcome := {
  po_AllMatched : bool;
  po_Results : list PreconditionResult;
  po_Error : option error;
  po_NotMetReason : string
}.

Record ResourceResult := {
  rr_Name : string;
  rr_Status : ExecutionStatus;
  rr_Error : option error
}.

Record PostActionResult := {
  par_Name : string;
  par_Status : ExecutionStatus;
  par_APICallMade : bool;
  par_APIResponse : option string;
  par_HTTPStatus : Z;
  par_Error : option error
}.

Record ExecutionResult := {
  EventID : string;
  Phase : ExecutionPhase;
  Status : ExecutionStatus;
  ResourcesSkipped : bool;
  SkipReason : string;
  ErrorReason : string;
  Error : option error;
  ResultParams : gmap string Value;
  PreconditionResults : list PreconditionResult;
  ResourceResults : list ResourceResult;
  PostActionResults : list PostActionResult;
  ResultContext : option ExecutionContext
}.

(** ** The world an event runs in, and the state monad over it *)

Inductive LogLevel := LevelDebug | LevelInfo | LevelWarning | LevelError.

Record Response := { StatusCode : Z; Body : string }.

(** The per-event context, the entries the executor itself has sent to the
    logger (and those of the log actions and of the payload builder), the API
    calls sent so far and the objects applied to the cluster. *)
Record World := {
  execCtx : ExecutionContext;
  logs : list (LogLevel * string);
  apiCalls : list APICall;
  cluster : gmap string Value
}.

Definition M (A : Type) : Type := World → A * World.

Definition ret {A} (a : A) : M A := fun w => (a, w).

Definition bind {A B} (m : M A) (k : A → M B) : M B :=
  fun w => let '(a, w') := m w in k a w'.

Declare Scope exec_scope.
Delimit Scope exec_scope with exec.
Notation "x <- m ;; k" := (bind m (fun x => k))
  (at level 100, m at next level, right associativity) : exec_scope.
Notation "m ;; k" := (bind m (fun _ => k))
  (at level 100, right associativity) : exec_scope.
Local Open Scope exec_scope.

Definition modifyCtx (f : ExecutionContext → ExecutionContext) : M unit :=
  fun w => (tt, {| execCtx := f (execCtx w); logs := logs w;
                   apiCalls := apiCalls w; cluster := cluster w |}).

Definition getCtx : M ExecutionContext := fun w => (execCtx w, w).

Definition logAt (lvl : LogLevel) (msg : string) : M unit :=
  fun w => (tt, {| execCtx := execCtx w; logs := logs w ++ [(lvl, msg)];
                   apiCalls := apiCalls w; cluster := cluster w |}).

Definition logAll (entries : list (LogLevel * string)) : M unit :=
  fun w => (tt, {| execCtx := execCtx w; logs := logs w ++ entries;
                   apiCalls := apiCalls w; cluster := cluster w |}).

Definition recordCall (c : APICall) : M unit :=
  fun w => (tt, {| execCtx := execCtx w; logs := logs w;
                   apiCalls := apiCalls w ++ [c]; cluster := cluster w |}).

Definition setExecutionError (e : ExecutionError) : M unit :=
  modifyCtx (withAdapter (assignExecutionError e)).

(** ** Collaborators

    The operations the executor calls in other packages and files: the
    HTTP client behind [ExecuteAPICall], the criteria evaluator, the payload
    tree builder, parameter extraction, the resource executor, and the
    library functions whose output format is not fixed by the executor. *)
Class Externals := {
  (** [ExecuteAPICall]: renders and sends a call; the answer may depend on
      the context and on the calls sent before. It yields [(resp, url, err)]. *)
  ExecuteAPICall : APICall → ExecutionContext → list APICall →
                   option Response * string * option error;
  (** [ExecuteLogAction]: the entries a configured log action emits. *)
  ExecuteLogAction : LogAction → ExecutionContext → list (LogLevel * string);
  (** [json.Unmarshal] into a [map[string]interface{}]. *)
  jsonUnmarshal : string → Res (gmap string Value);
  jsonMarshal : Value → Res string;
  (** The evaluator built by [criteria.NewEvaluator] over a variable map,
      [CELResult.HasError] and [ToConditionDefs]. *)
  EvaluateConditionsWithResult : gmap string Value → list ConditionDef → Res ConditionsResult;
  EvaluateCEL : gmap string Value → string → Res CELResult;
  HasError : CELResult → bool;
  ToConditionDefs : list Condition → list ConditionDef;
  (** [buildPayload], with the entries it logs. *)
  buildPayload : Value → gmap string Value → gmap string Value →
                 Res Value * list (LogLevel * string);
  adapterMetadataToMap : AdapterMetadata → Value;
  (** Phase 1: [extractConfigParams] and [addMetadataParams]. *)
  extractConfigParams : AdapterConfig → ExecutionContext → gmap string Value →
                        ExecutionContext * option error;
  addMetadataParams : AdapterConfig → ExecutionContext → ExecutionContext;
  (** Phase 3: [ResourceExecutor.ExecuteAll]. *)
  resourceExecuteAll : list Resource → World → (list ResourceResult * option error) * World;
  (** [err.Error()], the values of the phase constants, the [%v] verb and
      [strings.TrimSpace]. *)
  errorString : error → string;
  phaseString : ExecutionPhase → string;
  formatValue : Value → string;
  TrimSpace : string → string
}.

(** ** Helpers shared by the executors *)

(** Modelled from the spec: [Response.IsSuccess] belongs to the API client
    package; by section 6, success is a status in the 2xx range. *)
Definition IsSuccess (r : Response) : bool :=
  (200 <=? StatusCode r)%Z && (StatusCode r <? 300)%Z.

(** Modelled from the spec: [ValidateAPIResponse] is missing from the
    translated files; by section 4.7 step 3 a transport error yields an
    [APIError] carrying the cause, and a received response whose status is
    not in the 2xx range yields an [APIError] carrying status and body. A
    missing response without an error is rejected as well. *)
Definition ValidateAPIResponse (resp : option Response) (err : option error)
    (method url : string) : option error :=
  match err with
  | Some e =>
      match resp with
      | Some r => Some (APIError method url (StatusCode r) (Body r) (Some e))
      | None => Some (APIError method url 0 "" (Some e))
      end
  | None =>
      match resp with
      | None => Some (APIError method url 0 "" (Some (PlainError "API response is nil")))
      | Some r =>
          if IsSuccess r then None
          else Some (APIError method url (StatusCode r) (Body r) None)
      end
  end.

(** [strings.Split(path, ".")]. *)
Fixpoint SplitDots (s : string) : list string :=
  match s with
  | EmptyString => [EmptyString]
  | String c rest =>
      if Ascii.eqb c "."%char then EmptyString :: SplitDots rest
      else match SplitDots rest with
           | hd :: tl => String c hd :: tl
           | [] => [String c EmptyString]
           end
  end.

(** [strings.Join(parts, sep)]. *)
Definition Join (parts : list string) (sep : string) : string := String.concat sep parts.

(** ** Field capture by dotted path *)

(** The loop of [captureFieldFromData]: [done] holds the parts already
    consumed, so that [done ++ [part]] is [parts[:i+1]]. *)
Fixpoint captureWalk (done parts : list string) (current : Value) : Res Value :=
  match parts with
  | [] => Ok current
  | part :: rest =>
      match current with
      | VMap v =>
          match v !! part with
          | None => Err (PlainError ("field '" +:+ part +:+ "' not found at path '"
                                      +:+ Join (done ++ [part]) "." +:+ "'"))
          | Some val => captureWalk (done ++ [part]) rest val
          end
      | VAnyMap v =>
          match v !! KStr part with
          | None => Err (PlainError ("field '" +:+ part +:+ "' not found at path '"
                                      +:+ Join (done ++ [part]) "." +:+ "'"))
          | Some val => captureWalk (done ++ [part]) rest val
          end
      | _ => Err (PlainError ("cannot access field '" +:+ part
                               +:+ "': parent is not a map (got " +:+ goTypeName current +:+ ")"))
      end
  end.

Definition captureFieldFromData (data : gmap string Value) (path : string) : Res Value :=
  captureWalk [] (SplitDots path) (VMap data).

(** [ExecuteLogAction], run against the current context. *)
Definition runLogAction `{!Externals} (l : LogAction) : M unit :=
  ctx <- getCtx ;; logAll (ExecuteLogAction l ctx).

(** [ExecuteAPICall], run against the current context; the call is added to
    the calls sent. *)
Definition sendAPICall `{!Externals} (apiCall : APICall)
    : M (option Response * string * option error) :=
  fun w => (ExecuteAPICall apiCall (execCtx w) (apiCalls w), (recordCall apiCall w).2).

(** ** The precondition executor *)

Module PreconditionExecutor.
Section WithExternals.
Context `{!Externals}.

Definition newResult (precond : Precondition) : PreconditionResult :=
  {| pr_Name := pc_Name precond; pr_Status := StatusSuccess; pr_Matched := false;
     pr_CapturedFields := ∅; pr_APICallMade := false; pr_APIResponse := None;
     pr_ConditionResults := []; pr_CELResult := None; pr_Error := None |}.

(** [result.Status = StatusFailed; result.Error = err]. *)
Definition failed (err : error) (r : PreconditionResult) : PreconditionResult :=
  {| pr_Name := pr_Name r; pr_Status := StatusFailed; pr_Matched := pr_Matched r;
     pr_CapturedFields := pr_CapturedFields r; pr_APICallMade := pr_APICallMade r;
     pr_APIResponse := pr_APIResponse r; pr_ConditionResults := pr_ConditionResults r;
     pr_CELResult := pr_CELResult r; pr_Error := Some err |}.

(** [result.APICallMade = true; result.APIResponse = apiResult]. *)
Definition withResponse (apiResult : string) (r : PreconditionResult) : PreconditionResult :=
  {| pr_Name := pr_Name r; pr_Status := pr_Status r; pr_Matched := pr_Matched r;
     pr_CapturedFields := pr_CapturedFields r; pr_APICallMade := true;
     pr_APIResponse := Some apiResult; pr_ConditionResults := pr_ConditionResults r;
     pr_CELResult := pr_CELResult r; pr_Error := pr_Error r |}.

(** [result.CapturedFields[name] = value]. *)
Definition withCaptured (name : string) (value : Value) (r : PreconditionResult)
    : PreconditionResult :=
  {| pr_Name := pr_Name r; pr_Status := pr_Status r; pr_Matched := pr_Matched r;
     pr_CapturedFields := <[name := value]> (pr_CapturedFields r);
     pr_APICallMade := pr_APICallMade r; pr_APIResponse := pr_APIResponse r;
     pr_ConditionResults := pr_ConditionResults r; pr_CELResult := pr_CELResult r;
     pr_Error := pr_Error r |}.

Definition withEvaluated (matched : bool) (conds : list EvaluationResult)
    (cel : option CELResult) (r : PreconditionResult) : PreconditionResult :=
  {| pr_Name := pr_Name r; pr_Status := pr_Status r; pr_Matched := matched;
     pr_CapturedFields := pr_CapturedFields r; pr_APICallMade := pr_APICallMade r;
     pr_APIResponse := pr_APIResponse r; pr_ConditionResults := conds;
     pr_CELResult := cel; pr_Error := pr_Error r |}.

(** [executeAPICall]: the response body, or the validation error. A response
    that passes [ValidateAPIResponse] is never nil. *)
Definition executeAPICall (apiCall : APICall) : M (Res string) :=
  r <- sendAPICall apiCall ;;
  let '(resp, url, err) := r in
  match ValidateAPIResponse resp err (ac_Method apiCall) url with
  | Some validationErr => ret (Err validationErr)
  | None => ret (Ok (match resp with Some rp => Body rp | None => "" end))
  end.

Definition captureWarning (capture : CaptureField) (err : error) : string :=
  "Failed to capture field '" +:+ cf_Field capture +:+ "' as '" +:+ cf_Name capture
    +:+ "': " +:+ errorString err.

(** The capture loop of [executePrecondition]. *)
Fixpoint captureFields (responseData : gmap string Value) (captures : list CaptureField)
    (result : PreconditionResult) : M PreconditionResult :=
  match captures with
  | [] => ret result
  | capture :: rest =>
      match captureFieldFromData responseData (cf_Field capture) with
      | Err err =>
          logAt LevelWarning (captureWarning capture err) ;;
          captureFields responseData rest result
      | Ok value =>
          modifyCtx (withParams (insert (cf_Name capture) value)) ;;
          captureFields responseData rest (withCaptured (cf_Name capture) value result)
      end
  end.

(** Step 2 of [executePrecondition]: the API call, the JSON decoding of its
    body and the captures. [Some err] is the early return. *)
Definition apiCallStep (precond : Precondition) (apiCall : APICall)
    (result : PreconditionResult) : M (PreconditionResult * option error) :=
  r <- executeAPICall apiCall ;;
  match r with
  | Err err =>
      setExecutionError {| ee_Phase := PhasePreconditions; ee_Step := pc_Name precond;
                           ee_Message := errorString err |} ;;
      ret (failed err result,
           Some (ExecutorError PhasePreconditions (pc_Name precond) "API call failed" (Some err)))
  | Ok apiResult =>
      let result := withResponse apiResult result in
      match jsonUnmarshal apiResult with
      | Err err =>
          setExecutionError {| ee_Phase := PhasePreconditions; ee_Step := pc_Name precond;
                               ee_Message := errorString err |} ;;
          ret (failed (WrapError "failed to parse API response as JSON" err) result,
               Some (ExecutorError PhasePreconditions (pc_Name precond)
                       "failed to parse API response" (Some err)))
      | Ok responseData =>
          result <- captureFields responseData (pc_Capture precond) result ;;
          ret (result, None)
      end
  end.

(** [fieldResults[cr.Field] = cr] for each result in order. *)
Definition fieldResultsOf (results : list EvaluationResult) : gmap string EvaluationResult :=
  foldl (fun m cr => <[er_Field cr := cr]> m) ∅ results.

(** Step 3 of [executePrecondition]: conditions, else the CEL expression,
    else trivially matched. *)
Definition evaluateStep (precond : Precondition) (result : PreconditionResult)
    : M (PreconditionResult * option error) :=
  ctx <- getCtx ;;
  let vars := Params ctx in
  match pc_Conditions precond with
  | _ :: _ =>
      match EvaluateConditionsWithResult vars (ToConditionDefs (pc_Conditions precond)) with
      | Err err =>
          ret (failed err result,
               Some (ExecutorError PhasePreconditions (pc_Name precond)
                       "condition evaluation failed" (Some err)))
      | Ok condResult =>
          modifyCtx (AddConditionsEvaluation PhasePreconditions (pc_Name precond)
                       (cr_Matched condResult) (fieldResultsOf (cr_Results condResult))) ;;
          ret (withEvaluated (cr_Matched condResult) (cr_Results condResult)
                 (pr_CELResult result) result, None)
      end
  | [] =>
      if String.eqb (pc_Expression precond) "" then
        ret (withEvaluated true (pr_ConditionResults result) (pr_CELResult result) result, None)
      else
        match EvaluateCEL vars (TrimSpace (pc_Expression precond)) with
        | Err err =>
            ret (failed err result,
                 Some (ExecutorError PhasePreconditions (pc_Name precond)
                         "CEL expression evaluation failed" (Some err)))
        | Ok celResult =>
            modifyCtx (AddCELEvaluation PhasePreconditions (pc_Name precond)
                         (pc_Expression precond) (cel_Matched celResult)) ;;
            ret (withEvaluated (cel_Matched celResult) (pr_ConditionResults result)
                   (Some celResult) result, None)
        end
  end.

Definition logOutcome (precond : Precondition) (result : PreconditionResult) : M unit :=
  if pr_Matched result
  then logAt LevelInfo ("Precondition '" +:+ pc_Name precond +:+ "' satisfied")
  else logAt LevelWarning ("Precondition '" +:+ pc_Name precond +:+ "' not satisfied").

(** Step 1 of [executePrecondition]: the opening log line and the log
    action. *)
Definition preamble (precond : Precondition) : M unit :=
  logAt LevelInfo ("Evaluating precondition: " +:+ pc_Name precond) ;;
  match pc_Log precond with Some l => runLogAction l | None => ret tt end.

(** Step 3 and the closing log line. *)
Definition finishStep (precond : Precondition) (result : PreconditionResult)
    : M (PreconditionResult * option error) :=
  r <- evaluateStep precond result ;;
  match r with
  | (result, Some err) => ret (result, Some err)
  | (result, None) => logOutcome precond result ;; ret (result, None)
  end.

(** [executePrecondition] executes a single precondition. *)
Definition executePrecondition (precond : Precondition)
    : M (PreconditionResult * option error) :=
  preamble precond ;;
  r <- match pc_APICall precond with
       | Some apiCall => apiCallStep precond apiCall (newResult precond)
       | None => ret (newResult precond, None)
       end ;;
  match r with
  | (result, Some err) => ret (result, Some err)
  | (result, None) => finishStep precond result
  end.

(** [formatConditionDetails] formats the details of an unmatched result. *)
Definition formatConditionDetails (result : PreconditionResult) : string :=
  let celDetails :=
    match pr_CELResult result with
    | Some c => if HasError c then ["CEL error: " +:+ cel_ErrorReason c] else []
    | None => []
    end in
  let condDetails :=
    flat_map (fun condResult =>
      if er_Matched condResult then []
      else [er_Field condResult +:+ " " +:+ er_Operator condResult +:+ " "
              +:+ formatValue (er_ExpectedValue condResult)
              +:+ " (actual: " +:+ formatValue (er_FieldValue condResult) +:+ ")"])
      (pr_ConditionResults result) in
  match (celDetails ++ condDetails)%list with
  | [] => "no specific details available"
  | details => Join details "; "
  end.

Definition notMetReason (precond : Precondition) (result : PreconditionResult) : string :=
  "precondition '" +:+ pc_Name precond +:+ "' not met: " +:+ formatConditionDetails result.

(** The loop of [ExecuteAll]; [results] is the slice appended to. *)
Fixpoint executeLoop (preconditions : list Precondition) (results : list PreconditionResult)
    : M PreconditionsOutcome :=
  match preconditions with
  | [] => ret {| po_AllMatched := true; po_Results := results;
                 po_Error := None; po_NotMetReason := "" |}
  | precond :: rest =>
      r <- executePrecondition precond ;;
      let '(result, err) := r in
      let results := results ++ [result] in
      match err with
      | Some e => ret {| po_AllMatched := false; po_Results := results;
                         po_Error := Some e; po_NotMetReason := "" |}
      | None =>
          if negb (pr_Matched result)
          then ret {| po_AllMatched := false; po_Results := results; po_Error := None;
                      po_NotMetReason := notMetReason precond result |}
          else executeLoop rest results
      end
  end.

(** [ExecuteAll] executes all preconditions in sequence. *)
Definition ExecuteAll (preconditions : list Precondition) : M PreconditionsOutcome :=
  executeLoop preconditions [].

(** An outcome whose results are preceded by the records in [acc]. *)
Definition prependResults (acc : list PreconditionResult) (o : PreconditionsOutcome)
    : PreconditionsOutcome :=
  {| po_AllMatched := po_AllMatched o; po_Results := acc ++ po_Results o;
     po_Error := po_Error o; po_NotMetReason := po_NotMetReason o |}.

End WithExternals.
End PreconditionExecutor.

(** ** The post-action executor *)

Module PostActionExecutor.
Section WithExternals.
Context `{!Externals}.

(** The build source of a payload: inline [Build], else [BuildRefContent]. *)
Definition buildDefOf (payload : Payload) : option Value :=
  match pl_Build payload with
  | VNil => match pl_BuildRefContent payload with VNil => None | v => Some v end
  | v => Some v
  end.

(** The loop of [buildPostPayloads]; [vars] are the variables the evaluator
    was created with. [Some err] is the error returned. *)
Fixpoint buildPayloadsLoop (vars : gmap string Value) (payloads : list Payload)
    : M (option error) :=
  match payloads with
  | [] => ret None
  | payload :: rest =>
      match buildDefOf payload with
      | None =>
          ret (Some (PlainError ("payload '" +:+ pl_Name payload
                                  +:+ "' has neither Build nor BuildRefContent")))
      | Some buildDef =>
          ctx <- getCtx ;;
          let '(built, entries) := buildPayload buildDef vars (Params ctx) in
          logAll entries ;;
          match built with
          | Err err =>
              ret (Some (WrapError ("failed to build payload '" +:+ pl_Name payload +:+ "'") err))
          | Ok builtPayload =>
              match jsonMarshal builtPayload with
              | Err err =>
                  ret (Some (WrapError ("failed to marshal payload '" +:+ pl_Name payload
                                         +:+ "' to JSON") err))
              | Ok jsonBytes =>
                  modifyCtx (withParams (insert (pl_Name payload) (VStr jsonBytes))) ;;
                  buildPayloadsLoop vars rest
              end
          end
      end
  end.

(** [buildPostPayloads] builds all post payloads and stores them in the
    parameters. *)
Definition buildPostPayloads (payloads : list Payload) : M (option error) :=
  ctx <- getCtx ;;
  buildPayloadsLoop
    (<["adapter" := adapterMetadataToMap (Adapter ctx)]> (Params ctx)) payloads.

Definition newResult (action : PostAction) : PostActionResult :=
  {| par_Name := pa_Name action; par_Status := StatusSuccess; par_APICallMade := false;
     par_APIResponse := None; par_HTTPStatus := 0; par_Error := None |}.

(** [result.APICallMade = true], then the response details when a response
    is available. *)
Definition withCall (resp : option Response) (r : PostActionResult) : PostActionResult :=
  match resp with
  | Some rp =>
      {| par_Name := par_Name r; par_Status := par_Status r; par_APICallMade := true;
         par_APIResponse := Some (Body rp); par_HTTPStatus := StatusCode rp;
         par_Error := par_Error r |}
  | None =>
      {| par_Name := par_Name r; par_Status := par_Status r; par_APICallMade := true;
         par_APIResponse := par_APIResponse r; par_HTTPStatus := par_HTTPStatus r;
         par_Error := par_Error r |}
  end.

(** [result.Status = StatusFailed; result.Error = validationErr]. *)
Definition failed (validationErr : error) (r : PostActionResult) : PostActionResult :=
  {| par_Name := par_Name r; par_Status := StatusFailed; par_APICallMade := par_APICallMade r;
     par_APIResponse := par_APIResponse r; par_HTTPStatus := par_HTTPStatus r;
     par_Error := Some validationErr |}.

Definition errorContext (resp : option Response) (err : option error) : string :=
  match err, resp with
  | None, Some rp =>
      if negb (IsSuccess rp) then "API call returned non-success status"
      else "API call failed"
  | _, _ => "API call failed"
  end.

(** [executeAPICall] executes an API call and populates the result with the
    response details. *)
Definition executeAPICall (apiCall : APICall) (result : PostActionResult)
    : M (PostActionResult * option error) :=
  r <- sendAPICall apiCall ;;
  let '(resp, url, err) := r in
  let result := withCall resp result in
  match ValidateAPIResponse resp err (ac_Method apiCall) url with
  | Some validationErr =>
      ret (failed validationErr result,
           Some (ExecutorError PhasePostActions (par_Name result)
                   (errorContext resp err) (Some validationErr)))
  | None => ret (result, None)
  end.

(** The opening log line and the log action of [executePostAction]. *)
Definition preamble (action : PostAction) : M unit :=
  logAt LevelInfo ("Executing post action: " +:+ pa_Name action) ;;
  match pa_Log action with Some l => runLogAction l | None => ret tt end.

(** [executePostAction] executes a single post-action. *)
Definition executePostAction (action : PostAction) : M (PostActionResult * option error) :=
  preamble action ;;
  r <- match pa_APICall action with
       | Some apiCall => executeAPICall apiCall (newResult action)
       | None => ret (newResult action, None)
       end ;;
  match r with
  | (result, Some err) => ret (result, Some err)
  | (result, None) =>
      logAt LevelInfo ("Post action '" +:+ pa_Name action +:+ "' completed") ;;
      ret (result, None)
  end.

(** Step 2 of [ExecuteAll]: sequential, stopping on the first failure. *)
Fixpoint actionsLoop (actions : list PostAction) (results : list PostActionResult)
    : M (list PostActionResult * option error) :=
  match actions with
  | [] => ret (results, None)
  | action :: rest =>
      r <- executePostAction action ;;
      let '(result, err) := r in
      let results := results ++ [result] in
      match err with
      | Some e =>
          logAt LevelError ("Post action '" +:+ pa_Name action +:+ "' failed: "
                             +:+ errorString e) ;;
          setExecutionError {| ee_Phase := PhasePostActions; ee_Step := pa_Name action;
                               ee_Message := errorString e |} ;;
          ret (results, Some e)
      | None => actionsLoop rest results
      end
  end.

(** [ExecuteAll] builds the payloads of [post.payloads], then executes
    [post.postActions]. *)
Definition ExecuteAll (postConfig : option PostConfig)
    : M (list PostActionResult * option error) :=
  match postConfig with
  | None => ret ([], None)
  | Some pc =>
      built <- match Payloads pc with
               | [] => ret None
               | _ :: _ => buildPostPayloads (Payloads pc)
               end ;;
      match built with
      | Some err =>
          setExecutionError {| ee_Phase := PhasePostActions; ee_Step := "build_payloads";
                               ee_Message := errorString err |} ;;
          ret ([], Some (ExecutorError PhasePostActions "build_payloads"
                           "failed to build post payloads" (Some err)))
      | None => actionsLoop (PostActions pc) []
      end
  end.

End WithExternals.
End PostActionExecutor.

(** ** The event interpreter *)

(** The part of a CloudEvent the executor consumes. *)
Record Event := { evt_ID : string; evt_Data : string }.

Section Executor.
Context `{!Externals}.

(** [parseEventData] parses the CloudEvent data payload into a map. *)
Definition parseEventData (evt : option Event) : Res (gmap string Value) :=
  match evt with
  | None => Ok ∅
  | Some e =>
      if String.eqb (evt_Data e) "" then Ok ∅
      else match jsonUnmarshal (evt_Data e) with
           | Err err => Err (WrapError "failed to parse event data as JSON" err)
           | Ok eventData => Ok eventData
           end
  end.

(** [executeParamExtraction]: the configured parameters, then the metadata
    parameters. *)
Definition executeParamExtraction (config : AdapterConfig) : M (option error) :=
  fun w =>
    let '(ctx, err) := extractConfigParams config (execCtx w) (cluster w) in
    match err with
    | Some e => (Some e, (modifyCtx (fun _ => ctx) w).2)
    | None => (None, (modifyCtx (fun _ => addMetadataParams config ctx) w).2)
    end.

(** The result as initialised by [Execute]; [Params] and [ExecutionContext]
    alias the context, so they are read off it when the result is returned. *)
Definition initResult (evt : Event) : ExecutionResult :=
  {| EventID := evt_ID evt; Phase := PhaseNone; Status := StatusSuccess;
     ResourcesSkipped := false; SkipReason := ""; ErrorReason := ""; Error := None;
     ResultParams := ∅; PreconditionResults := []; ResourceResults := [];
     PostActionResults := []; ResultContext := None |}.

Definition setPhase (p : ExecutionPhase) (r : ExecutionResult) : ExecutionResult :=
  {| EventID := EventID r; Phase := p; Status := Status r;
     ResourcesSkipped := ResourcesSkipped r; SkipReason := SkipReason r;
     ErrorReason := ErrorReason r; Error := Error r; ResultParams := ResultParams r;
     PreconditionResults := PreconditionResults r; ResourceResults := ResourceResults r;
     PostActionResults := PostActionResults r; ResultContext := ResultContext r |}.

(** [result.Status = StatusFailed; result.Error = err; result.ErrorReason = reason]. *)
Definition setFailed (err : error) (reason : string) (r : ExecutionResult) : ExecutionResult :=
  {| EventID := EventID r; Phase := Phase r; Status := StatusFailed;
     ResourcesSkipped := ResourcesSkipped r; SkipReason := SkipReason r;
     ErrorReason := reason; Error := Some err; ResultParams := ResultParams r;
     PreconditionResults := PreconditionResults r; ResourceResults := ResourceResults r;
     PostActionResults := PostActionResults r; ResultContext := ResultContext r |}.

Definition setSkipped (reason : string) (r : ExecutionResult) : ExecutionResult :=
  {| EventID := EventID r; Phase := Phase r; Status := Status r;
     ResourcesSkipped := true; SkipReason := reason;
     ErrorReason := ErrorReason r; Error := Error r; ResultParams := ResultParams r;
     PreconditionResults := PreconditionResults r; ResourceResults := ResourceResults r;
     PostActionResults := PostActionResults r; ResultContext := ResultContext r |}.

Definition setPreconditionResults (l : list PreconditionResult) (r : ExecutionResult)
    : ExecutionResult :=
  {| EventID := EventID r; Phase := Phase r; Status := Status r;
     ResourcesSkipped := ResourcesSkipped r; SkipReason := SkipReason r;
     ErrorReason := ErrorReason r; Error := Error r; ResultParams := ResultParams r;
     PreconditionResults := l; ResourceResults := ResourceResults r;
     PostActionResults := PostActionResults r; ResultContext := ResultContext r |}.

Definition setResourceResults (l : list ResourceResult) (r : ExecutionResult)
    : ExecutionResult :=
  {| EventID := EventID r; Phase := Phase r; Status := Status r;
     ResourcesSkipped := ResourcesSkipped r; SkipReason := SkipReason r;
     ErrorReason := ErrorReason r; Error := Error r; ResultParams := ResultParams r;
     PreconditionResults := PreconditionResults r; ResourceResults := l;
     PostActionResults := PostActionResults r; ResultContext := ResultContext r |}.

Definition setPostActionResults (l : list PostActionResult) (r : ExecutionResult)
    : ExecutionResult :=
  {| EventID := EventID r; Phase := Phase r; Status := Status r;
     ResourcesSkipped := ResourcesSkipped r; SkipReason := SkipReason r;
     ErrorReason := ErrorReason r; Error := Error r; ResultParams := ResultParams r;
     PreconditionResults := PreconditionResults r; ResourceResults := ResourceResults r;
     PostActionResults := l; ResultContext := ResultContext r |}.

(** [result.ExecutionContext = execCtx], with [result.Params] read through
    the alias [result.Params = execCtx.Params]. *)
Definition attachContext (ctx : ExecutionContext) (r : ExecutionResult) : ExecutionResult :=
  {| EventID := EventID r; Phase := Phase r; Status := Status r;
     ResourcesSkipped := ResourcesSkipped r; SkipReason := SkipReason r;
     ErrorReason := ErrorReason r; Error := Error r; ResultParams := Params ctx;
     PreconditionResults := PreconditionResults r; ResourceResults := ResourceResults r;
     PostActionResults := PostActionResults r; ResultContext := Some ctx |}.

Definition failureLine (r : ExecutionResult) : string :=
  "Event execution failed: id=" +:+ EventID r +:+ " phase=" +:+ phaseString (Phase r)
    +:+ " reason=" +:+ ErrorReason r.

(** [finishWithError] handles early termination with an error. *)
Definition finishWithError (result : ExecutionResult) (err : error) (reason : string)
    : M ExecutionResult :=
  ctx <- getCtx ;;
  let result := attachContext ctx (setFailed err reason result) in
  logAt LevelError (failureLine result) ;;
  ret result.

(** Phase 2 of [Execute]. *)
Definition preconditionsPhase (config : AdapterConfig) (result : ExecutionResult)
    : M ExecutionResult :=
  let result := setPhase PhasePreconditions result in
  precondOutcome <- PreconditionExecutor.ExecuteAll (spec_Preconditions config) ;;
  let result := setPreconditionResults (po_Results precondOutcome) result in
  match po_Error precondOutcome with
  | Some err =>
      modifyCtx (SetError "PreconditionFailed" (errorString err)) ;;
      logAt LevelError ("Precondition execution failed: " +:+ errorString err) ;;
      ret (setFailed err "precondition evaluation failed" result)
  | None =>
      if negb (po_AllMatched precondOutcome) then
        modifyCtx (SetSkipped "PreconditionNotMet" (po_NotMetReason precondOutcome)) ;;
        logAt LevelInfo ("Preconditions not met, resources will be skipped: "
                          +:+ po_NotMetReason precondOutcome) ;;
        ret (setSkipped (po_NotMetReason precondOutcome) result)
      else
        logAt LevelInfo ("Preconditions completed: "
                          +:+ pretty (length (po_Results precondOutcome))
                          +:+ " preconditions evaluated") ;;
        ret result
  end.

Definition isSuccess (s : ExecutionStatus) : bool :=
  match s with StatusSuccess => true | StatusFailed => false end.

(** Phase 3 of [Execute]. *)
Definition resourcesPhase (config : AdapterConfig) (result : ExecutionResult)
    : M ExecutionResult :=
  let result := setPhase PhaseResources result in
  if isSuccess (Status result) && negb (ResourcesSkipped result) then
    r <- resourceExecuteAll (spec_Resources config) ;;
    let '(resourceResults, err) := r in
    let result := setResourceResults resourceResults result in
    match err with
    | Some e =>
        modifyCtx (SetError "ResourceFailed" (errorString e)) ;;
        logAt LevelError ("Resource execution failed: " +:+ errorString e) ;;
        ret (setFailed e "resource execution failed" result)
    | None =>
        logAt LevelInfo ("Resources completed: " +:+ pretty (length resourceResults)
                          +:+ " resources processed") ;;
        ret result
    end
  else if ResourcesSkipped result then
    logAt LevelInfo ("Resources skipped: " +:+ SkipReason result) ;;
    ret result
  else
    logAt LevelInfo "Resources skipped due to previous error" ;;
    ret result.

(** Phase 4 of [Execute]. *)
Definition postActionsPhase (config : AdapterConfig) (result : ExecutionResult)
    : M ExecutionResult :=
  let result := setPhase PhasePostActions result in
  r <- PostActionExecutor.ExecuteAll (spec_Post config) ;;
  let '(postResults, err) := r in
  let result := setPostActionResults postResults result in
  match err with
  | Some e =>
      logAt LevelError ("Post action execution failed: " +:+ errorString e) ;;
      ret (setFailed e "post action execution failed" result)
  | None =>
      logAt LevelInfo ("Post actions completed: " +:+ pretty (length postResults)
                        +:+ " actions executed") ;;
      ret result
  end.

(** The finalisation of [Execute]: attach the context, log the outcome. *)
Definition finalize (result : ExecutionResult) : M ExecutionResult :=
  ctx <- getCtx ;;
  let result := attachContext ctx result in
  (if isSuccess (Status result) then
     if ResourcesSkipped result then
       logAt LevelInfo ("Event execution completed successfully (resources skipped): id="
                         +:+ EventID result +:+ " reason=" +:+ SkipReason result)
     else
       logAt LevelInfo ("Event execution completed successfully: id=" +:+ EventID result)
   else logAt LevelError (failureLine result)) ;;
  ret result.

(** What [Execute] returns for a nil event. *)
Definition nilEventResult : ExecutionResult :=
  {| EventID := ""; Phase := PhaseNone; Status := StatusFailed;
     ResourcesSkipped := false; SkipReason := ""; ErrorReason := "nil event received";
     Error := Some (ExecutorError PhaseParamExtraction "init" "event is required" None);
     ResultParams := ∅; PreconditionResults := []; ResourceResults := [];
     PostActionResults := []; ResultContext := None |}.

(** What [Execute] returns when the event data does not parse. *)
Definition parseFailureResult (e : Event) (err : error) : ExecutionResult :=
  {| EventID := evt_ID e; Phase := PhaseParamExtraction; Status := StatusFailed;
     ResourcesSkipped := false; SkipReason := "";
     ErrorReason := "event data parsing failed";
     Error := Some (ExecutorError PhaseParamExtraction "parse_event"
                      "failed to parse event data" (Some err));
     ResultParams := ∅; PreconditionResults := []; ResourceResults := [];
     PostActionResults := []; ResultContext := None |}.

(** The setup of [Execute] once the event data is parsed: a fresh context
    for the event. *)
Definition beginExecution (e : Event) (eventData : gmap string Value) : M unit :=
  modifyCtx (fun _ => NewExecutionContext eventData) ;;
  logAt LevelInfo ("Starting event execution: id=" +:+ evt_ID e).

Definition announceParams : M unit :=
  ctx <- getCtx ;;
  logAt LevelInfo ("Parameter extraction completed: extracted "
                    +:+ pretty (size (Params ctx)) +:+ " params").

(** Phases 2 and 3, after the log line that closes phase 1. *)
Definition earlierPhases (config : AdapterConfig) (result : ExecutionResult)
    : M ExecutionResult :=
  announceParams ;;
  result <- preconditionsPhase config result ;;
  resourcesPhase config result.

(** Phase 4 and the finalisation. *)
Definition lastPhases (config : AdapterConfig) (result : ExecutionResult)
    : M ExecutionResult :=
  result <- postActionsPhase config result ;;
  finalize result.

(** The phases that follow a successful parameter extraction. *)
Definition laterPhases (config : AdapterConfig) (result : ExecutionResult)
    : M ExecutionResult :=
  result <- earlierPhases config result ;;
  lastPhases config result.

(** [Execute] processes a CloudEvent according to the adapter configuration. *)
Definition Execute (config : AdapterConfig) (evt : option Event) : M ExecutionResult :=
  match evt with
  | None => ret nilEventResult
  | Some e =>
      match parseEventData evt with
      | Err err => ret (parseFailureResult e err)
      | Ok eventData =>
          beginExecution e eventData ;;
          let result := setPhase PhaseParamExtraction (initResult e) in
          extraction <- executeParamExtraction config ;;
          match extraction with
          | Some err => finishWithError result err "parameter extraction failed"
          | None => laterPhases config result
          end
      end
  end.

(** [CreateHandler]: the handler given to the broker subscriber; [None] is
    the nil error that acknowledges the event. *)
Definition CreateHandler (config : AdapterConfig) (evt : option Event) : M (option error) :=
  result <- Execute config evt ;;
  match Status result with
  | StatusFailed =>
      match Phase result with
      | PhaseParamExtraction => ret None
      | _ => ret (Error result)
      end
  | StatusSuccess => ret None
  end.

End Executor.

(** ** The ManifestWork builder (package [maestro_client]) *)

Module MaestroClient.

(** The metadata of a ManifestWork the builder reads and writes. *)
Record ObjectMeta := {
  om_Name : string;
  om_Namespace : string;
  om_Labels : gmap string string;
  om_Annotations : gmap string string
}.

(** A ManifestWork: metadata and the workload manifests, each a decoded
    object. *)
Record ManifestWork := {
  mw_Meta : ObjectMeta;
  mw_Manifests : list Value
}.

(** [transport_client.ResourceToApply]; [None] is the nil manifest. *)
Record ResourceToApply := {
  rta_Name : string;
  rta_Manifest : option Value
}.

(** Modelled from the spec: [buildManifestWork] is a method of the Maestro
    client that is missing from the translated files (its tests are
    present). By section 4.8 step 3, name, labels and annotations are taken
    from the template, the namespace is the consumer id supplied at call
    time, and the workload manifests of the template are replaced by the
    concrete manifests of the resources to apply (nil entries skipped) when
    there is at least one, and are used as they are otherwise. *)
Definition buildManifestWork (template : ManifestWork) (resources : list ResourceToApply)
    (consumerName : string) : ManifestWork :=
  {| mw_Meta := {| om_Name := om_Name (mw_Meta template);
                   om_Namespace := consumerName;
                   om_Labels := om_Labels (mw_Meta template);
                   om_Annotations := om_Annotations (mw_Meta template) |};
     mw_Manifests := match omap rta_Manifest resources with
                     | [] => mw_Manifests template
                     | explicit => explicit
                     end |}.

(** The fixtures of the builder's tests; [AnnotationGeneration] stands for
    the annotation key of [pkg/constants]. *)
Definition AnnotationGeneration : string := "generation".

Definition bareNamespace (name : string) : Value :=
  VMap (<[ "apiVersion" := VStr "v1" ]>
        (<[ "kind" := VStr "Namespace" ]>
         {[ "metadata" := VMap {[ "name" := VStr name ]} ]})).

Definition configMap (name : string) : Value :=
  VMap (<[ "apiVersion" := VStr "v1" ]>
        (<[ "kind" := VStr "ConfigMap" ]>
         {[ "metadata" := VMap (<[ "name" := VStr name ]>
                                {[ "namespace" := VStr "default" ]}) ]})).

Definition newTestTemplate (name : string) (manifests : list Value) : ManifestWork :=
  {| mw_Meta := {| om_Name := name; om_Namespace := "";
                   om_Labels := {[ "test" := "true" ]};
                   om_Annotations := {[ AnnotationGeneration := "1" ]} |};
     mw_Manifests := manifests |}.

End MaestroClient.

(** ** The deep copier

    The executor's context is modelled with immutable trees; what a deep copy
    isolates is only visible where maps and slices are objects that can be
    written to, so the copier is modelled over a heap of such objects. *)

Module DeepCopy.

(** Locations of the map and slice objects of the Go heap. *)
Definition loc := positive.

(** Values as Go holds them: a map or a slice is a reference to an object
    (or nil); functions and channels are opaque handles. *)
Inductive HValue :=
| HNil
| HBool (b : bool)
| HNum (n : Z)
| HStr (s : string)
| HMap (l : option loc)
| HSlice (l : option loc)
| HOpaque (id : nat).

(** The objects references point to. *)
Inductive HObject :=
| OMap (m : gmap string HValue)
| OSlice (s : list HValue).

(** The object a value refers to directly. *)
Definition refOf (v : HValue) : option loc :=
  match v with
  | HMap (Some l) | HSlice (Some l) => Some l
  | _ => None
  end.

(** [holds o x]: [x] is an entry value or an element of the object [o]. *)
Definition holds (o : HObject) (x : HValue) : Prop :=
  match o with
  | OMap m => ∃ k, m !! k = Some x
  | OSlice s => x ∈ s
  end.

(** Structural equality of [v1] in heap [h1] and [v2] in heap [h2], as
    [assert.Equal] compares trees, down to depth [d]. *)
Fixpoint deepEqual (d : nat) (h1 : gmap loc HObject) (v1 : HValue)
    (h2 : gmap loc HObject) (v2 : HValue) : Prop :=
  match v1, v2 with
  | HNil, HNil => True
  | HBool a, HBool b => a = b
  | HNum a, HNum b => a = b
  | HStr a, HStr b => a = b
  | HOpaque a, HOpaque b => a = b
  | HMap None, HMap None => True
  | HSlice None, HSlice None => True
  | HMap (Some l1), HMap (Some l2) =>
      match d with
      | 0 => False
      | S d' =>
          match h1 !! l1, h2 !! l2 with
          | Some (OMap m1), Some (OMap m2) =>
              ∀ k, match m1 !! k, m2 !! k with
                   | Some a, Some b => deepEqual d' h1 a h2 b
                   | None, None => True
                   | _, _ => False
                   end
          | _, _ => False
          end
      end
  | HSlice (Some l1), HSlice (Some l2) =>
      match d with
      | 0 => False
      | S d' =>
          match h1 !! l1, h2 !! l2 with
          | Some (OSlice s1), Some (OSlice s2) =>
              Forall2 (fun a b => deepEqual d' h1 a h2 b) s1 s2
          | _, _ => False
          end
      end
  | _, _ => False
  end.

(** [isTree d h v]: every reference below [v] resolves in [h] to an object
    of its kind, within depth [d]. *)
Fixpoint isTree (d : nat) (h : gmap loc HObject) (v : HValue) : bool :=
  match v with
  | HMap (Some l) =>
      match d with
      | 0 => false
      | S d' =>
          match h !! l with
          | Some (OMap m) => map_fold (fun _ x acc => isTree d' h x && acc) true m
          | _ => false
          end
      end
  | HSlice (Some l) =>
      match d with
      | 0 => false
      | S d' =>
          match h !! l with
          | Some (OSlice s) => forallb (isTree d' h) s
          | _ => false
          end
      end
  | _ => true
  end.

(** The objects that can be reached from a value. *)
Inductive reach (h : gmap loc HObject) : HValue → loc → Prop :=
| reach_here v l : refOf v = Some l → reach h v l
| reach_inside v l o x l' :
    refOf v = Some l → h !! l = Some o → holds o x → reach h x l' → reach h v l'.

(** Copies the elements of a slice in order, threading the heap. *)
Fixpoint copyList (f : HValue → gmap loc HObject → HValue * gmap loc HObject)
    (s : list HValue) (h : gmap loc HObject) : list HValue * gmap loc HObject :=
  match s with
  | [] => ([], h)
  | x :: xs =>
      let '(x', h1) := f x h in
      let '(xs', h2) := copyList f xs h1 in
      (x' :: xs', h2)
  end.

(** Copies one entry of a map into the entries copied so far. *)
Definition copyEntry (f : HValue → gmap loc HObject → HValue * gmap loc HObject)
    (k : string) (x : HValue) (st : gmap string HValue * gmap loc HObject)
    : gmap string HValue * gmap loc HObject :=
  let '(x', h) := f x st.2 in (<[k := x']> st.1, h).

(** Modelled from the spec: [deepCopyMap] is declared in a file of the
    executor that is missing from the translated files (its tests are
    present). By section 4.3, for maps and slices it produces structurally
    independent copies, scalars are reproduced by value, opaque values are
    preserved by reference and nil maps return nil. Every map and slice
    object below [v] is allocated anew; [d] bounds the depth that is
    copied. *)
Fixpoint deepCopy (d : nat) (v : HValue) (h : gmap loc HObject)
    : HValue * gmap loc HObject :=
  match d with
  | 0 => (v, h)
  | S d' =>
      match v with
      | HMap (Some l) =>
          match h !! l with
          | Some (OMap m) =>
              let '(m', h1) := map_fold (copyEntry (deepCopy d')) (∅, h) m in
              let l' := fresh (dom h1) in
              (HMap (Some l'), <[l' := OMap m']> h1)
          | _ => (v, h)
          end
      | HSlice (Some l) =>
          match h !! l with
          | Some (OSlice s) =>
              let '(s', h1) := copyList (deepCopy d') s h in
              let l' := fresh (dom h1) in
              (HSlice (Some l'), <[l' := OSlice s']> h1)
          | _ => (v, h)
          end
      | _ => (v, h)
      end
  end.

(** The mutations of the tests: [m[k] = v] on the map object at [l], and
    [s[i] = v] on the slice object at [l]. *)
Definition setEntry (l : loc) (k : string) (v : HValue) (h : gmap loc HObject)
    : gmap loc HObject :=
  match h !! l with
  | Some (OMap m) => <[l := OMap (<[k := v]> m)]> h
  | _ => h
  end.

Definition setElement (l : loc) (i : nat) (v : HValue) (h : gmap loc HObject)
    : gmap loc HObject :=
  match h !! l with
  | Some (OSlice s) => <[l := OSlice (<[i := v]> s)]> h
  | _ => h
  end.

(** Rendering of a string leaf; other values are left as they are. *)
Definition renderLeaf (render : string → string) (v : HValue) : HValue :=
  match v with
  | HStr s => HStr (render s)
  | _ => v
  end.

(** Rendering of the keys and string leaves of a map object. *)
Definition renderEntries (render : string → string) (m : gmap string HValue)
    : gmap string HValue :=
  map_fold (fun k x acc => <[render k := renderLeaf render x]> acc) ∅ m.

(** Modelled from the spec: the resource executor is missing from the
    translated files. By section 4.8 step 2 all string leaves, keys and
    values, of the copy are rendered; the rendering overwrites the objects of
    the tree it is given. *)
Fixpoint renderInPlace (render : string → string) (d : nat) (v : HValue)
    (h : gmap loc HObject) : gmap loc HObject :=
  match d with
  | 0 => h
  | S d' =>
      match v with
      | HMap (Some l) =>
          match h !! l with
          | Some (OMap m) =>
              <[l := OMap (renderEntries render m)]>
                (map_fold (fun _ x hc => renderInPlace render d' x hc) h m)
          | _ => h
          end
      | HSlice (Some l) =>
          match h !! l with
          | Some (OSlice s) =>
              <[l := OSlice (renderLeaf render <$> s)]>
                (foldl (fun hc x => renderInPlace render d' x hc) h s)
          | _ => h
          end
      | _ => h
      end
  end.

(** Modelled from the spec: the resource executor is missing from the
    translated files. By section 4.8, steps 1 and 2, the resource step
    deep-copies the template and renders the copy; the rendered tree is what
    is handed to the apply collaborator. *)
Definition renderResource (render : string → string) (d : nat) (template : HValue)
    (h : gmap loc HObject) : HValue * gmap loc HObject :=
  let '(copied, h1) := deepCopy d template h in
  (copied, renderInPlace render d copied h1).

(** [closedOver old h]: the objects of [h] outside [old] refer to no object
    of [old]. *)
Definition closedOver (old : gset loc) (h : gmap loc HObject) : Prop :=
  ∀ l o x l2, h !! l = Some o → l ∉ old → holds o x → refOf x = Some l2 → l2 ∉ old.

(** [freshRef old v]: [v] refers to no object of [old]. *)
Definition freshRef (old : gset loc) (v : HValue) : Prop :=
  ∀ l, refOf v = Some l → l ∉ old.

(** The invariant of the copy of the entries of a map: the heap has grown,
    stays closed, and the entries copied so far equal their originals and are
    fresh. *)
Definition copiedEntries (old : gset loc) (d : nat) (h : gmap loc HObject)
    (mp : gmap string HValue) (st : gmap string HValue * gmap loc HObject) : Prop :=
  h ⊆ st.2 ∧ closedOver old st.2 ∧
  ∀ k, match mp !! k, st.1 !! k with
       | Some a, Some b => deepEqual d h a st.2 b ∧ freshRef (dom h) b
       | None, None => True
       | _, _ => False
       end.

(** What [deepCopy] guarantees at depth [d]. *)
Definition copySpec (old : gset loc) (d : nat) : Prop :=
  ∀ (v : HValue) (h : gmap loc HObject),
    deepEqual d h v h v → old ⊆ dom h → closedOver old h →
    let r := deepCopy d v h in
    h ⊆ r.2 ∧ deepEqual d h v r.2 r.1 ∧ freshRef (dom h) r.1 ∧ closedOver old r.2.

(** What [renderInPlace] guarantees at depth [d]. *)
Definition renderSpec (render : string → string) (old : gset loc) (d : nat) : Prop :=
  ∀ (v : HValue) (h : gmap loc HObject),
    closedOver old h → freshRef old v →
    (∀ l, l ∈ old → renderInPlace render d v h !! l = h !! l)
    ∧ closedOver old (renderInPlace render d v h).

(** The fixture of [TestDeepCopyMap_NestedMaps]: three nested maps. *)
Definition nestedOriginal : gmap loc HObject :=
  <[1%positive := OMap {[ "level1" := HMap (Some 2%positive) ]}]>
    (<[2%positive := OMap {[ "level2" := HMap (Some 3%positive) ]}]>
       {[ 3%positive := OMap {[ "value" := HStr "deep" ]} ]}).

(** The fixture of [TestDeepCopyMap_Slices]. *)
Definition sliceOriginal : gmap loc HObject :=
  <[1%positive := OMap (<[ "items" := HSlice (Some 2%positive) ]>
                          {[ "nested" := HSlice (Some 3%positive) ]})]>
    (<[2%positive := OSlice [HStr "a"; HStr "b"; HStr "c"]]>
       (<[3%positive := OSlice [HMap (Some 4%positive)]]>
          {[ 4%positive := OMap {[ "key" := HStr "value" ]} ]})).

(** [v[k]] for a map value, [v[i]] for a slice value. *)
Definition entryOf (h : gmap loc HObject) (v : HValue) (k : string) : option HValue :=
  match v with
  | HMap (Some l) => match h !! l with Some (OMap m) => m !! k | _ => None end
  | _ => None
  end.

Definition elementOf (h : gmap loc HObject) (v : HValue) (i : nat) : option HValue :=
  match v with
  | HSlice (Some l) => match h !! l with Some (OSlice s) => s !! i | _ => None end
  | _ => None
  end.

(** The path [level1.level2.value] below a value. *)
Definition innermost (h : gmap loc HObject) (v : HValue) : option HValue :=
  level1 ← entryOf h v "level1";
  level2 ← entryOf h level1 "level2";
  entryOf h level2 "value".

(** [TestDeepCopyMap_NestedMaps]: copy, assign [level2["value"]] in the
    copy, then read the value in the copy and in the original. *)
Definition nestedMapsTest : option HValue * option HValue :=
  let original := HMap (Some 1%positive) in
  let '(copied, h) := deepCopy 8 original nestedOriginal in
  let level2 := entryOf h copied "level1" ≫= fun level1 => entryOf h level1 "level2" in
  let h' := match level2 ≫= refOf with
            | Some l => setEntry l "value" (HStr "modified") h
            | None => h
            end in
  (innermost h' copied, innermost h' original).

(** [TestDeepCopyMap_Slices]: copy, assign [items[0]] in the copy, then read
    the element in the copy and in the original. *)
Definition slicesTest : option HValue * option HValue :=
  let original := HMap (Some 1%positive) in
  let '(copied, h) := deepCopy 8 original sliceOriginal in
  let h' := match entryOf h copied "items" ≫= refOf with
            | Some l => setElement l 0 (HStr "modified") h
            | None => h
            end in
  (entryOf h' copied "items" ≫= fun items => elementOf h' items 0,
   entryOf h' original "items" ≫= fun items => elementOf h' items 0).

End DeepCopy.

(** ** A test double for the collaborators

    A small API server, evaluator and cluster in the style of the mocks of
    the executor's tests; the scenarios below run the engine against it. *)

Module Demo.

Definition readyBody : string := "{status:ready}".
Definition readyWithIdBody : string := "{status:ready,id:c-1}".
Definition pendingBody : string := "{status:pending}".

Definition serve (c : APICall) : option Response * string * option error :=
  if String.eqb (ac_URL c) "/clusters/ready" then
    (Some {| StatusCode := 200; Body := readyBody |}, ac_URL c, None)
  else if String.eqb (ac_URL c) "/clusters/ready-id" then
    (Some {| StatusCode := 200; Body := readyWithIdBody |}, ac_URL c, None)
  else if String.eqb (ac_URL c) "/clusters/pending" then
    (Some {| StatusCode := 200; Body := pendingBody |}, ac_URL c, None)
  else if String.eqb (ac_URL c) "/status" then
    (Some {| StatusCode := 201; Body := "accepted" |}, ac_URL c, None)
  else if String.eqb (ac_URL c) "/broken" then
    (Some {| StatusCode := 500; Body := "internal error" |}, ac_URL c, None)
  else (None, ac_URL c, Some (PlainError "connection refused")).

Definition decode (body : string) : Res (gmap string Value) :=
  if String.eqb body readyBody then Ok {[ "status" := VStr "ready" ]}
  else if String.eqb body readyWithIdBody then
    Ok (<[ "id" := VStr "c-1" ]> {[ "status" := VStr "ready" ]})
  else if String.eqb body pendingBody then Ok {[ "status" := VStr "pending" ]}
  else if String.eqb body "{id:evt}" then Ok {[ "id" := VStr "evt" ]}
  else Err (PlainError "invalid character").

Definition show (v : Value) : string :=
  match v with
  | VStr s => s
  | VNil => "<nil>"
  | VBool true => "true"
  | VBool false => "false"
  | VNum n => pretty n
  | _ => "..."
  end.

(** The [equals] operator on top-level string fields. *)
Definition evalCondition (vars : gmap string Value) (c : ConditionDef) : EvaluationResult :=
  let actual := default VNil (vars !! cd_Field c) in
  {| er_Field := cd_Field c; er_Operator := cd_Operator c;
     er_ExpectedValue := cd_Value c; er_FieldValue := actual;
     er_Matched := match actual, cd_Value c with
                   | VStr a, VStr b => String.eqb a b
                   | _, _ => false
                   end |}.

Definition evalConditions (vars : gmap string Value) (cs : list ConditionDef)
    : Res ConditionsResult :=
  let results := evalCondition vars <$> cs in
  Ok {| cr_Matched := forallb er_Matched results; cr_Results := results |}.

Definition evalCEL (vars : gmap string Value) (expr : string) : Res CELResult :=
  if String.eqb expr "true" then
    Ok {| cel_Matched := true; cel_Value := VBool true; cel_ErrorReason := ""; cel_Error := None |}
  else if String.eqb expr "false" then
    Ok {| cel_Matched := false; cel_Value := VBool false; cel_ErrorReason := ""; cel_Error := None |}
  else Err (PlainError "undeclared reference").

Fixpoint describe (e : error) : string :=
  match e with
  | ExecutorError _ step message cause =>
      step +:+ ": " +:+ message +:+
      match cause with Some c => ": " +:+ describe c | None => "" end
  | APIError method url status _ cause =>
      method +:+ " " +:+ url +:+ " -> " +:+ pretty status +:+
      match cause with Some c => ": " +:+ describe c | None => "" end
  | WrapError msg cause => msg +:+ ": " +:+ describe cause
  | PlainError msg => msg
  end.

(** Parameter extraction requires the event to carry an [id]. *)
Definition extract (config : AdapterConfig) (ctx : ExecutionContext)
    (cluster : gmap string Value) : ExecutionContext * option error :=
  match EventData ctx !! "id" with
  | Some v => (withParams (insert "id" v) ctx, None)
  | None => (ctx, Some (ExecutorError PhaseParamExtraction "extract"
                          "required parameter 'id' is missing" None))
  end.

Definition applyResource (r : Resource) (w : World) : World :=
  {| execCtx := execCtx w; logs := logs w; apiCalls := apiCalls w;
     cluster := <[rs_Name r := rs_Manifest r]> (cluster w) |}.

Definition applyAll (rs : list Resource) (w : World)
    : (list ResourceResult * option error) * World :=
  (((fun r => {| rr_Name := rs_Name r; rr_Status := StatusSuccess; rr_Error := None |}) <$> rs,
    None), foldl (fun w r => applyResource r w) w rs).

Definition phaseText (p : ExecutionPhase) : string :=
  match p with
  | PhaseNone => ""
  | PhaseParamExtraction => "param_extraction"
  | PhasePreconditions => "preconditions"
  | PhaseResources => "resources"
  | PhasePostActions => "post_actions"
  end.

Definition externals : Externals :=
  {| ExecuteAPICall := fun c _ _ => serve c;
     ExecuteLogAction := fun l _ => [(LevelInfo, la_Message l)];
     jsonUnmarshal := decode;
     jsonMarshal := fun v => Ok (show v);
     EvaluateConditionsWithResult := evalConditions;
     EvaluateCEL := evalCEL;
     HasError := fun r => match cel_Error r with Some _ => true | None => false end;
     ToConditionDefs := fmap (fun c => {| cd_Field := cond_Field c;
                                          cd_Operator := cond_Operator c;
                                          cd_Value := cond_Value c |});
     buildPayload := fun v _ _ => (Ok v, []);
     adapterMetadataToMap := fun _ => VMap ∅;
     extractConfigParams := extract;
     addMetadataParams := fun _ ctx => ctx;
     resourceExecuteAll := applyAll;
     errorString := describe;
     phaseString := phaseText;
     formatValue := show;
     TrimSpace := fun s => s |}.

Definition emptyWorld : World :=
  {| execCtx := NewExecutionContext ∅; logs := []; apiCalls := []; cluster := ∅ |}.

Definition call (url : string) : APICall :=
  {| ac_Method := "GET"; ac_URL := url; ac_Headers := []; ac_Body := "" |}.

Definition statusEq (expected : string) : Condition :=
  {| cond_Field := "status"; cond_Operator := "equals"; cond_Value := VStr expected |}.

(** A precondition that calls [url], captures [id] as [clusterId] and
    [status] as [status], and requires [status] to equal [ready]. *)
Definition clusterReady (name url : string) : Precondition :=
  {| pc_Name := name; pc_Log := None; pc_APICall := Some (call url);
     pc_Capture := [{| cf_Name := "clusterId"; cf_Field := "id" |};
                    {| cf_Name := "status"; cf_Field := "status" |}];
     pc_Conditions := [statusEq "ready"]; pc_Expression := "" |}.

(** A precondition with neither conditions nor an expression. *)
Definition bare (name : string) : Precondition :=
  {| pc_Name := name; pc_Log := None; pc_APICall := None;
     pc_Capture := []; pc_Conditions := []; pc_Expression := "" |}.

Definition namespaceResource : Resource :=
  {| rs_Name := "ns"; rs_Manifest := VMap {[ "kind" := VStr "Namespace" ]} |}.

Definition report (url : string) : PostConfig :=
  {| Payloads := [];
     PostActions := [{| pa_Name := "report"; pa_Log := None; pa_APICall := Some (call url) |}] |}.

Definition config (preconditions : list Precondition) (post : PostConfig) : AdapterConfig :=
  {| spec_Preconditions := preconditions; spec_Resources := [namespaceResource];
     spec_Post := Some post |}.

Definition eventWithId : Event := {| evt_ID := "evt-1"; evt_Data := "{id:evt}" |}.
Definition eventWithoutId : Event := {| evt_ID := "evt-2"; evt_Data := readyBody |}.

End Demo.

(** ** Construction of the executor *)

Module Construction.
Section WithClients.
(** The clients and the logger are interface values, [None] being nil; what
    the resource executor keeps of the Kubernetes client is its own
    business. The Go builder updates its configuration in place and hands
    the same pointer to the executor it builds; here every setter returns
    the updated builder. *)
Context {APIClient K8sClient Logger ResourceExecutor : Type}.
Variable NewResourceExecutor : option K8sClient → ResourceExecutor.

Record ExecutorConfig := {
  cfg_AdapterConfig : option AdapterConfig;
  cfg_APIClient : option APIClient;
  cfg_K8sClient : option K8sClient;
  cfg_Logger : option Logger
}.

Record PreconditionExecutor := { pe_apiClient : option APIClient }.

Record PostActionExecutor := { pae_apiClient : option APIClient }.

Definition NewPreconditionExecutor (apiClient : option APIClient) : PreconditionExecutor :=
  {| pe_apiClient := apiClient |}.

Definition NewPostActionExecutor (apiClient : option APIClient) : PostActionExecutor :=
  {| pae_apiClient := apiClient |}.

Record Executor := {
  ex_config : ExecutorConfig;
  ex_precondExecutor : PreconditionExecutor;
  ex_resourceExecutor : ResourceExecutor;
  ex_postActionExecutor : PostActionExecutor
}.

(** [NewExecutorError(PhaseParamExtraction, "init", message, nil)]. *)
Definition initError (message : string) : error :=
  ExecutorError PhaseParamExtraction "init" message None.

(** [NewExecutor] creates a new executor with the given configuration. *)
Definition NewExecutor (config : option ExecutorConfig) : Res Executor :=
  match config with
  | None => Err (initError "executor config is required")
  | Some config =>
      match cfg_AdapterConfig config with
      | None => Err (initError "adapter config is required")
      | Some _ =>
          match cfg_APIClient config with
          | None => Err (initError "API client is required")
          | Some _ =>
              match cfg_Logger config with
              | None => Err (initError "logger is required")
              | Some _ =>
                  Ok {| ex_config := config;
                        ex_precondExecutor := NewPreconditionExecutor (cfg_APIClient config);
                        ex_resourceExecutor := NewResourceExecutor (cfg_K8sClient config);
                        ex_postActionExecutor := NewPostActionExecutor (cfg_APIClient config) |}
              end
          end
      end
  end.

(** [ExecutorBuilder], the fluent interface for building an executor. *)
Record ExecutorBuilder := { b_config : ExecutorConfig }.

Definition NewBuilder : ExecutorBuilder :=
  {| b_config := {| cfg_AdapterConfig := None; cfg_APIClient := None;
                    cfg_K8sClient := None; cfg_Logger := None |} |}.

Definition WithAdapterConfig (config : option AdapterConfig) (b : ExecutorBuilder)
    : ExecutorBuilder :=
  {| b_config := {| cfg_AdapterConfig := config;
                    cfg_APIClient := cfg_APIClient (b_config b);
                    cfg_K8sClient := cfg_K8sClient (b_config b);
                    cfg_Logger := cfg_Logger (b_config b) |} |}.

Definition WithAPIClient (client : option APIClient) (b : ExecutorBuilder) : ExecutorBuilder :=
  {| b_config := {| cfg_AdapterConfig := cfg_AdapterConfig (b_config b);
                    cfg_APIClient := client;
                    cfg_K8sClient := cfg_K8sClient (b_config b);
                    cfg_Logger := cfg_Logger (b_config b) |} |}.

Definition WithK8sClient (client : option K8sClient) (b : ExecutorBuilder) : ExecutorBuilder :=
  {| b_config := {| cfg_AdapterConfig := cfg_AdapterConfig (b_config b);
                    cfg_APIClient := cfg_APIClient (b_config b);
                    cfg_K8sClient := client;
                    cfg_Logger := cfg_Logger (b_config b) |} |}.

Definition WithLogger (log : option Logger) (b : ExecutorBuilder) : ExecutorBuilder :=
  {| b_config := {| cfg_AdapterConfig := cfg_AdapterConfig (b_config b);
                    cfg_APIClient := cfg_APIClient (b_config b);
                    cfg_K8sClient := cfg_K8sClient (b_config b);
                    cfg_Logger := log |} |}.

(** [Build] creates the executor. *)
Definition Build (b : ExecutorBuilder) : Res Executor := NewExecutor (Some (b_config b)).

(** A call of one of the setters of the builder. *)
Inductive BuilderCall :=
| CallWithAdapterConfig (config : option AdapterConfig)
| CallWithAPIClient (client : option APIClient)
| CallWithK8sClient (client : option K8sClient)
| CallWithLogger (log : option Logger).

Definition applyCall (b : ExecutorBuilder) (c : BuilderCall) : ExecutorBuilder :=
  match c with
  | CallWithAdapterConfig config => WithAdapterConfig config b
  | CallWithAPIClient client => WithAPIClient client b
  | CallWithK8sClient client => WithK8sClient client b
  | CallWithLogger log => WithLogger log b
  end.

(** The argument of the last call that set a field, nil when no call did. *)
Definition lastAdapterConfig (calls : list BuilderCall) : option AdapterConfig :=
  mjoin (last (omap (fun c => match c with CallWithAdapterConfig x => Some x | _ => None end)
                 calls)).

Definition lastAPIClient (calls : list BuilderCall) : option APIClient :=
  mjoin (last (omap (fun c => match c with CallWithAPIClient x => Some x | _ => None end)
                 calls)).

Definition lastK8sClient (calls : list BuilderCall) : option K8sClient :=
  mjoin (last (omap (fun c => match c with CallWithK8sClient x => Some x | _ => None end)
                 calls)).

Definition lastLogger (calls : list BuilderCall) : option Logger :=
  mjoin (last (omap (fun c => match c with CallWithLogger x => Some x | _ => None end)
                 calls)).

End WithClients.
End Construction.

(** ** The payload builder of the post-action executor *)

(** What the payload builder relies on besides the evaluator: the template
    renderer and the key conversion of its package, and the order in which
    the Go runtime lets [range] visit the keys of a map. *)
Class Rendering := {
  renderTemplate : string → gmap string Value → Res string;
  convertToStringKeyMap : gmap AnyKey Value → gmap string Value;
  rangeOrder : gmap string Value → list string
}.

Module PayloadBuilder.
Section WithCollaborators.
Context `{!Externals, !Rendering}.

(** A Go result pair together with the entries logged on the way. *)
Definition Logged (A : Type) : Type := Res A * list (LogLevel * string).

(** [renderTemplate] where a dynamic value is returned. *)
Definition renderValue (s : string) (params : gmap string Value) : Logged Value :=
  match renderTemplate s params with
  | Ok r => (Ok (VStr r), [])
  | Err err => (Err err, [])
  end.

(** The expression branch of [processValue]: an evaluation that returns an
    error fails the payload; a result that carries an error reason is
    logged at verbosity 2 and its value is used. *)
Definition evaluateExpression (vars : gmap string Value) (expr : string) : Logged Value :=
  match EvaluateCEL vars (TrimSpace expr) with
  | Err err =>
      (Err err, [(LevelError, "failed to evaluate CEL expression '" +:+ expr +:+ "': "
                               +:+ errorString err)])
  | Ok result =>
      (Ok (cel_Value result),
       if HasError result
       then [(LevelDebug, "CEL expression evaluation failed: " +:+ cel_ErrorReason result)]
       else [])
  end.

(** The loop of [buildMapPayload] over the keys in the order of [range];
    [processed] holds, for each key of the map, what [processValue] yields
    for its value, which is consulted when the loop gets to the key. *)
Fixpoint buildEntries (params : gmap string Value) (processed : gmap string (Logged Value))
    (keys : list string) (result : gmap string Value) : Logged (gmap string Value) :=
  match keys with
  | [] => (Ok result, [])
  | k :: rest =>
      match processed !! k with
      | None => buildEntries params processed rest result
      | Some (processedValue, entries) =>
          match renderTemplate k params with
          | Err err => (Err (WrapError ("failed to render key '" +:+ k +:+ "'") err), [])
          | Ok renderedKey =>
              match processedValue with
              | Err err =>
                  (Err (WrapError ("failed to process value for key '" +:+ k +:+ "'") err),
                   entries)
              | Ok value =>
                  let '(out, more) :=
                    buildEntries params processed rest (<[renderedKey := value]> result) in
                  (out, (entries ++ more)%list)
              end
          end
      end
  end.

(** [buildMapPayload], over the function that processes the values. *)
Definition buildMapPayloadWith (process : Value → Logged Value)
    (params : gmap string Value) (m : gmap string Value) : Logged Value :=
  let '(out, entries) := buildEntries params (process <$> m) (rangeOrder m) ∅ in
  (match out with Ok result => Ok (VMap result) | Err err => Err err end, entries).

(** The loop of [processValue] over a slice. *)
Fixpoint processItems (process : Value → Logged Value) (items : list Value)
    : Logged (list Value) :=
  match items with
  | [] => (Ok [], [])
  | item :: rest =>
      let '(processed, entries) := process item in
      match processed with
      | Err err => (Err err, entries)
      | Ok value =>
          let '(out, more) := processItems process rest in
          (match out with Ok l => Ok (value :: l) | Err err => Err err end,
           (entries ++ more)%list)
      end
  end.

(** What the embedding answers when the fuel does not cover the nesting of
    converted maps. *)
Definition depthExceeded : error := PlainError "nesting of converted maps exceeds the fuel".

(** [processValue] processes a value, evaluating expressions as needed. The
    recursion is structural except where a [map[interface{}]interface{}] is
    converted and processed again, which takes one unit of [fuel]. *)
Fixpoint processValue (fuel : nat) (vars params : gmap string Value) : Value → Logged Value :=
  fix go (v : Value) : Logged Value :=
    match v with
    | VMap val =>
        match val !! "expression" with
        | Some (VStr expr) => evaluateExpression vars expr
        | _ =>
            match val !! "value" with
            | Some (VStr strVal) => renderValue strVal params
            | Some value => (Ok value, [])
            | None => buildMapPayloadWith go params val
            end
        end
    | VAnyMap val =>
        match fuel with
        | 0 => (Err depthExceeded, [])
        | S fuel' => processValue fuel' vars params (VMap (convertToStringKeyMap val))
        end
    | VList val =>
        let '(out, entries) := processItems go val in
        (match out with Ok l => Ok (VList l) | Err err => Err err end, entries)
    | VStr val => renderValue val params
    | _ => (Ok v, [])
    end.

(** [buildMapPayload] builds a map payload, evaluating expressions as
    needed. *)
Definition buildMapPayload (fuel : nat) (vars params : gmap string Value)
    (m : gmap string Value) : Logged Value :=
  buildMapPayloadWith (processValue fuel vars params) params m.

(** [buildPayload] builds a payload from a build definition. *)
Definition buildPayload (fuel : nat) (build : Value) (vars params : gmap string Value)
    : Logged Value :=
  match build with
  | VMap v => buildMapPayload fuel vars params v
  | VAnyMap v => buildMapPayload fuel vars params (convertToStringKeyMap v)
  | _ => (Ok build, [])
  end.

End WithCollaborators.
End PayloadBuilder.

(** ** The health server (package [health]) *)

Module Health.

(** The JSON response of the health endpoints; the encoder omits an empty
    [Message]. *)
Record Response := { hr_Status : string; hr_Message : string }.

(** The server: its readiness flag (an [atomic.Bool], false at first), the
    port it listens on and the component it belongs to.  The [http.Server]
    and the logger, used only by [Start] and [Shutdown], are left out. *)
Record Server := { ready : bool; port : string; component : string }.

(** An [http.ResponseWriter]: the status code once the header is out, the
    header, and the values encoded into the body. *)
Record ResponseWriter := {
  rw_Code : option Z;
  rw_Header : gmap string string;
  rw_Body : list Response
}.

Definition StatusOK : Z := 200.
Definition StatusServiceUnavailable : Z := 503.

(** [w.Header().Set(key, value)]; the header is fixed once it is written. *)
Definition HeaderSet (key value : string) (w : ResponseWriter) : ResponseWriter :=
  match rw_Code w with
  | Some _ => w
  | None => {| rw_Code := None; rw_Header := <[key := value]> (rw_Header w);
               rw_Body := rw_Body w |}
  end.

(** [w.WriteHeader(code)]; only the first call counts. *)
Definition WriteHeader (code : Z) (w : ResponseWriter) : ResponseWriter :=
  match rw_Code w with
  | Some _ => w
  | None => {| rw_Code := Some code; rw_Header := rw_Header w; rw_Body := rw_Body w |}
  end.

(** [json.NewEncoder(w).Encode(v)]; a write sends the header with status
    200 when no header has been written yet. *)
Definition Encode (v : Response) (w : ResponseWriter) : ResponseWriter :=
  let w := WriteHeader StatusOK w in
  {| rw_Code := rw_Code w; rw_Header := rw_Header w; rw_Body := rw_Body w ++ [v] |}.

Definition NewServer (port component : string) : Server :=
  {| ready := false; port := port; component := component |}.

(** The address of the HTTP server that [NewServer] sets up. *)
Definition Addr (s : Server) : string := ":" +:+ port s.

(** [SetReady] marks the server as ready to accept traffic, or not. *)
Definition SetReady (isReady : bool) (s : Server) : Server :=
  {| ready := isReady; port := port s; component := component s |}.

Definition IsReady (s : Server) : bool := ready s.

(** [healthzHandler] handles liveness probe requests. *)
Definition healthzHandler (s : Server) (w : ResponseWriter) : ResponseWriter :=
  let w := HeaderSet "Content-Type" "application/json" w in
  let w := WriteHeader StatusOK w in
  Encode {| hr_Status := "ok"; hr_Message := "" |} w.

(** [readyzHandler] handles readiness probe requests. *)
Definition readyzHandler (s : Server) (w : ResponseWriter) : ResponseWriter :=
  let w := HeaderSet "Content-Type" "application/json" w in
  if ready s then
    let w := WriteHeader StatusOK w in
    Encode {| hr_Status := "ok"; hr_Message := "" |} w
  else
    let w := WriteHeader StatusServiceUnavailable w in
    Encode {| hr_Status := "error"; hr_Message := "not ready" |} w.

(** A writer nothing has been written to, as [httptest.NewRecorder] makes. *)
Definition NewRecorder : ResponseWriter :=
  {| rw_Code := None; rw_Header := ∅; rw_Body := [] |}.

End Health.

(** ** Notions used in the statements *)

(** [strings.Contains(s, ".")]. *)
Fixpoint hasDot (s : string) : bool :=
  match s with
  | EmptyString => false
  | String c rest => Ascii.eqb c "."%char || hasDot rest
  end.

(** The values [captureFieldFromData] can descend into. *)
Definition isMap (v : Value) : bool :=
  match v with VMap _ | VAnyMap _ => true | _ => false end.

(** The values whose Go type depends on where the number came from. *)
Definition isNumber (v : Value) : bool :=
  match v with VNum _ => true | _ => false end.

(** The world after a built payload has been logged and stored under
    [name]. *)
Definition storePayload (name json : string) (entries : list (LogLevel * string))
    (w : World) : World :=
  {| execCtx := withParams (insert name (VStr json)) (execCtx w);
     logs := logs w ++ entries; apiCalls := apiCalls w; cluster := cluster w |}.

(** A precondition record that lets the phase go on. *)
Definition passed (r : PreconditionResult) : Prop :=
  pr_Matched r = true ∧ pr_Status r = StatusSuccess ∧ pr_Error r = None.

(** A post-action record that lets the phase go on. *)
Definition succeeded (r : PostActionResult) : Prop :=
  par_Status r = StatusSuccess ∧ par_Error r = None.

(** The post-actions and the payloads a configuration declares. *)
Definition declaredActions (postConfig : option PostConfig) : list PostAction :=
  match postConfig with Some pc => PostActions pc | None => [] end.

Definition declaredPayloads (postConfig : option PostConfig) : list Payload :=
  match postConfig with Some pc => Payloads pc | None => [] end.

(** A result whose status, error and reasons agree. *)
Definition coherent (r : ExecutionResult) : Prop :=
  (Status r = StatusSuccess ↔ Error r = None)
  ∧ (Status r = StatusSuccess ↔ ErrorReason r = "")
  ∧ (ResourcesSkipped r = false ↔ SkipReason r = "")
  ∧ (ResourcesSkipped r = true → ResourceResults r = []).

(** A precondition record with other condition results. *)
Definition withConditionResults (conds : list EvaluationResult) (r : PreconditionResult)
    : PreconditionResult :=
  PreconditionExecutor.withEvaluated (pr_Matched r) conds (pr_CELResult r) r.

Definition unmatched (c : EvaluationResult) : bool := negb (er_Matched c).

(** A precondition whose CEL expression is replaced. *)
Definition withExpression (expression : string) (p : Precondition) : Precondition :=
  {| pc_Name := pc_Name p; pc_Log := pc_Log p; pc_APICall := pc_APICall p;
     pc_Capture := pc_Capture p; pc_Conditions := pc_Conditions p;
     pc_Expression := expression |}.

(** A post configuration whose post-actions are replaced. *)
Definition withPostActions (actions : list PostAction) (pc : PostConfig) : PostConfig :=
  {| Payloads := Payloads pc; PostActions := actions |}.

(** The number of nodes of a value, for induction through sequences and
    maps. *)
Fixpoint vsize (v : Value) : nat :=
  match v with
  | VList l => S (foldr (fun x acc => vsize x + acc) 0 l)
  | VMap m => S (map_fold (fun _ x acc => vsize x + acc) 0 m)
  | VAnyMap m => S (map_fold (fun _ x acc => vsize x + acc) 0 m)
  | _ => 1
  end.

(** ** Fixtures for the payload builder and the field capture *)

Module Fixtures.

Definition keyText (k : AnyKey) : string :=
  match k with
  | KStr s => s
  | KInt z => pretty z
  | KBool true => "true"
  | KBool false => "false"
  end.

(** Templates without placeholders, keys turned into their text, and the
    keys of a map visited in the order of [map_to_list]. *)
Definition rendering : Rendering :=
  {| renderTemplate := fun s _ => Ok s;
     convertToStringKeyMap := fun m =>
       list_to_map ((fun kv => (keyText kv.1, kv.2)) <$> map_to_list m);
     rangeOrder := fun m => (map_to_list m).*1 |}.

(** A response body with a nested status. *)
Definition clusterBody : gmap string Value :=
  {[ "id" := VStr "c-1";
     "status" := VMap {[ "phase" := VStr "Ready" ]};
     "a.b" := VStr "dotted" ]}.

Definition statusPayload : Payload :=
  {| pl_Name := "clusterStatusPayload";
     pl_Build := VMap {[ "phase" := VStr "Ready" ]};
     pl_BuildRefContent := VNil |}.

End Fixtures.

(** ** Frame conditions of the monad

    [preserves f m]: running [m] leaves the component [f] of the world as it
    was. *)
Definition preserves {A B : Type} (f : World → B) (m : M A) : Prop :=
  ∀ w, f (m w).2 = f w.

(** The [ExecutionError] recorded in the adapter metadata of the context. *)
Definition recordedError (w : World) : option ExecutionError :=
  ad_ExecutionError (Adapter (execCtx w)).

(** * Properties *)

Lemma preserves_ret {A B} (f : World → B) (a : A) : preserves f (ret a).
Proof. by intros w. Qed.

Lemma preserves_bind {A A' B} (f : World → B) (m : M A) (k : A → M A') :
  preserves f m → (∀ a, preserves f (k a)) → preserves f (bind m k).
Proof.
  intros Hm Hk w. unfold bind. specialize (Hm w).
  destruct (m w) as [a w']. simpl in Hm. by rewrite Hk.
Qed.

Lemma bind_run {A B} (m : M A) (k : A → M B) (w w' : World) (a : A) :
  m w = (a, w') → bind m k w = k a w'.
Proof. intros Hm. unfold bind. by rewrite Hm. Qed.

(** Steps through a computation of the executors: sequencing, case
    distinctions, and the primitive operations, which are settled by
    computation. *)
Ltac preserve_step :=
  first
    [ apply preserves_ret
    | apply preserves_bind; [|intros ?]
    | solve [intros ?; reflexivity]
    | match goal with
      | |- preserves _ (match ?x with _ => _ end) => destruct x
      | |- preserves _ (if ?x then _ else _) => destruct x
      end ].

Section Frames.
Context `{!Externals}.

Lemma cluster_captureFields data cs r :
  preserves cluster (PreconditionExecutor.captureFields data cs r).
Proof. revert r. induction cs as [|c cs IH]; intros r; simpl; repeat preserve_step; apply IH. Qed.

Lemma cluster_pre_executeAPICall a :
  preserves cluster (PreconditionExecutor.executeAPICall a).
Proof. unfold PreconditionExecutor.executeAPICall. repeat preserve_step. Qed.

Lemma cluster_executePrecondition p :
  preserves cluster (PreconditionExecutor.executePrecondition p).
Proof.
  unfold PreconditionExecutor.executePrecondition, PreconditionExecutor.preamble,
    PreconditionExecutor.finishStep, PreconditionExecutor.apiCallStep,
    PreconditionExecutor.evaluateStep, PreconditionExecutor.logOutcome, runLogAction.
  repeat first [ apply cluster_captureFields | apply cluster_pre_executeAPICall
               | preserve_step ].
Qed.

Lemma cluster_executeLoop ps acc :
  preserves cluster (PreconditionExecutor.executeLoop ps acc).
Proof.
  revert acc. induction ps as [|p ps IH]; intros acc; simpl.
  - apply preserves_ret.
  - apply preserves_bind; [apply cluster_executePrecondition|].
    intros [r [e|]]; [apply preserves_ret|].
    destruct (negb (pr_Matched r)); [apply preserves_ret | apply IH].
Qed.

Lemma cluster_pre_ExecuteAll ps : preserves cluster (PreconditionExecutor.ExecuteAll ps).
Proof. apply cluster_executeLoop. Qed.

Lemma cluster_buildPayloadsLoop vars ps :
  preserves cluster (PostActionExecutor.buildPayloadsLoop vars ps).
Proof.
  induction ps as [|p ps IH]; simpl; repeat first [ apply IH | preserve_step ].
Qed.

Lemma cluster_executePostAction a : preserves cluster (PostActionExecutor.executePostAction a).
Proof.
  unfold PostActionExecutor.executePostAction, PostActionExecutor.preamble,
    PostActionExecutor.executeAPICall, runLogAction.
  repeat preserve_step.
Qed.

Lemma cluster_actionsLoop actions acc :
  preserves cluster (PostActionExecutor.actionsLoop actions acc).
Proof.
  revert acc. induction actions as [|a actions IH]; intros acc; simpl.
  - apply preserves_ret.
  - apply preserves_bind; [apply cluster_executePostAction|].
    intros [r [e|]]; [repeat preserve_step | apply IH].
Qed.

Lemma cluster_post_ExecuteAll post : preserves cluster (PostActionExecutor.ExecuteAll post).
Proof.
  unfold PostActionExecutor.ExecuteAll, PostActionExecutor.buildPostPayloads.
  repeat first [ apply cluster_actionsLoop | apply cluster_buildPayloadsLoop | preserve_step ].
Qed.

End Frames.


Section PreconditionProperties.
Context `{!Externals}.
Import PreconditionExecutor.

(** The accumulator of the loop only prefixes the results. *)
Lemma executeLoop_acc (ps : list Precondition) :
  ∀ (acc : list PreconditionResult) (w : World),
    executeLoop ps acc w =
      (prependResults acc (ExecuteAll ps w).1, (ExecuteAll ps w).2).
Proof.
  unfold ExecuteAll.
  induction ps as [|p ps IH]; intros acc w; simpl.
  - unfold ret, prependResults; simpl. by rewrite app_nil_r.
  - unfold bind. destruct (executePrecondition p w) as [[r err] w'].
    destruct err as [e|]; simpl.
    + unfold ret, prependResults; simpl. done.
    + destruct (pr_Matched r); simpl.
      * rewrite (IH (acc ++ [r])), (IH [r]).
        unfold prependResults; simpl. by rewrite <- app_assoc.
      * unfold ret, prependResults; simpl. done.
Qed.

(** One step of the loop: a precondition that ran without error and matched
    hands over to the rest of the list. *)
Lemma ExecuteAll_matched (p : Precondition) (rest : list Precondition)
    (w w' : World) (r : PreconditionResult) :
  executePrecondition p w = ((r, None), w') →
  pr_Matched r = true →
  ExecuteAll (p :: rest) w =
    (prependResults [r] (ExecuteAll rest w').1, (ExecuteAll rest w').2).
Proof.
  intros Hrun Hm. unfold ExecuteAll at 1. simpl. unfold bind.
  rewrite Hrun, Hm. simpl. apply executeLoop_acc.
Qed.

Lemma ExecuteAll_unmatched (p : Precondition) (rest : list Precondition)
    (w w' : World) (r : PreconditionResult) :
  executePrecondition p w = ((r, None), w') →
  pr_Matched r = false →
  ExecuteAll (p :: rest) w =
    ({| po_AllMatched := false; po_Results := [r]; po_Error := None;
        po_NotMetReason := notMetReason p r |}, w').
Proof.
  intros Hrun Hm. unfold ExecuteAll. simpl. unfold bind.
  by rewrite Hrun, Hm.
Qed.

(** C5. Given preconditions [A; B; C] where A runs and matches and B runs and
    does not match, the phase stops at B: the outcome holds exactly the two
    records of A and B, [allMatched] is false, no error is set, the reason
    names B, and the world is the one B left, so C is never evaluated. *)
Theorem precondition_short_circuit (A B C : Precondition) (w0 w1 w2 : World)
    (rA rB : PreconditionResult) :
  executePrecondition A w0 = ((rA, None), w1) →
  pr_Matched rA = true →
  executePrecondition B w1 = ((rB, None), w2) →
  pr_Matched rB = false →
  ExecuteAll [A; B; C] w0 =
    ({| po_AllMatched := false;
        po_Results := [rA; rB];
        po_Error := None;
        po_NotMetReason := "precondition '" +:+ pc_Name B +:+ "' not met: "
                             +:+ formatConditionDetails rB |}, w2)
  ∧ length (po_Results (ExecuteAll [A; B; C] w0).1) = 2
  ∧ ExecuteAll [A; B; C] w0 = ExecuteAll [A; B] w0.
Proof.
  intros HA HmA HB HmB.
  assert (Hrun : ∀ tail, ExecuteAll (A :: B :: tail) w0 =
            ({| po_AllMatched := false; po_Results := [rA; rB]; po_Error := None;
                po_NotMetReason := notMetReason B rB |}, w2)).
  { intros tail. rewrite (ExecuteAll_matched A (B :: tail) w0 w1 rA HA HmA).
    by rewrite (ExecuteAll_unmatched B tail w1 w2 rB HB HmB). }
  split; [apply Hrun|]. split.
  - by rewrite Hrun.
  - by rewrite (Hrun [C]), (Hrun []).
Qed.

(** Without conditions and without an expression, step 3 sets [Matched] and
    touches nothing else. *)
Lemma evaluateStep_no_criteria (p : Precondition) (r : PreconditionResult) (w : World) :
  pc_Conditions p = [] → pc_Expression p = "" →
  evaluateStep p r w =
    ((withEvaluated true (pr_ConditionResults r) (pr_CELResult r) r, None), w).
Proof.
  intros Hc He. unfold evaluateStep, bind, getCtx. by rewrite Hc, He.
Qed.

(** Step 2 either returns early with a failed record, or keeps the status. *)
Lemma apiCallStep_status (p : Precondition) (a : APICall) (r0 r : PreconditionResult)
    (err : option error) (w w' : World) :
  apiCallStep p a r0 w = ((r, err), w') →
  match err with
  | Some _ => pr_Status r = StatusFailed
  | None => pr_Status r = pr_Status r0
  end.
Proof.
  unfold apiCallStep, bind.
  destruct (executeAPICall a w) as [[body|e] w1].
  - destruct (jsonUnmarshal body) as [data|e].
    + destruct (captureFields data (pc_Capture p) (withResponse body r0) w1)
        as [r1 w2] eqn:Hcap.
      intros [= <- <- <-].
      assert (Hst : ∀ cs x v, pr_Status (captureFields data cs x v).1 = pr_Status x).
      { induction cs as [|c cs IH]; intros x v; simpl; [done|].
        destruct (captureFieldFromData data (cf_Field c)); unfold bind; simpl.
        - by rewrite IH.
        - by rewrite IH. }
      specialize (Hst (pc_Capture p) (withResponse body r0) w1).
      by rewrite Hcap in Hst.
    + unfold setExecutionError, modifyCtx, ret. by intros [= <- <- <-].
  - unfold setExecutionError, modifyCtx, ret. by intros [= <- <- <-].
Qed.

(** C8. A precondition that declares neither conditions nor a CEL
    expression is trivially matched: whenever its step returns without an
    error the record has [Matched = true] and the phase goes on with the next
    precondition; the only error it can return comes from its API call step,
    before the evaluation. *)
Theorem no_criteria_trivially_matched (p : Precondition) (rest : list Precondition)
    (w w' : World) (r : PreconditionResult) (err : option error) :
  pc_Conditions p = [] →
  pc_Expression p = "" →
  executePrecondition p w = ((r, err), w') →
  match err with
  | None =>
      pr_Matched r = true ∧ pr_Status r = StatusSuccess ∧
      ExecuteAll (p :: rest) w =
        (prependResults [r] (ExecuteAll rest w').1, (ExecuteAll rest w').2)
  | Some _ => is_Some (pc_APICall p) ∧ pr_Status r = StatusFailed
  end.
Proof.
  intros Hc He Hrun.
  assert (Hcase : match err with
                  | None => pr_Matched r = true ∧ pr_Status r = StatusSuccess
                  | Some _ => is_Some (pc_APICall p) ∧ pr_Status r = StatusFailed
                  end).
  { revert Hrun. unfold executePrecondition, finishStep, bind.
    destruct (preamble p w) as [[] w2].
    destruct (pc_APICall p) as [a|].
    - destruct (apiCallStep p a (newResult p) w2) as [[r1 [e|]] w3] eqn:Hapi.
      + intros [= <- <- <-]. split; [by eexists|].
        apply (apiCallStep_status _ _ _ _ _ _ _ Hapi).
      + rewrite (evaluateStep_no_criteria p r1 w3 Hc He).
        unfold logOutcome; simpl. intros [= <- <- <-]. split; [done|].
        apply (apiCallStep_status _ _ _ _ _ _ _ Hapi).
    - unfold ret at 1. rewrite (evaluateStep_no_criteria p _ w2 Hc He).
      unfold logOutcome; simpl. by intros [= <- <- <-]. }
  destruct err as [e|]; [exact Hcase|].
  destruct Hcase as [Hm Hs]. split; [done|]. split; [done|].
  by apply ExecuteAll_matched.
Qed.

(** The capture loop over a concatenation runs the two halves in turn. *)
Lemma captureFields_app (data : gmap string Value) (pre post : list CaptureField) :
  ∀ (r : PreconditionResult) (w : World),
    captureFields data (pre ++ post) r w =
      captureFields data post (captureFields data pre r w).1 (captureFields data pre r w).2.
Proof.
  induction pre as [|c pre IH]; intros r w; simpl; [done|].
  destruct (captureFieldFromData data (cf_Field c)); unfold bind; simpl; apply IH.
Qed.

(** What the capture loop leaves alone: the calls sent, the cluster, the
    adapter metadata, and every binding whose name no entry carries. *)
Lemma captureFields_frame (data : gmap string Value) (cs : list CaptureField) :
  ∀ (r : PreconditionResult) (w : World),
    let run := captureFields data cs r w in
    pr_Status run.1 = pr_Status r
    ∧ pr_Error run.1 = pr_Error r
    ∧ apiCalls run.2 = apiCalls w
    ∧ cluster run.2 = cluster w
    ∧ Adapter (execCtx run.2) = Adapter (execCtx w)
    ∧ (∃ more, logs run.2 = logs w ++ more)
    ∧ ∀ n, (∀ c, c ∈ cs → cf_Name c ≠ n) →
        pr_CapturedFields run.1 !! n = pr_CapturedFields r !! n
        ∧ Params (execCtx run.2) !! n = Params (execCtx w) !! n.
Proof.
  induction cs as [|c cs IH]; intros r w; simpl.
  - split_and!; try done. exists []. by rewrite app_nil_r.
  - destruct (captureFieldFromData data (cf_Field c)) as [v|e]; unfold bind; simpl.
    + destruct (IH (withCaptured (cf_Name c) v r)
                  (modifyCtx (withParams (insert (cf_Name c) v)) w).2)
        as (Hs & He & Ha & Hc & Had & [more Hl] & Hn).
      split_and!; try done; [by exists more|].
      intros n Hcs.
      destruct (Hn n) as [H1 H2]; [intros c' Hin; apply Hcs; by right|].
      assert (cf_Name c ≠ n) by (apply Hcs; by left).
      split; (etrans; [eassumption|]); simpl; by rewrite lookup_insert_ne.
    + destruct (IH r (logAt LevelWarning (captureWarning c e) w).2)
        as (Hs & He & Ha & Hc & Had & [more Hl] & Hn).
      split_and!; try done.
      * exists ((LevelWarning, captureWarning c e) :: more).
        etrans; [exact Hl|]. simpl. by rewrite <- app_assoc.
      * intros n Hcs. apply Hn. intros c' Hin. apply Hcs. by right.
Qed.

(** The precondition API call only adds to the calls sent. *)
Lemma executeAPICall_frame (a : APICall) (w : World) :
  execCtx (executeAPICall a w).2 = execCtx w
  ∧ logs (executeAPICall a w).2 = logs w
  ∧ cluster (executeAPICall a w).2 = cluster w.
Proof.
  unfold executeAPICall, bind, sendAPICall.
  destruct (ExecuteAPICall a (execCtx w) (apiCalls w)) as [[resp url] err].
  by destruct (ValidateAPIResponse resp err (ac_Method a) url).
Qed.

(** A path whose first part is not a key of the decoded body cannot be
    captured. *)
Lemma captureFieldFromData_absent (data : gmap string Value) (path part : string)
    (rest : list string) :
  SplitDots path = part :: rest →
  data !! part = None →
  captureFieldFromData data path =
    Err (PlainError ("field '" +:+ part +:+ "' not found at path '" +:+ part +:+ "'")).
Proof.
  intros Hsplit Hnone. unfold captureFieldFromData. rewrite Hsplit. simpl.
  by rewrite Hnone.
Qed.

(** C7. A capture entry whose source field cannot be read from the decoded
    response body only logs a warning: the loop goes on with the remaining
    entries from the same record and the same context, the API step returns
    no error and the step carries on with the evaluation; when no other entry
    carries its name, the name is bound neither in [capturedFields] nor (anew)
    in the parameters. *)
Theorem capture_failure_non_fatal (p : Precondition) (apiCall : APICall)
    (pre post : list CaptureField) (c : CaptureField) (cerr : error)
    (body : string) (data : gmap string Value) (w wl wa : World) :
  pc_APICall p = Some apiCall →
  pc_Capture p = pre ++ c :: post →
  preamble p w = (tt, wl) →
  executeAPICall apiCall wl = (Ok body, wa) →
  jsonUnmarshal body = Ok data →
  captureFieldFromData data (cf_Field c) = Err cerr →
  let before := captureFields data pre (withResponse body (newResult p)) wa in
  let warned := (logAt LevelWarning (captureWarning c cerr) before.2).2 in
  let after := captureFields data post before.1 warned in
  execCtx warned = execCtx before.2
  ∧ apiCallStep p apiCall (newResult p) wl = ((after.1, None), after.2)
  ∧ executePrecondition p w = finishStep p after.1 after.2
  ∧ pr_Status after.1 = StatusSuccess
  ∧ pr_Error after.1 = None
  ∧ (LevelWarning, captureWarning c cerr) ∈ logs after.2
  ∧ ((∀ c', c' ∈ pre ++ post → cf_Name c' ≠ cf_Name c) →
       pr_CapturedFields after.1 !! cf_Name c = None
       ∧ Params (execCtx after.2) !! cf_Name c = Params (execCtx w) !! cf_Name c
       ∧ Params (execCtx after.2) !! cf_Name c = Params (execCtx wl) !! cf_Name c).
Proof.
  intros Hapi Hcap Hpre Hcall Hjson Hfail before warned after.
  assert (Hstep : apiCallStep p apiCall (newResult p) wl = ((after.1, None), after.2)).
  { unfold apiCallStep, bind. rewrite Hcall, Hjson, Hcap, captureFields_app.
    fold before. simpl. rewrite Hfail. unfold bind. simpl.
    unfold after, warned. simpl. by destruct (captureFields data post _ _). }
  destruct (captureFields_frame data pre (withResponse body (newResult p)) wa)
    as (Hs1 & He1 & _ & _ & _ & _ & Hn1).
  destruct (captureFields_frame data post before.1 warned)
    as (Hs2 & He2 & _ & _ & _ & [more Hl2] & Hn2).
  fold before in Hs1, He1, Hn1. fold after in Hs2, He2, Hl2, Hn2.
  split; [done|]. split; [exact Hstep|]. split.
  { unfold executePrecondition, bind. rewrite Hpre, Hapi, Hstep. done. }
  split; [by rewrite Hs2, Hs1|]. split; [by rewrite He2, He1|]. split.
  { rewrite Hl2. apply elem_of_app. left. unfold warned. simpl.
    apply elem_of_app. right. by left. }
  intros Hnames.
  destruct (Hn1 (cf_Name c)) as [Hc1 Hp1].
  { intros c' Hin. apply Hnames. apply elem_of_app. by left. }
  destruct (Hn2 (cf_Name c)) as [Hc2 Hp2].
  { intros c' Hin. apply Hnames. apply elem_of_app. by right. }
  destruct (executeAPICall_frame apiCall wl) as (Hctx & _ & _).
  rewrite Hcall in Hctx. simpl in Hctx.
  assert (Hwl : Params (execCtx wl) = Params (execCtx w)).
  { revert Hpre. unfold preamble, bind, logAt. simpl.
    destruct (pc_Log p); unfold runLogAction, bind, getCtx, logAll, ret; simpl;
      by intros [= <-]. }
  split; [by rewrite Hc2, Hc1|].
  assert (Hgoal : Params (execCtx after.2) !! cf_Name c = Params (execCtx wl) !! cf_Name c).
  { rewrite Hp2. unfold warned. simpl. by rewrite Hp1, Hctx. }
  split; [by rewrite Hgoal, Hwl | exact Hgoal].
Qed.

End PreconditionProperties.

Lemma precondition_short_circuit_witness :
  po_AllMatched (@PreconditionExecutor.ExecuteAll Demo.externals
     [Demo.bare "A"; Demo.clusterReady "B" "/clusters/pending"; Demo.clusterReady "C" "/clusters/ready"]
     Demo.emptyWorld).1 = false
  ∧ length (po_Results (@PreconditionExecutor.ExecuteAll Demo.externals
     [Demo.bare "A"; Demo.clusterReady "B" "/clusters/pending"; Demo.clusterReady "C" "/clusters/ready"]
     Demo.emptyWorld).1) = 2.
Proof.
  edestruct (@precondition_short_circuit Demo.externals
    (Demo.bare "A") (Demo.clusterReady "B" "/clusters/pending")
    (Demo.clusterReady "C" "/clusters/ready") Demo.emptyWorld) as (Hrun & Hlen & _).
  - vm_compute. reflexivity.
  - reflexivity.
  - vm_compute. reflexivity.
  - reflexivity.
  - split; [by rewrite Hrun | exact Hlen].
Defined.

Lemma no_criteria_trivially_matched_witness :
  pr_Matched (@PreconditionExecutor.executePrecondition Demo.externals
                (Demo.bare "A") Demo.emptyWorld).1.1 = true.
Proof.
  pose proof (@no_criteria_trivially_matched Demo.externals (Demo.bare "A")
    [Demo.clusterReady "B" "/clusters/ready"] Demo.emptyWorld) as H.
  specialize (H _ _ _ eq_refl eq_refl eq_refl).
  exact (proj1 H).
Defined.

Lemma capture_failure_non_fatal_witness :
  let p := Demo.clusterReady "check" "/clusters/ready" in
  let wl := (@PreconditionExecutor.preamble Demo.externals p Demo.emptyWorld).2 in
  ∃ r w',
    @PreconditionExecutor.apiCallStep Demo.externals p (Demo.call "/clusters/ready")
      (PreconditionExecutor.newResult p) wl = ((r, None), w')
    ∧ pr_CapturedFields r !! "clusterId" = None
    ∧ pr_Status r = StatusSuccess.
Proof.
  intros p wl.
  destruct (@capture_failure_non_fatal Demo.externals p (Demo.call "/clusters/ready")
              [] [{| cf_Name := "status"; cf_Field := "status" |}]
              {| cf_Name := "clusterId"; cf_Field := "id" |}
              (PlainError "field 'id' not found at path 'id'")
              Demo.readyBody {[ "status" := VStr "ready" ]}
              Demo.emptyWorld wl
              (@PreconditionExecutor.executeAPICall Demo.externals
                 (Demo.call "/clusters/ready") wl).2
              eq_refl eq_refl eq_refl eq_refl eq_refl eq_refl)
    as (_ & Hstep & _ & Hstatus & _ & _ & Hnames).
  eexists _, _. split; [exact Hstep|]. split; [|exact Hstatus].
  apply Hnames. intros c' Hin.
  apply list_elem_of_singleton in Hin. by subst c'.
Defined.

Section PostActionProperties.
Context `{!Externals}.
Import PostActionExecutor.

(** The post-action loop only appends to the records it is given. *)
Lemma actionsLoop_prefix (actions : list PostAction) :
  ∀ (acc : list PostActionResult) (w : World),
    ∃ more, (actionsLoop actions acc w).1.1 = acc ++ more.
Proof.
  induction actions as [|a actions IH]; intros acc w; simpl.
  - exists []. by rewrite app_nil_r.
  - unfold bind. destruct (executePostAction a w) as [[r [e|]] w1]; simpl.
    + by exists [r].
    + destruct (IH (acc ++ [r]) w1) as [more Hmore].
      exists (r :: more). rewrite Hmore. by rewrite <- app_assoc.
Qed.

(** C10. A post-action API call is always recorded as made; when the client
    returned a response, its body and status code are on the record whether
    or not the response passes validation; a validation failure marks the
    record failed with the validation error attached, and a response outside
    the 2xx range is such a failure; the record is the one the post-action
    loop appends to its results. *)
Theorem post_api_call_records_response (apiCall : APICall) (result : PostActionResult)
    (w : World) (resp : option Response) (url : string) (err : option error) :
  ExecuteAPICall apiCall (execCtx w) (apiCalls w) = (resp, url, err) →
  let run := executeAPICall apiCall result w in
  par_APICallMade run.1.1 = true
  ∧ apiCalls run.2 = apiCalls w ++ [apiCall]
  ∧ (∀ rp, resp = Some rp →
       par_APIResponse run.1.1 = Some (Body rp) ∧ par_HTTPStatus run.1.1 = StatusCode rp)
  ∧ (∀ validationErr,
       ValidateAPIResponse resp err (ac_Method apiCall) url = Some validationErr →
       par_Status run.1.1 = StatusFailed
       ∧ par_Error run.1.1 = Some validationErr
       ∧ run.1.2 = Some (ExecutorError PhasePostActions (par_Name result)
                           (errorContext resp err) (Some validationErr)))
  ∧ (∀ rp, resp = Some rp → err = None → ¬ (200 ≤ StatusCode rp < 300)%Z →
       par_Status run.1.1 = StatusFailed
       ∧ par_Error run.1.1 =
           Some (APIError (ac_Method apiCall) url (StatusCode rp) (Body rp) None)
       ∧ run.1.2 = Some (ExecutorError PhasePostActions (par_Name result)
                           "API call returned non-success status"
                           (Some (APIError (ac_Method apiCall) url
                                    (StatusCode rp) (Body rp) None))))
  ∧ (∀ action rest acc w0,
       pa_APICall action = Some apiCall → result = newResult action →
       preamble action w0 = (tt, w) →
       ∃ more, (actionsLoop (action :: rest) acc w0).1.1 = acc ++ run.1.1 :: more).
Proof.
  intros Hcall run.
  assert (Hrecorded : ∀ action rest acc w0,
            pa_APICall action = Some apiCall → result = newResult action →
            preamble action w0 = (tt, w) →
            ∃ more, (actionsLoop (action :: rest) acc w0).1.1 = acc ++ run.1.1 :: more).
  { intros action rest acc w0 Hapi -> Hpre. simpl. unfold bind at 1.
    unfold executePostAction. rewrite (bind_run _ _ _ _ _ Hpre), Hapi.
    unfold bind at 1. fold run. destruct run as [[r [e|]] w1]; simpl.
    - exists []. done.
    - destruct (actionsLoop_prefix rest (acc ++ [r])
                  (logAt LevelInfo ("Post action '" +:+ pa_Name action +:+ "' completed")
                     w1).2) as [more Hmore].
      exists more. etrans; [exact Hmore|]. by rewrite <- app_assoc. }
  cut (par_APICallMade run.1.1 = true
       ∧ apiCalls run.2 = apiCalls w ++ [apiCall]
       ∧ (∀ rp, resp = Some rp →
            par_APIResponse run.1.1 = Some (Body rp) ∧ par_HTTPStatus run.1.1 = StatusCode rp)
       ∧ (∀ validationErr,
            ValidateAPIResponse resp err (ac_Method apiCall) url = Some validationErr →
            par_Status run.1.1 = StatusFailed
            ∧ par_Error run.1.1 = Some validationErr
            ∧ run.1.2 = Some (ExecutorError PhasePostActions (par_Name result)
                                (errorContext resp err) (Some validationErr)))
       ∧ (∀ rp, resp = Some rp → err = None → ¬ (200 ≤ StatusCode rp < 300)%Z →
            par_Status run.1.1 = StatusFailed
            ∧ par_Error run.1.1 =
                Some (APIError (ac_Method apiCall) url (StatusCode rp) (Body rp) None)
            ∧ run.1.2 = Some (ExecutorError PhasePostActions (par_Name result)
                                "API call returned non-success status"
                                (Some (APIError (ac_Method apiCall) url
                                         (StatusCode rp) (Body rp) None))))).
  { intros (H1 & H2 & H3 & H4 & H5). by split_and!. }
  clear Hrecorded.
  assert (Hbad : ∀ rp, ¬ (200 ≤ StatusCode rp < 300)%Z → IsSuccess rp = false).
  { intros rp Hr. unfold IsSuccess. apply andb_false_iff.
    destruct (Z.leb_spec 200 (StatusCode rp)); [right|by left].
    apply Z.ltb_ge. lia. }
  subst run. unfold executeAPICall, bind, sendAPICall. rewrite Hcall. simpl.
  destruct (ValidateAPIResponse resp err (ac_Method apiCall) url) as [v|] eqn:Hv;
    simpl; split_and!.
  - by destruct resp.
  - done.
  - by intros rp ->.
  - intros v' [= <-]. by destruct resp.
  - intros rp -> ->. intros Hr. simpl in Hv. rewrite (Hbad rp Hr) in Hv.
    injection Hv as <-. simpl. by rewrite (Hbad rp Hr).
  - by destruct resp.
  - done.
  - by intros rp ->.
  - done.
  - intros rp -> ->. intros Hr. simpl in Hv. by rewrite (Hbad rp Hr) in Hv.
Qed.

End PostActionProperties.

Lemma post_api_call_records_response_witness :
  let run := @PostActionExecutor.executeAPICall Demo.externals (Demo.call "/broken")
               (PostActionExecutor.newResult
                  {| pa_Name := "report"; pa_Log := None;
                     pa_APICall := Some (Demo.call "/broken") |})
               Demo.emptyWorld in
  par_APICallMade run.1.1 = true
  ∧ par_APIResponse run.1.1 = Some "internal error"
  ∧ par_HTTPStatus run.1.1 = 500%Z
  ∧ par_Status run.1.1 = StatusFailed.
Proof.
  intros run.
  destruct (@post_api_call_records_response Demo.externals (Demo.call "/broken")
              (PostActionExecutor.newResult
                 {| pa_Name := "report"; pa_Log := None;
                    pa_APICall := Some (Demo.call "/broken") |})
              Demo.emptyWorld _ _ _ eq_refl)
    as (Hmade & _ & Hresp & _ & Hstatus & _).
  destruct (Hresp _ eq_refl) as [Hbody Hcode].
  destruct (Hstatus _ eq_refl eq_refl) as (Hfailed & _ & _); [simpl; lia|].
  split; [exact Hmade|]. split; [exact Hbody|]. split; [exact Hcode|exact Hfailed].
Defined.

Section ExecuteProperties.
Context `{!Externals}.

Lemma adapter_buildPayloadsLoop vars ps :
  preserves (fun w => Adapter (execCtx w)) (PostActionExecutor.buildPayloadsLoop vars ps).
Proof.
  induction ps as [|p ps IH]; simpl; repeat first [ apply IH | preserve_step ].
Qed.

Lemma adapter_executePostAction a :
  preserves (fun w => Adapter (execCtx w)) (PostActionExecutor.executePostAction a).
Proof.
  unfold PostActionExecutor.executePostAction, PostActionExecutor.preamble,
    PostActionExecutor.executeAPICall, runLogAction.
  repeat preserve_step.
Qed.

(** What the post-action loop does to the adapter metadata: nothing when it
    succeeds, an unconditional assignment of [ExecutionError] when an action
    fails. *)
Lemma actionsLoop_adapter (actions : list PostAction) :
  ∀ (acc : list PostActionResult) (w : World),
    let run := PostActionExecutor.actionsLoop actions acc w in
    match run.1.2 with
    | None => Adapter (execCtx run.2) = Adapter (execCtx w)
    | Some e =>
        ∃ step, recordedError run.2 =
                  Some {| ee_Phase := PhasePostActions; ee_Step := step;
                          ee_Message := errorString e |}
    end.
Proof.
  induction actions as [|a actions IH]; intros acc w; simpl; [done|].
  unfold bind.
  pose proof (adapter_executePostAction a w) as Ha.
  destruct (PostActionExecutor.executePostAction a w) as [[r [e|]] w1]; simpl in *.
  - by exists (pa_Name a).
  - specialize (IH (acc ++ [r]) w1). simpl in IH.
    destruct (PostActionExecutor.actionsLoop actions (acc ++ [r]) w1) as [[rs [e|]] w2];
      simpl in *; [done|]. by rewrite IH.
Qed.

(** The same for the whole post phase. *)
Lemma post_ExecuteAll_adapter (post : option PostConfig) (w : World) :
  let run := PostActionExecutor.ExecuteAll post w in
  match run.1.2 with
  | None => Adapter (execCtx run.2) = Adapter (execCtx w)
  | Some e =>
      ∃ step msg, recordedError run.2 =
                    Some {| ee_Phase := PhasePostActions; ee_Step := step;
                            ee_Message := msg |}
  end.
Proof.
  destruct post as [pc|]; simpl; [|done].
  unfold bind.
  assert (Hb : ∀ w0, Adapter (execCtx
             (match Payloads pc with
              | [] => ret None
              | _ :: _ => PostActionExecutor.buildPostPayloads (Payloads pc)
              end w0).2) = Adapter (execCtx w0)).
  { intros w0. destruct (Payloads pc); [done|].
    unfold PostActionExecutor.buildPostPayloads, bind, getCtx.
    apply (adapter_buildPayloadsLoop _ _ w0). }
  specialize (Hb w).
  destruct (match Payloads pc with
            | [] => ret None
            | _ :: _ => PostActionExecutor.buildPostPayloads (Payloads pc)
            end w) as [[e|] w1]; simpl in *.
  - by eexists _, _.
  - pose proof (actionsLoop_adapter (PostActions pc) [] w1) as Hl. simpl in Hl.
    destruct (PostActionExecutor.actionsLoop (PostActions pc) [] w1) as [[rs [e|]] w2];
      simpl in *.
    + destruct Hl as [step Hl]. by eexists _, _.
    + by rewrite Hl.
Qed.

(** [Execute] after a successful parse and parameter extraction is the run
    of the later phases. *)
Lemma Execute_extracted (config : AdapterConfig) (e : Event) (data : gmap string Value)
    (w w1 : World) :
  parseEventData (Some e) = Ok data →
  (beginExecution e data ;; executeParamExtraction config) w = (None, w1) →
  Execute config (Some e) w =
    laterPhases config (setPhase PhaseParamExtraction (initResult e)) w1.
Proof.
  intros Hparse Hext. unfold Execute. rewrite Hparse.
  revert Hext. unfold bind.
  destruct (beginExecution e data w) as [[] w0].
  destruct (executeParamExtraction config w0) as [[err|] w1']; [done|].
  by intros [= <-].
Qed.

Lemma cluster_extraction (config : AdapterConfig) (e : Event) (data : gmap string Value) :
  preserves cluster (beginExecution e data ;; executeParamExtraction config).
Proof.
  intros w. unfold bind, beginExecution, bind, executeParamExtraction. simpl.
  destruct (extractConfigParams config _ _) as [ctx [err|]]; done.
Qed.

(** [Execute] when the parameter extraction fails is the early return. *)
Lemma Execute_extraction_failed (config : AdapterConfig) (e : Event)
    (data : gmap string Value) (w w1 : World) (err : error) :
  parseEventData (Some e) = Ok data →
  (beginExecution e data ;; executeParamExtraction config) w = (Some err, w1) →
  Execute config (Some e) w =
    finishWithError (setPhase PhaseParamExtraction (initResult e)) err
      "parameter extraction failed" w1.
Proof.
  intros Hparse Hext. unfold Execute. rewrite Hparse.
  revert Hext. unfold bind.
  destruct (beginExecution e data w) as [[] w0].
  destruct (executeParamExtraction config w0) as [[x|] w1']; [|done].
  by intros [= <- <-].
Qed.

(** The setup and the parameter extraction send no API call. *)
Lemma apiCalls_extraction (config : AdapterConfig) (e : Event) (data : gmap string Value) :
  preserves apiCalls (beginExecution e data ;; executeParamExtraction config).
Proof.
  intros w. unfold bind, beginExecution, bind, executeParamExtraction. simpl.
  destruct (extractConfigParams config _ _) as [ctx [err|]]; done.
Qed.

Lemma cluster_announceParams : preserves cluster announceParams.
Proof. by intros w. Qed.

(** A phase outcome without error and without a full match carries the
    reason built for the precondition that did not match. *)
Lemma executeLoop_not_met (ps : list Precondition) :
  ∀ (acc : list PreconditionResult) (w : World),
    let o := (PreconditionExecutor.executeLoop ps acc w).1 in
    po_Error o = None → po_AllMatched o = false →
    ∃ p r, p ∈ ps ∧ pr_Matched r = false
           ∧ po_NotMetReason o = PreconditionExecutor.notMetReason p r.
Proof.
  induction ps as [|p ps IH]; intros acc w; simpl; [done|].
  unfold bind.
  destruct (PreconditionExecutor.executePrecondition p w) as [[r [e|]] w1]; simpl; [done|].
  destruct (pr_Matched r) eqn:Hm; simpl.
  - intros He Ha. destruct (IH (acc ++ [r]) w1 He Ha) as (p' & r' & Hin & Hr & Hn).
    exists p', r'. split; [by right|done].
  - intros _ _. exists p, r. split; [by left|done].
Qed.

Lemma laterPhases_split (config : AdapterConfig) (r : ExecutionResult) (w : World) :
  laterPhases config r w =
    lastPhases config (earlierPhases config r w).1 (earlierPhases config r w).2.
Proof.
  unfold laterPhases, bind. by destruct (earlierPhases config r w).
Qed.

(** The post-actions phase and the finalisation, field by field. *)
Lemma lastPhases_spec (config : AdapterConfig) (r : ExecutionResult) (w : World) :
  let post := PostActionExecutor.ExecuteAll (spec_Post config) w in
  let run := lastPhases config r w in
  Phase run.1 = PhasePostActions
  ∧ PostActionResults run.1 = post.1.1
  ∧ ResourceResults run.1 = ResourceResults r
  ∧ ResourcesSkipped run.1 = ResourcesSkipped r
  ∧ SkipReason run.1 = SkipReason r
  ∧ execCtx run.2 = execCtx post.2
  ∧ apiCalls run.2 = apiCalls post.2
  ∧ cluster run.2 = cluster post.2
  ∧ (∃ more, logs run.2 = logs post.2 ++ more)
  ∧ match post.1.2 with
    | Some err =>
        Status run.1 = StatusFailed ∧ Error run.1 = Some err
        ∧ ErrorReason run.1 = "post action execution failed"
    | None =>
        Status run.1 = Status r ∧ Error run.1 = Error r
        ∧ ErrorReason run.1 = ErrorReason r
    end.
Proof.
  intros post run. subst run. unfold lastPhases, postActionsPhase, bind.
  fold post. destruct post as [[rs [err|]] w1]; simpl.
  - unfold finalize, bind, getCtx; simpl.
    split_and!; try done. eexists. by rewrite <- app_assoc.
  - unfold finalize, bind, getCtx; simpl.
    destruct (isSuccess (Status r)) eqn:Hs; [destruct (ResourcesSkipped r) eqn:Hr|];
      simpl; (split_and!; try done; eexists; by rewrite <- app_assoc).
Qed.

(** The preconditions phase when a precondition did not match. *)
Lemma preconditionsPhase_not_met (config : AdapterConfig) (r : ExecutionResult)
    (w w2 : World) (outcome : PreconditionsOutcome) :
  PreconditionExecutor.ExecuteAll (spec_Preconditions config) w = (outcome, w2) →
  po_Error outcome = None →
  po_AllMatched outcome = false →
  preconditionsPhase config r w =
    (setSkipped (po_NotMetReason outcome)
       (setPreconditionResults (po_Results outcome) (setPhase PhasePreconditions r)),
     ((modifyCtx (SetSkipped "PreconditionNotMet" (po_NotMetReason outcome)) ;;
       logAt LevelInfo ("Preconditions not met, resources will be skipped: "
                         +:+ po_NotMetReason outcome)) w2).2).
Proof.
  intros Hrun Herr Hall. unfold preconditionsPhase.
  rewrite (bind_run _ _ _ _ _ Hrun), Herr, Hall. done.
Qed.

(** The preconditions phase when every precondition matched. *)
Lemma preconditionsPhase_matched (config : AdapterConfig) (r : ExecutionResult)
    (w w2 : World) (outcome : PreconditionsOutcome) :
  PreconditionExecutor.ExecuteAll (spec_Preconditions config) w = (outcome, w2) →
  po_Error outcome = None →
  po_AllMatched outcome = true →
  preconditionsPhase config r w =
    (setPreconditionResults (po_Results outcome) (setPhase PhasePreconditions r),
     (logAt LevelInfo ("Preconditions completed: "
                        +:+ pretty (length (po_Results outcome))
                        +:+ " preconditions evaluated") w2).2).
Proof.
  intros Hrun Herr Hall. unfold preconditionsPhase.
  rewrite (bind_run _ _ _ _ _ Hrun), Herr, Hall. done.
Qed.

(** The preconditions phase when a precondition failed. *)
Lemma preconditionsPhase_failed (config : AdapterConfig) (r : ExecutionResult)
    (w w2 : World) (outcome : PreconditionsOutcome) (err : error) :
  PreconditionExecutor.ExecuteAll (spec_Preconditions config) w = (outcome, w2) →
  po_Error outcome = Some err →
  preconditionsPhase config r w =
    (setFailed err "precondition evaluation failed"
       (setPreconditionResults (po_Results outcome) (setPhase PhasePreconditions r)),
     ((modifyCtx (SetError "PreconditionFailed" (errorString err)) ;;
       logAt LevelError ("Precondition execution failed: " +:+ errorString err)) w2).2).
Proof.
  intros Hrun Herr. unfold preconditionsPhase.
  rewrite (bind_run _ _ _ _ _ Hrun), Herr. done.
Qed.

(** The resources phase when the result is failed or marked as skipped: a
    log line, nothing else. *)
Lemma resourcesPhase_skipped (config : AdapterConfig) (r : ExecutionResult) (w : World) :
  isSuccess (Status r) && negb (ResourcesSkipped r) = false →
  resourcesPhase config r w =
    (setPhase PhaseResources r,
     (logAt LevelInfo (if ResourcesSkipped r then "Resources skipped: " +:+ SkipReason r
                       else "Resources skipped due to previous error") w).2).
Proof.
  intros Hskip. unfold resourcesPhase. simpl. rewrite Hskip.
  by destruct (ResourcesSkipped r).
Qed.

(** C6. When the preconditions phase ends without a hard error but with a
    precondition unmatched, no resource step runs: the result has no resource
    record and the cluster is as it was when the event arrived; the result is
    marked [resourcesSkipped] with the (non-empty) reason of the unmatched
    precondition; and the post-actions phase still runs, on the context
    marked as skipped, its records ending up in the result. *)
Theorem resources_skipped_when_not_met (config : AdapterConfig) (e : Event)
    (data : gmap string Value) (w w1 w2 : World) (outcome : PreconditionsOutcome) :
  parseEventData (Some e) = Ok data →
  (beginExecution e data ;; executeParamExtraction config) w = (None, w1) →
  (announceParams ;; PreconditionExecutor.ExecuteAll (spec_Preconditions config)) w1
    = (outcome, w2) →
  po_Error outcome = None →
  po_AllMatched outcome = false →
  let run := Execute config (Some e) w in
  let reason := po_NotMetReason outcome in
  let skipped :=
    (modifyCtx (SetSkipped "PreconditionNotMet" reason) ;;
     logAt LevelInfo ("Preconditions not met, resources will be skipped: " +:+ reason) ;;
     logAt LevelInfo ("Resources skipped: " +:+ reason)) w2 in
  let post := PostActionExecutor.ExecuteAll (spec_Post config) skipped.2 in
  ResourceResults run.1 = []
  ∧ cluster run.2 = cluster w
  ∧ ResourcesSkipped run.1 = true
  ∧ SkipReason run.1 = reason
  ∧ reason ≠ ""
  ∧ Phase run.1 = PhasePostActions
  ∧ PostActionResults run.1 = post.1.1
  ∧ apiCalls run.2 = apiCalls post.2
  ∧ execCtx run.2 = execCtx post.2
  ∧ (Status run.1 = StatusSuccess ↔ post.1.2 = None).
Proof.
  intros Hparse Hext Hpre Herr Hall run reason skipped post.
  assert (Hpre' : PreconditionExecutor.ExecuteAll (spec_Preconditions config)
                    (announceParams w1).2 = (outcome, w2)).
  { revert Hpre. unfold bind. by destruct (announceParams w1) as [[] w1']. }
  assert (Hreason : reason ≠ "").
  { pose proof (executeLoop_not_met (spec_Preconditions config) [] (announceParams w1).2)
      as Hnm.
    unfold PreconditionExecutor.ExecuteAll in Hpre'. rewrite Hpre' in Hnm.
    simpl in Hnm. destruct (Hnm Herr Hall) as (p & r & _ & _ & Hn).
    unfold reason. rewrite Hn. done. }
  assert (Hcl : cluster w2 = cluster w).
  { pose proof (cluster_extraction config e data w) as H1.
    pose proof (preserves_bind cluster announceParams
                  (fun _ => PreconditionExecutor.ExecuteAll (spec_Preconditions config))
                  cluster_announceParams
                  (fun _ => cluster_pre_ExecuteAll _) w1) as H2.
    rewrite Hext in H1. rewrite Hpre in H2. simpl in H1, H2. congruence. }
  pose proof (cluster_post_ExecuteAll (spec_Post config) skipped.2) as Hpc.
  fold post in Hpc.
  assert (Hearlier : earlierPhases config (setPhase PhaseParamExtraction (initResult e)) w1
            = (setPhase PhaseResources
                 (setSkipped reason
                    (setPreconditionResults (po_Results outcome)
                       (setPhase PhasePreconditions
                          (setPhase PhaseParamExtraction (initResult e))))),
               skipped.2)).
  { unfold earlierPhases.
    rewrite (bind_run announceParams _ w1 (announceParams w1).2 tt)
      by (by destruct (announceParams w1) as [[] ?]).
    rewrite (bind_run _ _ _ _ _
               (preconditionsPhase_not_met config _ _ _ _ Hpre' Herr Hall)).
    by rewrite resourcesPhase_skipped. }
  subst run. rewrite (Execute_extracted config e data w w1 Hparse Hext).
  rewrite laterPhases_split, Hearlier.
  change (?a, ?b).1 with a. change (?a, ?b).2 with b.
  set (r3 := setPhase PhaseResources _).
  destruct (lastPhases_spec config r3 skipped.2)
    as (Hph & Hpa & Hrr & Hrs & Hsr & Hctx & Hcalls & Hclu & _ & Hst).
  fold post in Hpa, Hctx, Hcalls, Hclu, Hst.
  set (lp := lastPhases config r3 skipped.2) in *. clearbody lp.
  split_and!; try done.
  - by rewrite Hclu, Hpc.
  - destruct (post.1.2) as [perr|]; destruct Hst as (Hs & _ & _); rewrite Hs; done.
Qed.

(** C1 (amended). For an event whose data has parsed, the post-actions
    phase is executed exactly when the parameters were extracted. Once they
    are, it runs whatever the preconditions and the resources phases did:
    the result is in phase [PhasePostActions], its post-action records are
    those of the post-action executor run on the world the earlier phases
    left, and a failure of that run is the failure the result reports. When
    the extraction fails, [Execute] returns early: the result is failed in
    phase [PhaseParamExtraction] with the extraction error, it holds no
    precondition, resource or post-action record, no API call has been sent
    and the cluster is untouched; the world is the one the extraction left,
    with the closing log line added. *)
Theorem post_actions_run_after_extraction (config : AdapterConfig) (e : Event)
    (data : gmap string Value) (w : World) :
  parseEventData (Some e) = Ok data →
  let run := Execute config (Some e) w in
  let extraction := (beginExecution e data ;; executeParamExtraction config) w in
  match extraction.1 with
  | None =>
      let before := earlierPhases config (setPhase PhaseParamExtraction (initResult e))
                      extraction.2 in
      let post := PostActionExecutor.ExecuteAll (spec_Post config) before.2 in
      Phase run.1 = PhasePostActions
      ∧ PostActionResults run.1 = post.1.1
      ∧ execCtx run.2 = execCtx post.2
      ∧ apiCalls run.2 = apiCalls post.2
      ∧ cluster run.2 = cluster post.2
      ∧ (∃ more, logs run.2 = logs post.2 ++ more)
      ∧ (∀ err, post.1.2 = Some err →
           Status run.1 = StatusFailed ∧ Error run.1 = Some err
           ∧ ErrorReason run.1 = "post action execution failed")
  | Some err =>
      Phase run.1 = PhaseParamExtraction
      ∧ Status run.1 = StatusFailed
      ∧ Error run.1 = Some err
      ∧ ErrorReason run.1 = "parameter extraction failed"
      ∧ PreconditionResults run.1 = []
      ∧ ResourceResults run.1 = []
      ∧ PostActionResults run.1 = []
      ∧ execCtx run.2 = execCtx extraction.2
      ∧ apiCalls run.2 = apiCalls w
      ∧ cluster run.2 = cluster w
      ∧ logs run.2 = logs extraction.2 ++ [(LevelError, failureLine run.1)]
  end.
Proof.
  intros Hparse run extraction.
  pose proof (apiCalls_extraction config e data w) as Hcalls.
  pose proof (cluster_extraction config e data w) as Hcluster.
  fold extraction in Hcalls, Hcluster.
  assert (Hext : (beginExecution e data ;; executeParamExtraction config) w
                 = (extraction.1, extraction.2)) by apply surjective_pairing.
  destruct (extraction.1) as [err|].
  - subst run. rewrite (Execute_extraction_failed config e data w _ err Hparse Hext).
    unfold finishWithError, bind, getCtx. simpl. by split_and!.
  - intros before post. subst run.
    rewrite (Execute_extracted config e data w _ Hparse Hext).
    rewrite laterPhases_split. fold before.
    destruct (lastPhases_spec config before.1 before.2)
      as (Hph & Hpa & _ & _ & _ & Hctx & Hcalls' & Hclu & Hlogs & Hst).
    fold post in Hpa, Hctx, Hcalls', Hclu, Hlogs, Hst.
    split_and!; try done.
    intros err Herr. by rewrite Herr in Hst.
Qed.

(** A result is consistent when a failed status comes with an error. *)
Lemma preconditionsPhase_consistent (config : AdapterConfig) (r : ExecutionResult)
    (w : World) :
  (Status r = StatusFailed → is_Some (Error r)) →
  let r' := (preconditionsPhase config r w).1 in
  Status r' = StatusFailed → is_Some (Error r').
Proof.
  intros Hr. unfold preconditionsPhase, bind.
  destruct (PreconditionExecutor.ExecuteAll (spec_Preconditions config) w) as [o w2].
  destruct (po_Error o) as [err|]; simpl; [by eexists|].
  destruct (po_AllMatched o); simpl; exact Hr.
Qed.

Lemma resourcesPhase_consistent (config : AdapterConfig) (r : ExecutionResult)
    (w : World) :
  (Status r = StatusFailed → is_Some (Error r)) →
  let r' := (resourcesPhase config r w).1 in
  Status r' = StatusFailed → is_Some (Error r').
Proof.
  intros Hr. unfold resourcesPhase. simpl.
  destruct (isSuccess (Status r) && negb (ResourcesSkipped r)).
  - unfold bind. destruct (resourceExecuteAll (spec_Resources config) w) as [[rs [err|]] w2];
      simpl; [by eexists | exact Hr].
  - destruct (ResourcesSkipped r); simpl; exact Hr.
Qed.

(** A failed result of [Execute] always carries an error. *)
Lemma Execute_failed_has_error (config : AdapterConfig) (evt : option Event)
    (w w' : World) (r : ExecutionResult) :
  Execute config evt w = (r, w') → Status r = StatusFailed → is_Some (Error r).
Proof.
  unfold Execute. destruct evt as [e|]; [|intros [= <- <-]; by eexists].
  destruct (parseEventData (Some e)) as [data|perr]; [|intros [= <- <-]; by eexists].
  unfold bind at 1. destruct (beginExecution e data w) as [[] w0].
  unfold bind at 1. destruct (executeParamExtraction config w0) as [[xerr|] w1].
  - unfold finishWithError, bind, getCtx. simpl. intros [= <- <-]. by eexists.
  - rewrite laterPhases_split.
    set (r0 := setPhase PhaseParamExtraction (initResult e)).
    assert (Hr3 : Status (earlierPhases config r0 w1).1 = StatusFailed
                  → is_Some (Error (earlierPhases config r0 w1).1)).
    { unfold earlierPhases, bind. destruct (announceParams w1) as [[] w1'].
      pose proof (preconditionsPhase_consistent config r0 w1') as Hp.
      destruct (preconditionsPhase config r0 w1') as [r2 w2].
      apply resourcesPhase_consistent. apply Hp. done. }
    destruct (lastPhases_spec config (earlierPhases config r0 w1).1
                (earlierPhases config r0 w1).2)
      as (_ & _ & _ & _ & _ & _ & _ & _ & _ & Hst).
    intros Hrun. rewrite Hrun in Hst. simpl in Hst.
    destruct (PostActionExecutor.ExecuteAll _ _).1.2 as [err|].
    + destruct Hst as (_ & He & _). rewrite He. by eexists.
    + destruct Hst as (Hs & He & _). rewrite Hs, He. exact Hr3.
Qed.

(** C2. The handler acknowledges the event (returns nil) when [Execute]
    yields a failed result in the parameter-extraction phase and when it
    yields a success, resources skipped or not; for every other failed
    result it returns the error of the result, which is never nil. The
    handler does nothing beyond running [Execute]. *)
Theorem handler_ack_policy (config : AdapterConfig) (evt : option Event) (w : World) :
  let result := (Execute config evt w).1 in
  let answer := (CreateHandler config evt w).1 in
  (CreateHandler config evt w).2 = (Execute config evt w).2
  ∧ (Status result = StatusFailed → Phase result = PhaseParamExtraction → answer = None)
  ∧ (Status result = StatusSuccess → answer = None)
  ∧ (Status result = StatusFailed → Phase result ≠ PhaseParamExtraction →
       answer = Error result ∧ is_Some answer).
Proof.
  intros result answer.
  subst answer result. unfold CreateHandler, bind.
  pose proof (Execute_failed_has_error config evt w) as Herr.
  destruct (Execute config evt w) as [r w']. specialize (Herr w' r eq_refl). simpl.
  destruct (Status r); [by split_and!|].
  destruct (Phase r); split_and!; try done; intros _ _; split; try done; by apply Herr.
Qed.

End ExecuteProperties.

(** ** Scenarios *)

(** S1, the happy path: the precondition matches, the identifier is
    captured, the resource is applied, the post-action is sent, and the
    handler acknowledges. *)
Example scenario_happy_path :
  let config := Demo.config [Demo.clusterReady "check" "/clusters/ready-id"]
                  (Demo.report "/status") in
  let run := @Execute Demo.externals config (Some Demo.eventWithId) Demo.emptyWorld in
  Status run.1 = StatusSuccess
  ∧ ResourcesSkipped run.1 = false
  ∧ ResultParams run.1 !! "clusterId" = Some (VStr "c-1")
  ∧ cluster run.2 !! "ns" = Some (rs_Manifest Demo.namespaceResource)
  ∧ apiCalls run.2 = [Demo.call "/clusters/ready-id"; Demo.call "/status"]
  ∧ (@CreateHandler Demo.externals config (Some Demo.eventWithId) Demo.emptyWorld).1 = None.
Proof. split_and!; vm_compute; reflexivity. Qed.

(** S3, a transport failure in the precondition's API call: the result is
    failed, no resource is applied, the post-action is still sent, and the
    handler returns the error. *)
Example scenario_transport_failure :
  let config := Demo.config [Demo.clusterReady "check" "/down"] (Demo.report "/status") in
  let run := @Execute Demo.externals config (Some Demo.eventWithId) Demo.emptyWorld in
  Status run.1 = StatusFailed
  ∧ ErrorReason run.1 = "precondition evaluation failed"
  ∧ ResourceResults run.1 = []
  ∧ cluster run.2 = ∅
  ∧ apiCalls run.2 = [Demo.call "/down"; Demo.call "/status"]
  ∧ (@CreateHandler Demo.externals config (Some Demo.eventWithId) Demo.emptyWorld).1
    = Error run.1
  ∧ is_Some (Error run.1).
Proof. split_and!; vm_compute; try reflexivity. by eexists. Qed.

(** S4, an evaluation failure in a precondition: the CEL expression does
    not evaluate, the result is failed with the error of that precondition,
    the post-action is still sent, and no [ExecutionError] is recorded. *)
Example scenario_evaluation_failure :
  let broken := {| pc_Name := "check"; pc_Log := None; pc_APICall := None;
                   pc_Capture := []; pc_Conditions := []; pc_Expression := "x" |} in
  let config := Demo.config [broken] (Demo.report "/status") in
  let run := @Execute Demo.externals config (Some Demo.eventWithId) Demo.emptyWorld in
  Status run.1 = StatusFailed
  ∧ ErrorReason run.1 = "precondition evaluation failed"
  ∧ Error run.1 = Some (ExecutorError PhasePreconditions "check"
                          "CEL expression evaluation failed"
                          (Some (PlainError "undeclared reference")))
  ∧ recordedError run.2 = None
  ∧ apiCalls run.2 = [Demo.call "/status"].
Proof. split_and!; vm_compute; reflexivity. Qed.

(** C1, as stated, fails: the event data parses, parameter extraction fails,
    and [Execute] returns in phase [PhaseParamExtraction] with no post-action
    record and no API call sent, although the configuration declares a
    post-action that (run in any world) yields a record. *)
Lemma post_actions_not_run_on_extraction_failure :
  let config := Demo.config [] (Demo.report "/status") in
  let run := @Execute Demo.externals config (Some Demo.eventWithoutId) Demo.emptyWorld in
  @parseEventData Demo.externals (Some Demo.eventWithoutId) = Ok {[ "status" := VStr "ready" ]}
  ∧ Status run.1 = StatusFailed
  ∧ Phase run.1 = PhaseParamExtraction
  ∧ PostActionResults run.1 = []
  ∧ apiCalls run.2 = []
  ∧ (∀ w, length (@PostActionExecutor.ExecuteAll Demo.externals (spec_Post config) w).1.1 = 1).
Proof.
  split_and!; vm_compute; reflexivity.
Qed.

Lemma post_actions_run_after_extraction_witness :
  let config := Demo.config [Demo.clusterReady "check" "/down"] (Demo.report "/status") in
  let run := @Execute Demo.externals config (Some Demo.eventWithId) Demo.emptyWorld in
  let early := @Execute Demo.externals config (Some Demo.eventWithoutId) Demo.emptyWorld in
  (Status run.1 = StatusFailed
   ∧ Phase run.1 = PhasePostActions
   ∧ length (PostActionResults run.1) = 1)
  ∧ (Phase early.1 = PhaseParamExtraction
     ∧ PostActionResults early.1 = []
     ∧ apiCalls early.2 = []).
Proof.
  intros config run early. split.
  - pose proof (@post_actions_run_after_extraction Demo.externals config Demo.eventWithId
                  {[ "id" := VStr "evt" ]} Demo.emptyWorld) as Hrun.
    assert (Hnone : ((@beginExecution Demo.eventWithId {[ "id" := VStr "evt" ]} ;;
                      @executeParamExtraction Demo.externals config) Demo.emptyWorld).1 = None)
      by (vm_compute; reflexivity).
    cbv zeta in Hrun. rewrite Hnone in Hrun.
    destruct Hrun as (Hphase & Hresults & _); [vm_compute; reflexivity|].
    split; [vm_compute; reflexivity|]. split; [exact Hphase|].
    unfold run. rewrite Hresults. vm_compute. reflexivity.
  - pose proof (@post_actions_run_after_extraction Demo.externals config Demo.eventWithoutId
                  {[ "status" := VStr "ready" ]} Demo.emptyWorld) as Hrun.
    assert (Hsome : is_Some ((@beginExecution Demo.eventWithoutId {[ "status" := VStr "ready" ]} ;;
                      @executeParamExtraction Demo.externals config) Demo.emptyWorld).1)
      by (vm_compute; by eexists).
    destruct Hsome as [xerr Hsome].
    cbv zeta in Hrun. rewrite Hsome in Hrun.
    destruct Hrun as (Hphase & _ & _ & _ & _ & _ & Hresults & _ & Hcalls & _);
      [vm_compute; reflexivity|].
    by split_and!.
Defined.

Lemma handler_ack_policy_witness :
  let config := Demo.config [Demo.clusterReady "check" "/down"] (Demo.report "/status") in
  is_Some (@CreateHandler Demo.externals config (Some Demo.eventWithId) Demo.emptyWorld).1
  ∧ (@CreateHandler Demo.externals config (Some Demo.eventWithoutId) Demo.emptyWorld).1 = None.
Proof.
  intros config. split.
  - destruct (@handler_ack_policy Demo.externals config (Some Demo.eventWithId)
                Demo.emptyWorld) as (_ & _ & _ & Hnack).
    apply Hnack; vm_compute; [reflexivity | discriminate].
  - destruct (@handler_ack_policy Demo.externals config (Some Demo.eventWithoutId)
                Demo.emptyWorld) as (_ & Hack & _ & _).
    apply Hack; vm_compute; reflexivity.
Defined.

(** C3, as stated, fails: the precondition's API call fails and records
    [ExecutionError] for the preconditions phase; the post-action then fails
    too and the record at the end of the event is the post-action's. *)
Lemma execution_error_overwritten :
  let config := Demo.config [Demo.clusterReady "check" "/down"] (Demo.report "/down") in
  let afterPreconditions :=
    (@beginExecution Demo.eventWithId {[ "id" := VStr "evt" ]} ;;
     @executeParamExtraction Demo.externals config ;;
     announceParams ;;
     @PreconditionExecutor.ExecuteAll Demo.externals (spec_Preconditions config))
      Demo.emptyWorld in
  let run := @Execute Demo.externals config (Some Demo.eventWithId) Demo.emptyWorld in
  recordedError afterPreconditions.2 =
    Some {| ee_Phase := PhasePreconditions; ee_Step := "check";
            ee_Message := "GET /down -> 0: connection refused" |}
  ∧ recordedError run.2 =
    Some {| ee_Phase := PhasePostActions; ee_Step := "report";
            ee_Message := "report: API call failed: GET /down -> 0: connection refused" |}
  ∧ recordedError run.2 ≠ recordedError afterPreconditions.2.
Proof.
  split_and!; try (vm_compute; reflexivity). vm_compute. discriminate.
Qed.

Lemma resources_skipped_when_not_met_witness :
  let config := Demo.config [Demo.clusterReady "check" "/clusters/pending"]
                  (Demo.report "/status") in
  let run := @Execute Demo.externals config (Some Demo.eventWithId) Demo.emptyWorld in
  ResourceResults run.1 = []
  ∧ cluster run.2 = ∅
  ∧ ResourcesSkipped run.1 = true
  ∧ SkipReason run.1 = "precondition 'check' not met: status equals ready (actual: pending)"
  ∧ Status run.1 = StatusSuccess
  ∧ length (PostActionResults run.1) = 1.
Proof.
  intros config run.
  edestruct (@resources_skipped_when_not_met Demo.externals config Demo.eventWithId
               {[ "id" := VStr "evt" ]} Demo.emptyWorld)
    as (Hres & Hcl & Hskip & Hreason & _ & _ & Hpost & _ & _ & Hstatus);
    [vm_compute; reflexivity ..|].
  split; [exact Hres|]. split; [exact Hcl|]. split; [exact Hskip|].
  split; [exact Hreason|]. split; [apply Hstatus; vm_compute; reflexivity|].
  unfold run. rewrite Hpost. vm_compute. reflexivity.
Defined.

Section DeepCopyProperties.
Import DeepCopy.


Lemma deepEqual_agree (d : nat) :
  ∀ (h1 h2 h1' h2' : gmap loc HObject) (v1 v2 : HValue),
    deepEqual d h1 v1 h2 v2 →
    (∀ l, is_Some (h1 !! l) → h1' !! l = h1 !! l) →
    (∀ l, is_Some (h2 !! l) → h2' !! l = h2 !! l) →
    deepEqual d h1' v1 h2' v2.
Proof.
  induction d as [|d IH]; intros h1 h2 h1' h2' v1 v2 Heq A1 A2.
  - destruct v1 as [| | | |[l1|]|[l1|]|], v2 as [| | | |[l2|]|[l2|]|]; simpl in *; done.
  - destruct v1 as [| | | |[l1|]|[l1|]|], v2 as [| | | |[l2|]|[l2|]|]; simpl in *; try done.
    + destruct (h1 !! l1) as [[m1|s1]|] eqn:E1; try done.
      destruct (h2 !! l2) as [[m2|s2]|] eqn:E2; try done.
      rewrite (A1 l1) by (rewrite E1; by eexists). rewrite E1.
      rewrite (A2 l2) by (rewrite E2; by eexists). rewrite E2.
      intros k. specialize (Heq k).
      destruct (m1 !! k), (m2 !! k); try done. by eapply IH.
    + destruct (h1 !! l1) as [[m1|s1]|] eqn:E1; try done.
      destruct (h2 !! l2) as [[m2|s2]|] eqn:E2; try done.
      rewrite (A1 l1) by (rewrite E1; by eexists). rewrite E1.
      rewrite (A2 l2) by (rewrite E2; by eexists). rewrite E2.
      eapply Forall2_impl; [exact Heq|]. intros a b Hab. simpl in *. eapply IH; eauto.
Qed.

Lemma agree_subseteq (h h' : gmap loc HObject) :
  h ⊆ h' → ∀ l, is_Some (h !! l) → h' !! l = h !! l.
Proof. intros Hsub l [o Ho]. rewrite Ho. by eapply lookup_weaken. Qed.

Lemma deepEqual_trans (d : nat) :
  ∀ (h1 h2 h3 : gmap loc HObject) (v1 v2 v3 : HValue),
    deepEqual d h1 v1 h2 v2 → deepEqual d h2 v2 h3 v3 → deepEqual d h1 v1 h3 v3.
Proof.
  induction d as [|d IH]; intros h1 h2 h3 v1 v2 v3 H12 H23.
  - destruct v1 as [| | | |[l1|]|[l1|]|], v2 as [| | | |[l2|]|[l2|]|],
      v3 as [| | | |[l3|]|[l3|]|]; simpl in *; try done; congruence.
  - destruct v1 as [| | | |[l1|]|[l1|]|], v2 as [| | | |[l2|]|[l2|]|],
      v3 as [| | | |[l3|]|[l3|]|]; simpl in *; try done; try congruence.
    + destruct (h1 !! l1) as [[m1|s1]|]; try done.
      destruct (h2 !! l2) as [[m2|s2]|]; try done.
      destruct (h3 !! l3) as [[m3|s3]|]; try done.
      intros k. specialize (H12 k). specialize (H23 k).
      destruct (m1 !! k), (m2 !! k), (m3 !! k); try done. by eapply IH.
    + destruct (h1 !! l1) as [[m1|s1]|]; try done.
      destruct (h2 !! l2) as [[m2|s2]|]; try done.
      destruct (h3 !! l3) as [[m3|s3]|]; try done.
      revert s3 H23. induction H12 as [|a b s1 s2 Hab _ IHl]; intros s3 H23.
      * by inversion H23.
      * inversion H23 as [|b' c s2' s3' Hbc Hrest]; subst.
        constructor; [by eapply IH | by apply IHl].
Qed.

Lemma Forall2_diag_inv {A} (Q : A → A → Prop) (l : list A) :
  Forall2 Q l l → Forall (fun x => Q x x) l.
Proof.
  induction l as [|x l IH]; intros Hl; [constructor|].
  inversion Hl; subst. constructor; auto.
Qed.

Lemma map_fold_all {A} (f : A → bool) (m : gmap string A) :
  map_fold (fun _ x acc => f x && acc) true m = true →
  ∀ k x, m !! k = Some x → f x = true.
Proof.
  apply (map_fold_weak_ind
           (fun acc mp => acc = true → ∀ k x, mp !! k = Some x → f x = true)).
  - intros _ k x. by rewrite lookup_empty.
  - intros i x mp acc Hi IH Hacc k y Hk.
    apply andb_prop in Hacc as [Hx Hrest].
    destruct (decide (k = i)) as [->|Hne].
    + rewrite lookup_insert_eq in Hk. by injection Hk as <-.
    + rewrite lookup_insert_ne in Hk by done. by eapply IH.
Qed.

Lemma isTree_deepEqual (d : nat) :
  ∀ (h : gmap loc HObject) (v : HValue), isTree d h v = true → deepEqual d h v h v.
Proof.
  induction d as [|d IH]; intros h v Ht.
  - destruct v as [| | | |[l|]|[l|]|]; simpl in *; done.
  - destruct v as [| | | |[l|]|[l|]|]; simpl in *; try done.
    + destruct (h !! l) as [[m|s]|]; try done.
      intros k. destruct (m !! k) as [x|] eqn:Hk; [|done].
      apply IH. by eapply (map_fold_all (isTree d h)).
    + destruct (h !! l) as [[m|s]|]; try done.
      apply Forall_Forall2_diag. apply Forall_forall. intros x Hx.
      apply IH. rewrite forallb_forall in Ht. apply Ht. by apply list_elem_of_In.
Qed.

Lemma deepEqual_weaken_r d h v h1 v1 h2 :
  deepEqual d h v h1 v1 → h1 ⊆ h2 → deepEqual d h v h2 v1.
Proof.
  intros Heq Hsub. eapply deepEqual_agree; [exact Heq|done|by apply agree_subseteq].
Qed.

Lemma deepEqual_weaken d h v v1 h2 :
  deepEqual d h v h v1 → h ⊆ h2 → deepEqual d h2 v h2 v1.
Proof.
  intros Heq Hsub. eapply deepEqual_agree; [exact Heq|by apply agree_subseteq..].
Qed.

Lemma copy_entries (old : gset loc) (d : nat) (h : gmap loc HObject)
    (m : gmap string HValue) :
  copySpec old d →
  old ⊆ dom h → closedOver old h →
  (∀ k x, m !! k = Some x → deepEqual d h x h x) →
  copiedEntries old d h m (map_fold (copyEntry (deepCopy d)) (∅, h) m).
Proof.
  intros IH Hold Hclosed Hwf.
  cut (m ⊆ m → copiedEntries old d h m (map_fold (copyEntry (deepCopy d)) (∅, h) m));
    [by auto|].
  apply (map_fold_weak_ind
           (fun st mp => mp ⊆ m → copiedEntries old d h mp st)).
  - intros _. split; [done|]. split; [done|]. intros k. by rewrite !lookup_empty.
  - intros i x mp st Hi HP Hsub.
    assert (Hmp : mp ⊆ m).
    { etrans; [|exact Hsub]. by apply insert_subseteq. }
    assert (Hx : m !! i = Some x).
    { eapply lookup_weaken; [|exact Hsub]. apply lookup_insert_eq. }
    destruct (HP Hmp) as (Hh & Hcl & Hent).
    pose proof (Hwf i x Hx) as Hxwf.
    assert (Hdom : dom h ⊆ dom st.2) by (by apply subseteq_dom).
    destruct (IH x st.2) as (Hsub' & Heq' & Hfresh' & Hcl').
    { by eapply deepEqual_weaken. }
    { by etrans. }
    { done. }
    unfold copyEntry. destruct (deepCopy d x st.2) as [x' hc'] eqn:Hcopy.
    unfold copiedEntries. cbn [fst snd] in *. split; [by etrans|]. split; [done|].
    intros k. destruct (decide (k = i)) as [->|Hne].
    + rewrite lookup_insert_eq. rewrite lookup_insert_eq. simpl. split.
      * eapply deepEqual_trans; [|exact Heq']. by eapply deepEqual_weaken_r.
      * unfold freshRef. intros l Hl Hin. apply (Hfresh' l Hl). by apply Hdom.
    + rewrite lookup_insert_ne by done. rewrite lookup_insert_ne by done.
      specialize (Hent k).
      destruct (mp !! k), (st.1 !! k); try done.
      destruct Hent as [He Hf]. split; [|done]. by eapply deepEqual_weaken_r.
Qed.

Lemma copy_elements (old : gset loc) (d : nat) (s : list HValue) :
  copySpec old d →
  ∀ (h0 h : gmap loc HObject),
    h0 ⊆ h → old ⊆ dom h0 → closedOver old h →
    Forall (fun x => deepEqual d h0 x h0 x) s →
    let st := copyList (deepCopy d) s h in
    h ⊆ st.2 ∧ closedOver old st.2 ∧
    Forall2 (fun a b => deepEqual d h0 a st.2 b ∧ freshRef (dom h0) b) s st.1.
Proof.
  intros IH. induction s as [|x xs IHs]; intros h0 h Hsub Hold Hcl Hwf; simpl.
  - split; [done|]. split; [done|]. constructor.
  - inversion Hwf as [|? ? Hx Hxs]; subst.
    assert (Hdom : dom h0 ⊆ dom h) by (by apply subseteq_dom).
    destruct (IH x h) as (Hsub1 & Heq1 & Hfresh1 & Hcl1).
    { by eapply deepEqual_weaken. }
    { by etrans. }
    { done. }
    destruct (deepCopy d x h) as [x' h1] eqn:Hcopy. simpl in *.
    destruct (IHs h0 h1) as (Hsub2 & Hcl2 & Hall); [by etrans|done|done|done|].
    destruct (copyList (deepCopy d) xs h1) as [xs' h2] eqn:Hrest. simpl in *.
    split; [by etrans|]. split; [done|].
    constructor; [|done]. split.
    + eapply deepEqual_weaken_r; [|exact Hsub2].
      eapply deepEqual_trans; [|exact Heq1]. by eapply deepEqual_weaken_r.
    + unfold freshRef. intros l Hl Hin. apply (Hfresh1 l Hl). by apply Hdom.
Qed.

Lemma fresh_not_in (h : gmap loc HObject) : h !! fresh (dom h) = None.
Proof. apply not_elem_of_dom. apply is_fresh. Qed.

Lemma deepCopy_spec (old : gset loc) (d : nat) : copySpec old d.
Proof.
  induction d as [|d IH]; intros v h Hwf Hold Hcl r; subst r.
  - destruct v as [| | | |[l|]|[l|]|]; simpl in *; done.
  - destruct v as [| | | |[l|]|[l|]|]; simpl in *; try done.
    + destruct (h !! l) as [[m|s]|] eqn:El; try done.
      pose proof (copy_entries old d h m IH Hold Hcl) as Hfold.
      destruct Hfold as (Hsub & Hcl1 & Hent).
      { intros k x Hk. specialize (Hwf k). by rewrite Hk in Hwf. }
      destruct (map_fold (copyEntry (deepCopy d)) (∅, h) m) as [m' h1] eqn:Hf.
      simpl in *.
      pose proof (fresh_not_in h1) as Hfr.
      assert (Hsub' : h1 ⊆ <[fresh (dom h1) := OMap m']> h1) by (by apply insert_subseteq).
      assert (Hnew : fresh (dom h1) ∉ dom h).
      { intros Hin. apply (is_fresh (dom h1)).
        by apply (subseteq_dom h h1 Hsub). }
      split; [by etrans|]. split; [|split].
      * rewrite lookup_insert_eq. intros k. specialize (Hent k).
        destruct (m !! k), (m' !! k); try done.
        destruct Hent as [He _]. by eapply deepEqual_weaken_r.
      * unfold freshRef. intros l0 [= <-]. done.
      * unfold closedOver. intros l0 o x l2 Hl0 Hnot Hholds Href.
        destruct (decide (l0 = fresh (dom h1))) as [->|Hne].
        -- rewrite lookup_insert_eq in Hl0. injection Hl0 as <-.
           destruct Hholds as [k Hk]. specialize (Hent k). rewrite Hk in Hent.
           destruct (m !! k); [|done]. destruct Hent as [_ Hf'].
           intros Hin. apply (Hf' l2 Href). by apply Hold.
        -- rewrite lookup_insert_ne in Hl0 by done. by eapply Hcl1.
    + destruct (h !! l) as [[m|s]|] eqn:El; try done.
      destruct (copy_elements old d s IH h h) as (Hsub & Hcl1 & Hall); try done.
      { by apply (Forall2_diag_inv (fun a b => deepEqual d h a h b)). }
      destruct (copyList (deepCopy d) s h) as [s' h1] eqn:Hf. simpl in *.
      pose proof (fresh_not_in h1) as Hfr.
      assert (Hsub' : h1 ⊆ <[fresh (dom h1) := OSlice s']> h1) by (by apply insert_subseteq).
      assert (Hnew : fresh (dom h1) ∉ dom h).
      { intros Hin. apply (is_fresh (dom h1)).
        by apply (subseteq_dom h h1 Hsub). }
      split; [by etrans|]. split; [|split].
      * rewrite lookup_insert_eq.
        eapply Forall2_impl; [exact Hall|]. intros a b [Hab _]. simpl.
        by eapply deepEqual_weaken_r.
      * unfold freshRef. intros l0 [= <-]. done.
      * unfold closedOver. intros l0 o x l2 Hl0 Hnot Hholds Href.
        destruct (decide (l0 = fresh (dom h1))) as [->|Hne].
        -- rewrite lookup_insert_eq in Hl0. injection Hl0 as <-. simpl in Hholds.
           intros Hin.
           assert (Hf' : freshRef (dom h) x).
           { clear -Hall Hholds. induction Hall as [|a b ? ? [_ Hb] _ IHa];
               [by apply elem_of_nil in Hholds|].
             apply elem_of_cons in Hholds as [->|Hx]; auto. }
           apply (Hf' l2 Href). by apply Hold.
        -- rewrite lookup_insert_ne in Hl0 by done. by eapply Hcl1.
Qed.

Lemma reach_fresh (old : gset loc) (h : gmap loc HObject) (v : HValue) (l : loc) :
  closedOver old h → reach h v l → freshRef old v → l ∉ old.
Proof.
  intros Hcl Hr. induction Hr as [v l Href | v l o x l' Href Hl Hholds Hr IH]; intros Hf.
  - by apply Hf.
  - apply IH. intros l2 Hl2. eapply Hcl; eauto.
Qed.

Lemma renderLeaf_ref (render : string → string) (v : HValue) :
  refOf (renderLeaf render v) = refOf v.
Proof. by destruct v. Qed.

Lemma renderEntries_holds (render : string → string) (m : gmap string HValue) :
  ∀ k' x', renderEntries render m !! k' = Some x' →
    ∃ k x, m !! k = Some x ∧ x' = renderLeaf render x.
Proof.
  unfold renderEntries.
  apply (map_fold_weak_ind
           (fun acc mp => ∀ k' x', acc !! k' = Some x' →
              ∃ k x, mp !! k = Some x ∧ x' = renderLeaf render x)).
  - intros k' x'. by rewrite lookup_empty.
  - intros i x mp acc Hi IH k' x' Hk'.
    destruct (decide (render i = k')) as [<-|Hne].
    + rewrite lookup_insert_eq in Hk'. injection Hk' as <-.
      exists i, x. by rewrite lookup_insert_eq.
    + rewrite lookup_insert_ne in Hk' by done.
      destruct (IH k' x' Hk') as (k & y & Hk & ->).
      exists k, y. split; [|done].
      rewrite lookup_insert_ne; [done|]. intros <-. by rewrite Hi in Hk.
Qed.

Lemma renderInPlace_frame (render : string → string) (old : gset loc) (d : nat) :
  renderSpec render old d.
Proof.
  induction d as [|d IH]; intros v h Hcl Hf; [done|].
  destruct v as [| | | |[l|]|[l|]|]; simpl; try done.
  - destruct (h !! l) as [[m|s]|] eqn:El; try done.
    assert (Hl : l ∉ old) by (by apply Hf).
    assert (Hfold : (∀ l0, l0 ∈ old →
               map_fold (fun _ x hc => renderInPlace render d x hc) h m !! l0 = h !! l0)
             ∧ closedOver old (map_fold (fun _ x hc => renderInPlace render d x hc) h m)).
    { cut (m ⊆ m → (∀ l0, l0 ∈ old →
               map_fold (fun _ x hc => renderInPlace render d x hc) h m !! l0 = h !! l0)
             ∧ closedOver old (map_fold (fun _ x hc => renderInPlace render d x hc) h m));
        [by auto|].
      apply (map_fold_weak_ind
               (fun hc mp => mp ⊆ m →
                  (∀ l0, l0 ∈ old → hc !! l0 = h !! l0) ∧ closedOver old hc)).
      - done.
      - intros i x mp hc Hi HP Hsub.
        assert (Hmp : mp ⊆ m).
        { etrans; [|exact Hsub]. by apply insert_subseteq. }
        assert (Hx : m !! i = Some x).
        { eapply lookup_weaken; [|exact Hsub]. apply lookup_insert_eq. }
        destruct (HP Hmp) as [Hag Hclc].
        destruct (IH x hc Hclc) as [Hag' Hcl'].
        { intros l2 Hl2. eapply (Hcl l (OMap m)); eauto. by exists i. }
        split; [|done]. intros l0 Hl0. by rewrite Hag', Hag. }
    destruct Hfold as [Hag Hclf]. split.
    + intros l0 Hl0. rewrite lookup_insert_ne; [by apply Hag|]. by intros ->.
    + intros l0 o x l2 Hl0 Hnot Hholds Href.
      destruct (decide (l0 = l)) as [->|Hne].
      * rewrite lookup_insert_eq in Hl0. injection Hl0 as <-.
        destruct Hholds as [k' Hk'].
        destruct (renderEntries_holds render m k' x Hk') as (k & y & Hk & ->).
        rewrite renderLeaf_ref in Href.
        eapply (Hcl l (OMap m)); eauto. by exists k.
      * rewrite lookup_insert_ne in Hl0 by done. by eapply Hclf.
  - destruct (h !! l) as [[m|s]|] eqn:El; try done.
    assert (Hl : l ∉ old) by (by apply Hf).
    assert (Hfold : ∀ s0 hc,
               (∀ x, x ∈ s0 → freshRef old x) →
               (∀ l0, l0 ∈ old → hc !! l0 = h !! l0) → closedOver old hc →
               (∀ l0, l0 ∈ old →
                  foldl (fun hc x => renderInPlace render d x hc) hc s0 !! l0 = h !! l0)
               ∧ closedOver old (foldl (fun hc x => renderInPlace render d x hc) hc s0)).
    { induction s0 as [|x s0 IHs]; intros hc Hfr Hag Hclc; simpl; [done|].
      destruct (IH x hc Hclc) as [Hag' Hcl'].
      { apply Hfr. by left. }
      apply IHs; [|by intros l0 Hl0; rewrite Hag', Hag|done].
      intros y Hy. apply Hfr. by right. }
    destruct (Hfold s h) as [Hag Hclf]; [|done|done|].
    { intros x Hx l2 Hl2. by eapply (Hcl l (OSlice s)). }
    split.
    + intros l0 Hl0. rewrite lookup_insert_ne; [by apply Hag|]. by intros ->.
    + intros l0 o x l2 Hl0 Hnot Hholds Href.
      destruct (decide (l0 = l)) as [->|Hne].
      * rewrite lookup_insert_eq in Hl0. injection Hl0 as <-. simpl in Hholds.
        apply list_elem_of_fmap in Hholds as (y & -> & Hy).
        rewrite renderLeaf_ref in Href.
        by eapply (Hcl l (OSlice s)).
      * rewrite lookup_insert_ne in Hl0 by done. by eapply Hclf.
Qed.

Lemma closedOver_dom (h : gmap loc HObject) : closedOver (dom h) h.
Proof. intros l o x l2 Hl Hnot. exfalso. apply Hnot. apply elem_of_dom. by eexists. Qed.

Lemma deepEqual_frame (d : nat) (h h' : gmap loc HObject) (x : HValue) :
  deepEqual d h x h x → (∀ l, l ∈ dom h → h' !! l = h !! l) → deepEqual d h x h' x.
Proof.
  intros Hwf Hag. eapply deepEqual_agree; [exact Hwf|done|].
  intros l Hl. apply Hag. by apply elem_of_dom.
Qed.

(** C9. For a map/slice tree [x] of depth at most [d] (any [d], so also
    [d ≤ 8]), the deep copy is structurally equal to [x] and shares no object
    with it: every object reachable from the copy is new, so overwriting such
    an object, assigning to one of its map entries or to one of its slice
    elements leaves [x] structurally equal to what it was; a nil map copies
    to nil; and rendering a resource template, which deep-copies it and
    renders the copy, leaves the template structurally equal to what it
    was. *)
Theorem deepCopy_isolating (render : string → string) (d : nat) (h : gmap loc HObject)
    (x : HValue) :
  isTree d h x = true →
  let copied := deepCopy d x h in
  deepEqual d h x copied.2 copied.1
  ∧ (∀ l, reach copied.2 copied.1 l → l ∉ dom h)
  ∧ (∀ l o, reach copied.2 copied.1 l → deepEqual d h x (<[l := o]> copied.2) x)
  ∧ (∀ l k v, reach copied.2 copied.1 l → deepEqual d h x (setEntry l k v copied.2) x)
  ∧ (∀ l i v, reach copied.2 copied.1 l → deepEqual d h x (setElement l i v copied.2) x)
  ∧ deepCopy d (HMap None) h = (HMap None, h)
  ∧ deepEqual d h x (renderResource render d x h).2 x.
Proof.
  intros Htree copied. pose proof (isTree_deepEqual d h x Htree) as Hwf.
  destruct (deepCopy_spec (dom h) d x h Hwf) as (Hsub & Heq & Hfresh & Hcl);
    [done|apply closedOver_dom|].
  fold copied in Hsub, Heq, Hfresh, Hcl.
  assert (Hreach : ∀ l, reach copied.2 copied.1 l → l ∉ dom h).
  { intros l Hr. by eapply reach_fresh. }
  assert (Hwrite : ∀ l o, reach copied.2 copied.1 l →
            deepEqual d h x (<[l := o]> copied.2) x).
  { intros l o Hr. apply deepEqual_frame; [done|]. intros l0 Hl0.
    rewrite lookup_insert_ne; [by apply agree_subseteq, elem_of_dom|].
    intros ->. by apply (Hreach l0). }
  split; [done|]. split; [done|]. split; [done|]. split; [|split; [|split]].
  - intros l k v Hr. unfold setEntry.
    destruct (copied.2 !! l) as [[m|s]|]; try by apply deepEqual_frame;
      [|intros l0 Hl0; by apply agree_subseteq, elem_of_dom].
    by apply Hwrite.
  - intros l i v Hr. unfold setElement.
    destruct (copied.2 !! l) as [[m|s]|]; try by apply deepEqual_frame;
      [|intros l0 Hl0; by apply agree_subseteq, elem_of_dom].
    by apply Hwrite.
  - by destruct d.
  - unfold renderResource. fold copied. destruct copied as [c h1] eqn:Hc. simpl in *.
    destruct (renderInPlace_frame render (dom h) d c h1 Hcl Hfresh) as [Hag _].
    apply deepEqual_frame; [done|]. intros l0 Hl0.
    rewrite Hag by done. by apply agree_subseteq, elem_of_dom.
Qed.

End DeepCopyProperties.

Lemma deepCopy_isolating_witness :
  let copied := DeepCopy.deepCopy 3 (DeepCopy.HMap (Some 1%positive))
                  DeepCopy.nestedOriginal in
  DeepCopy.deepEqual 3 DeepCopy.nestedOriginal (DeepCopy.HMap (Some 1%positive))
    (DeepCopy.setEntry 4%positive "value" (DeepCopy.HStr "modified") copied.2)
    (DeepCopy.HMap (Some 1%positive)).
Proof.
  intros copied.
  destruct (deepCopy_isolating (fun s => s) 3 DeepCopy.nestedOriginal
              (DeepCopy.HMap (Some 1%positive)) eq_refl)
    as (_ & _ & _ & Hentry & _).
  apply Hentry.
  eapply (DeepCopy.reach_inside _ _ 6%positive _ (DeepCopy.HMap (Some 5%positive)));
    [reflexivity | vm_compute; reflexivity | by exists "level1" |].
  eapply (DeepCopy.reach_inside _ _ 5%positive _ (DeepCopy.HMap (Some 4%positive)));
    [reflexivity | vm_compute; reflexivity | by exists "level2" |].
  by apply DeepCopy.reach_here.
Defined.

(** [TestDeepCopyMap_NestedMaps]: the innermost value of the copy is
    modified; the copy reads [modified], the original still reads [deep]. *)
Example TestDeepCopyMap_NestedMaps :
  DeepCopy.nestedMapsTest = (Some (DeepCopy.HStr "modified"), Some (DeepCopy.HStr "deep")).
Proof. vm_compute. reflexivity. Qed.

(** [TestDeepCopyMap_Slices]: the first element of the copied slice is
    modified; the original slice still starts with [a]. *)
Example TestDeepCopyMap_Slices :
  DeepCopy.slicesTest = (Some (DeepCopy.HStr "modified"), Some (DeepCopy.HStr "a")).
Proof. vm_compute. reflexivity. Qed.

(** [TestDeepCopyMap_NilMap]. *)
Example TestDeepCopyMap_NilMap :
  (DeepCopy.deepCopy 8 (DeepCopy.HMap None) ∅).1 = DeepCopy.HMap None.
Proof. reflexivity. Qed.

Section ManifestWorkProperties.
Import MaestroClient.

(** C4. The workload manifests of the built ManifestWork are the non-nil
    manifests of the resources to apply, in order, when there is at least
    one, and the manifests of the template when the list is empty or holds
    nil manifests only; the namespace is the consumer id, and name, labels
    and annotations are the template's. *)
Theorem buildManifestWork_policy (template : ManifestWork)
    (resources : list ResourceToApply) (consumerName : string) :
  let work := buildManifestWork template resources consumerName in
  ((∃ r, r ∈ resources ∧ is_Some (rta_Manifest r)) →
     mw_Manifests work = omap rta_Manifest resources
     ∧ ∀ m, m ∈ mw_Manifests work ↔ ∃ r, r ∈ resources ∧ rta_Manifest r = Some m)
  ∧ ((∀ r, r ∈ resources → rta_Manifest r = None) →
       mw_Manifests work = mw_Manifests template)
  ∧ om_Namespace (mw_Meta work) = consumerName
  ∧ om_Name (mw_Meta work) = om_Name (mw_Meta template)
  ∧ om_Labels (mw_Meta work) = om_Labels (mw_Meta template)
  ∧ om_Annotations (mw_Meta work) = om_Annotations (mw_Meta template).
Proof.
  intros work. split_and!; try done.
  - intros (r & Hin & [m Hm]).
    assert (Hne : omap rta_Manifest resources ≠ []).
    { intros Hnil. assert (Hmem : m ∈ omap rta_Manifest resources).
      { apply list_elem_of_omap. by exists r. }
      rewrite Hnil in Hmem. by apply elem_of_nil in Hmem. }
    assert (Hw : mw_Manifests work = omap rta_Manifest resources).
    { subst work. unfold buildManifestWork. simpl.
      by destruct (omap rta_Manifest resources). }
    split; [exact Hw|]. intros m'. rewrite Hw. apply list_elem_of_omap.
  - intros Hnil. subst work. unfold buildManifestWork. simpl.
    assert (Hempty : omap rta_Manifest resources = []).
    { induction resources as [|r rs IH]; [done|]. simpl.
      rewrite (Hnil r) by (by left). apply IH. intros r' Hin. apply Hnil. by right. }
    by rewrite Hempty.
Qed.

End ManifestWorkProperties.

Lemma buildManifestWork_policy_witness :
  let template := MaestroClient.newTestTemplate "test-mw"
                    [MaestroClient.bareNamespace "template-ns"] in
  let work := MaestroClient.buildManifestWork template
                [ {| MaestroClient.rta_Name := "skipped"; MaestroClient.rta_Manifest := None |};
                  {| MaestroClient.rta_Name := "cm";
                     MaestroClient.rta_Manifest := Some (MaestroClient.configMap "explicit-cm") |} ]
                "consumer-1" in
  MaestroClient.mw_Manifests work = [MaestroClient.configMap "explicit-cm"]
  ∧ MaestroClient.om_Namespace (MaestroClient.mw_Meta work) = "consumer-1".
Proof.
  intros template work.
  destruct (buildManifestWork_policy template
              [ {| MaestroClient.rta_Name := "skipped"; MaestroClient.rta_Manifest := None |};
                {| MaestroClient.rta_Name := "cm";
                   MaestroClient.rta_Manifest := Some (MaestroClient.configMap "explicit-cm") |} ]
              "consumer-1")
    as (Hexplicit & _ & Hns & _).
  split; [|exact Hns].
  apply Hexplicit. eexists. split; [right; left|]. by eexists.
Defined.

(** [TestBuildManifestWork_NilManifestUsesTemplate] and
    [TestBuildManifestWork_EmptyResources]. *)
Example TestBuildManifestWork_NilManifestUsesTemplate :
  let template := MaestroClient.newTestTemplate "test-mw"
                    [MaestroClient.bareNamespace "from-template"] in
  MaestroClient.mw_Manifests
    (MaestroClient.buildManifestWork template
       [ {| MaestroClient.rta_Name := "ns"; MaestroClient.rta_Manifest := None |} ]
       "consumer-1")
  = [MaestroClient.bareNamespace "from-template"]
  ∧ MaestroClient.mw_Manifests (MaestroClient.buildManifestWork template [] "consumer-1")
    = [MaestroClient.bareNamespace "from-template"].
Proof. split; reflexivity. Qed.

(** [TestBuildManifestWork_PreservesMetadata] and
    [TestBuildManifestWork_SetsConsumerNamespace]. *)
Example TestBuildManifestWork_PreservesMetadata :
  let template := MaestroClient.newTestTemplate "my-manifestwork"
                    [MaestroClient.bareNamespace "ns"] in
  let work := MaestroClient.buildManifestWork template [] "my-cluster" in
  MaestroClient.om_Name (MaestroClient.mw_Meta work) = "my-manifestwork"
  ∧ MaestroClient.om_Namespace (MaestroClient.mw_Meta work) = "my-cluster"
  ∧ MaestroClient.om_Labels (MaestroClient.mw_Meta work) !! "test" = Some "true"
  ∧ MaestroClient.om_Annotations (MaestroClient.mw_Meta work)
      !! MaestroClient.AnnotationGeneration = Some "1".
Proof. split_and!; reflexivity. Qed.

(** ** Field capture by dotted path *)

Section CaptureProperties.

Lemma SplitDots_cons (s : string) : ∃ hd tl, SplitDots s = hd :: tl.
Proof.
  induction s as [|c s (hd & tl & IH)]; simpl; [by eexists _, _|].
  destruct (Ascii.eqb c "."); [by eexists _, _|]. rewrite IH. by eexists _, _.
Qed.

Lemma SplitDots_no_dot (s : string) : hasDot s = false → SplitDots s = [s].
Proof.
  induction s as [|c s IH]; simpl; [done|].
  destruct (Ascii.eqb c "."); simpl; [done|]. intros Hs. by rewrite IH.
Qed.

Lemma SplitDots_app (p q : string) :
  SplitDots (p +:+ "." +:+ q) = (SplitDots p ++ SplitDots q)%list.
Proof.
  induction p as [|c p IH]; simpl; [done|].
  destruct (Ascii.eqb c "."); simpl; [by rewrite <- IH|].
  change (String.app p (String "." q)) with (p +:+ "." +:+ q). rewrite IH.
  destruct (SplitDots_cons p) as (hd & tl & ->). done.
Qed.

(** No part of a split path holds a dot. *)
Lemma SplitDots_parts (s : string) : Forall (fun part => hasDot part = false) (SplitDots s).
Proof.
  induction s as [|c s IH]; simpl; [by repeat constructor|].
  destruct (Ascii.eqb c ".") eqn:Hc; [by constructor|].
  destruct (SplitDots s) as [|hd tl]; [by repeat constructor; simpl; rewrite Hc|].
  inversion IH; subst. constructor; [simpl; by rewrite Hc|done].
Qed.

(** Joining what was split gives the path back. *)
Lemma Join_SplitDots (s : string) : Join (SplitDots s) "." = s.
Proof.
  unfold Join. induction s as [|c s IH]; simpl; [done|].
  destruct (SplitDots_cons s) as (hd & tl & Hs). rewrite Hs in *.
  destruct (Ascii.eqb_spec c "."%char) as [->|Hc].
  - change (String.concat "." ("" :: hd :: tl))
      with (String "." (String.concat "." (hd :: tl))). by rewrite IH.
  - rewrite <- IH. by destruct tl.
Qed.

Lemma string_app_assoc (a b c : string) : (a +:+ b) +:+ c = a +:+ b +:+ c.
Proof.
  induction a as [|x a IH]; [done|].
  change (String x ((a +:+ b) +:+ c) = String x (a +:+ b +:+ c)). by rewrite IH.
Qed.

Lemma Join_snoc (parts : list string) (hd part : string) :
  Join ((hd :: parts) ++ [part]) "." = Join (hd :: parts) "." +:+ "." +:+ part.
Proof.
  unfold Join. revert hd. induction parts as [|x parts IH]; intros hd; [done|].
  change (String.concat "." (((hd :: x :: parts) ++ [part])%list))
    with (hd +:+ "." +:+ String.concat "." ((x :: parts) ++ [part])%list).
  rewrite IH.
  change (String.concat "." (hd :: x :: parts))
    with (hd +:+ "." +:+ String.concat "." (x :: parts)).
  by rewrite !string_app_assoc.
Qed.

(** Walking a concatenation of parts walks the halves in turn. *)
Lemma captureWalk_app (pre post : list string) :
  ∀ (done : list string) (current : Value),
    captureWalk done (pre ++ post) current =
      match captureWalk done pre current with
      | Ok v => captureWalk (done ++ pre) post v
      | Err e => Err e
      end.
Proof.
  induction pre as [|part pre IH]; intros done current; simpl.
  - by rewrite app_nil_r.
  - destruct current; try done.
    + destruct (m !! part); [|done]. rewrite IH. by rewrite <- app_assoc.
    + destruct (m !! KStr part); [|done]. rewrite IH. by rewrite <- app_assoc.
Qed.

(** The parts already consumed only show in error messages. *)
Lemma captureWalk_done (parts : list string) :
  ∀ (d1 d2 : list string) (current v : Value),
    captureWalk d1 parts current = Ok v → captureWalk d2 parts current = Ok v.
Proof.
  induction parts as [|part parts IH]; intros d1 d2 current v; simpl; [done|].
  destruct current; try done.
  - destruct (m !! part); [apply IH|done].
  - destruct (m !! KStr part); [apply IH|done].
Qed.

(** X1. Capture composes along the path: when the path [p] leads to a
    string-keyed map, capturing [p.q] from the data succeeds exactly when
    capturing [q] from that map does, and with the same value. *)
Theorem capture_path_composes (data m : gmap string Value) (p q : string) :
  captureFieldFromData data p = Ok (VMap m) →
  ∀ v, captureFieldFromData data (p +:+ "." +:+ q) = Ok v ↔ captureFieldFromData m q = Ok v.
Proof.
  unfold captureFieldFromData. intros Hp v.
  rewrite SplitDots_app, captureWalk_app, Hp. split; apply captureWalk_done.
Qed.

(** X2. A path without a dot is a plain lookup of the top-level key: the
    capture yields the value bound to it, and when the key is absent the
    error names the key both as the field and as the path. *)
Theorem capture_top_level_lookup (data : gmap string Value) (k : string) :
  hasDot k = false →
  captureFieldFromData data k =
    match data !! k with
    | Some v => Ok v
    | None => Err (PlainError ("field '" +:+ k +:+ "' not found at path '" +:+ k +:+ "'"))
    end.
Proof.
  intros Hk. unfold captureFieldFromData. rewrite (SplitDots_no_dot k Hk). simpl.
  by destruct (data !! k).
Qed.

(** X3. A top-level key that itself contains a dot is invisible to the
    capture: binding or removing it changes the outcome of no path, its own
    name included, since a path is always split at its dots. *)
Theorem capture_ignores_dotted_keys (data : gmap string Value) (k path : string)
    (v : Value) :
  hasDot k = true →
  captureFieldFromData (<[k := v]> data) path = captureFieldFromData data path
  ∧ captureFieldFromData (delete k data) path = captureFieldFromData data path.
Proof.
  intros Hk. unfold captureFieldFromData.
  pose proof (SplitDots_parts path) as Hparts.
  destruct (SplitDots_cons path) as (part & rest & Hs). rewrite Hs in *.
  inversion Hparts as [|? ? Hpart _]; subst. simpl.
  assert (k ≠ part) by (intros ->; congruence).
  by rewrite lookup_insert_ne, lookup_delete_ne.
Qed.

(** X4. Failures are path-qualified: when [p] leads to a value and the next
    part of the path cannot be read from it, capturing [p.q] fails; under a
    map without that key the message names the part and the path up to and
    including it, written as in the configuration; under a value that is not
    a map the message names the part and the Go type of the value, which for
    every value but a number is the one [goTypeName] gives (a number prints
    the Go type it was decoded or built with). *)
Theorem capture_failure_is_path_qualified (data : gmap string Value) (p q part : string)
    (rest : list string) (parent : Value) :
  captureFieldFromData data p = Ok parent →
  SplitDots q = part :: rest →
  match parent with
  | VMap m => m !! part = None
  | VAnyMap m => m !! KStr part = None
  | _ => True
  end →
  ∃ typeName,
    (isNumber parent = false → typeName = goTypeName parent)
    ∧ captureFieldFromData data (p +:+ "." +:+ q) =
        Err (PlainError
               (if isMap parent
                then "field '" +:+ part +:+ "' not found at path '" +:+ p +:+ "." +:+ part
                       +:+ "'"
                else "cannot access field '" +:+ part +:+ "': parent is not a map (got "
                       +:+ typeName +:+ ")")).
Proof.
  unfold captureFieldFromData. intros Hp Hq Hpart.
  exists (goTypeName parent). split; [done|].
  rewrite SplitDots_app, captureWalk_app, Hp, Hq. simpl.
  assert (Hjoin : Join (SplitDots p ++ [part]) "." = p +:+ "." +:+ part).
  { destruct (SplitDots_cons p) as (hd & tl & Hs). rewrite Hs, Join_snoc, <- Hs.
    by rewrite Join_SplitDots. }
  destruct parent; simpl; try done; by rewrite Hpart, Hjoin, !string_app_assoc.
Qed.

End CaptureProperties.

Lemma capture_path_composes_witness :
  captureFieldFromData Fixtures.clusterBody ("status" +:+ "." +:+ "phase") = Ok (VStr "Ready").
Proof.
  apply (capture_path_composes Fixtures.clusterBody {[ "phase" := VStr "Ready" ]}
           "status" "phase"); vm_compute; reflexivity.
Defined.

Lemma capture_top_level_lookup_witness :
  captureFieldFromData Fixtures.clusterBody "id" = Ok (VStr "c-1").
Proof.
  rewrite (capture_top_level_lookup Fixtures.clusterBody "id") by reflexivity.
  vm_compute. reflexivity.
Defined.

Lemma capture_ignores_dotted_keys_witness :
  captureFieldFromData (<["a.b" := VStr "dotted"]> {[ "id" := VStr "c-1" ]}) "a.b"
    = captureFieldFromData {[ "id" := VStr "c-1" ]} "a.b".
Proof.
  apply (capture_ignores_dotted_keys {[ "id" := VStr "c-1" ]} "a.b" "a.b" (VStr "dotted")).
  reflexivity.
Defined.

Lemma capture_failure_is_path_qualified_witness :
  captureFieldFromData Fixtures.clusterBody ("status" +:+ "." +:+ "reason")
    = Err (PlainError "field 'reason' not found at path 'status.reason'")
  ∧ captureFieldFromData Fixtures.clusterBody ("id" +:+ "." +:+ "name")
    = Err (PlainError "cannot access field 'name': parent is not a map (got string)").
Proof.
  split.
  - destruct (capture_failure_is_path_qualified Fixtures.clusterBody "status" "reason"
                "reason" [] (VMap {[ "phase" := VStr "Ready" ]}))
      as (typeName & _ & H); [vm_compute; reflexivity ..|].
    vm_compute in H. vm_compute. exact H.
  - destruct (capture_failure_is_path_qualified Fixtures.clusterBody "id" "name"
                "name" [] (VStr "c-1"))
      as (typeName & Hty & H); [vm_compute; reflexivity ..| done |].
    rewrite (Hty eq_refl) in H. vm_compute in H. vm_compute. exact H.
Defined.

(** ** Invariants of the precondition executor *)

Section PreconditionInvariants.
Context `{!Externals}.
Import PreconditionExecutor.

Lemma flat_map_filter {A B} (P : A → bool) (f : A → list B) (l : list A) :
  flat_map (fun x => if P x then f x else []) l = flat_map f (filter P l).
Proof.
  induction l as [|x l IH]; [done|]. simpl. rewrite filter_cons.
  destruct (P x); simpl; by rewrite IH.
Qed.

Lemma string_app_nonempty (a b : string) : b ≠ "" → a +:+ b ≠ "".
Proof. destruct a; [done|]. intros _. discriminate. Qed.

Lemma Join_nonempty (d : string) (ds : list string) (sep : string) :
  d ≠ "" → Join (d :: ds) sep ≠ "".
Proof.
  intros Hd. unfold Join. simpl. destruct ds; [done|].
  destruct d; [done|]. discriminate.
Qed.

(** X5. The details of an unmet precondition describe unmatched conditions
    only: dropping the matched condition results from the record leaves the
    text as it is; the text is never empty; and when the CEL result carries
    no error and no condition is unmatched it reads "no specific details
    available". *)
Theorem condition_details_cover_unmatched_only (r : PreconditionResult) :
  formatConditionDetails (withConditionResults (filter unmatched (pr_ConditionResults r)) r)
    = formatConditionDetails r
  ∧ formatConditionDetails r ≠ ""
  ∧ ((∀ c, pr_CELResult r = Some c → HasError c = false) →
     Forall (fun c => er_Matched c = true) (pr_ConditionResults r) →
     formatConditionDetails r = "no specific details available").
Proof.
  unfold formatConditionDetails. simpl.
  set (line := fun condResult : EvaluationResult =>
         [er_Field condResult +:+ " " +:+ er_Operator condResult +:+ " "
            +:+ formatValue (er_ExpectedValue condResult)
            +:+ " (actual: " +:+ formatValue (er_FieldValue condResult) +:+ ")"]).
  assert (Hflat : ∀ l, flat_map (fun c => if er_Matched c then [] else line c) l
                       = flat_map line (filter unmatched l)).
  { intros l. rewrite <- (flat_map_filter unmatched line).
    apply flat_map_ext. intros c. unfold unmatched. by destruct (er_Matched c). }
  split_and!.
  - assert (Hidem : ∀ l : list EvaluationResult,
              filter unmatched (filter unmatched l) = filter unmatched l).
    { induction l as [|c l IH]; [done|].
      rewrite (filter_cons _ c l). destruct (decide (unmatched c)); [|done].
      rewrite filter_cons_True by done. by rewrite IH. }
    by rewrite !Hflat, Hidem.
  - destruct (pr_CELResult r) as [c|]; [destruct (HasError c)|]; simpl.
    + apply Join_nonempty. done.
    + rewrite Hflat. destruct (filter unmatched (pr_ConditionResults r)) as [|c' l]; [done|].
      simpl. apply Join_nonempty. apply string_app_nonempty. done.
    + rewrite Hflat. destruct (filter unmatched (pr_ConditionResults r)) as [|c' l]; [done|].
      simpl. apply Join_nonempty. apply string_app_nonempty. done.
  - intros Hcel Hall.
    assert (Hnone : filter unmatched (pr_ConditionResults r) = []).
    { induction Hall as [|c l Hc _ IH]; [done|].
      rewrite filter_cons_False; [done|]. unfold unmatched. rewrite Hc. by intros []. }
    rewrite Hflat, Hnone. simpl.
    destruct (pr_CELResult r) as [c|]; [|done]. by rewrite (Hcel c eq_refl).
Qed.

(** The capture loop leaves the name and the match flag of the record. *)
Lemma captureFields_record (data : gmap string Value) (cs : list CaptureField) :
  ∀ (r : PreconditionResult) (w : World),
    pr_Name (captureFields data cs r w).1 = pr_Name r
    ∧ pr_Matched (captureFields data cs r w).1 = pr_Matched r.
Proof.
  induction cs as [|c cs IH]; intros r w; simpl; [done|].
  destruct (captureFieldFromData data (cf_Field c)); unfold bind; simpl;
    (split; (etrans; [apply IH|done])).
Qed.

(** What a single precondition leaves behind, case by case. *)
Lemma executePrecondition_spec (p : Precondition) (w : World) :
  let run := executePrecondition p w in
  pr_Name run.1.1 = pc_Name p
  ∧ apiCalls run.2 = apiCalls w ++ option_list (pc_APICall p)
  ∧ match run.1.2 with
    | None =>
        pr_Status run.1.1 = StatusSuccess ∧ pr_Error run.1.1 = None
        ∧ recordedError run.2 = recordedError w
    | Some e =>
        pr_Status run.1.1 = StatusFailed ∧ is_Some (pr_Error run.1.1)
        ∧ pr_Matched run.1.1 = false
        ∧ ∃ msg cause,
            e = ExecutorError PhasePreconditions (pc_Name p) msg (Some cause)
            ∧ (((msg = "API call failed" ∨ msg = "failed to parse API response")
                ∧ is_Some (pc_APICall p)
                ∧ recordedError run.2 =
                    Some {| ee_Phase := PhasePreconditions; ee_Step := pc_Name p;
                            ee_Message := errorString cause |})
               ∨ ((msg = "condition evaluation failed"
                   ∨ msg = "CEL expression evaluation failed")
                  ∧ recordedError run.2 = recordedError w))
    end.
Proof.
  assert (Heval : ∀ r w0,
    let ev := finishStep p r w0 in
    pr_Name ev.1.1 = pr_Name r
    ∧ apiCalls ev.2 = apiCalls w0
    ∧ recordedError ev.2 = recordedError w0
    ∧ match ev.1.2 with
      | None => pr_Status ev.1.1 = pr_Status r ∧ pr_Error ev.1.1 = pr_Error r
      | Some e =>
          pr_Status ev.1.1 = StatusFailed ∧ is_Some (pr_Error ev.1.1)
          ∧ pr_Matched ev.1.1 = pr_Matched r
          ∧ ∃ msg cause,
              e = ExecutorError PhasePreconditions (pc_Name p) msg (Some cause)
              ∧ (msg = "condition evaluation failed"
                 ∨ msg = "CEL expression evaluation failed")
      end).
  { intros r w0. unfold finishStep, evaluateStep, bind, getCtx, logOutcome. simpl.
    destruct (pc_Conditions p) as [|c cs].
    - destruct (String.eqb (pc_Expression p) ""); simpl; [by split_and!|].
      destruct (EvaluateCEL _ _) as [cel|e]; simpl.
      + destruct (cel_Matched cel); simpl; by split_and!.
      + split_and!; try done. eexists _, _. split; [done|by right].
    - destruct (EvaluateConditionsWithResult _ _) as [cr|e]; simpl.
      + destruct (cr_Matched cr); simpl; by split_and!.
      + split_and!; try done. eexists _, _. split; [done|by left]. }
  assert (Hpre : ∀ w0, apiCalls (preamble p w0).2 = apiCalls w0
                       ∧ recordedError (preamble p w0).2 = recordedError w0).
  { intros w0. unfold preamble, bind, runLogAction, getCtx. simpl. by destruct (pc_Log p). }
  intros run. subst run. unfold executePrecondition, bind.
  destruct (Hpre w) as [Hc0 Hr0]. destruct (preamble p w) as [[] wl]. simpl in Hc0, Hr0.
  destruct (pc_APICall p) as [a|].
  - unfold apiCallStep, executeAPICall, sendAPICall, bind.
    destruct (ExecuteAPICall a (execCtx wl) (apiCalls wl)) as [[resp url] err].
    destruct (ValidateAPIResponse resp err (ac_Method a) url) as [verr|]; simpl.
    + rewrite Hc0. split_and!; try done. eexists _, _. split; [done|]. left. by split_and!; [left|..].
    + destruct (jsonUnmarshal _) as [data|jerr]; simpl.
      * set (r1 := withResponse _ _). set (w1 := {| execCtx := execCtx wl |}).
        destruct (captureFields_frame data (pc_Capture p) r1 w1)
          as (Hs & He & Ha & _ & Had & _ & _).
        destruct (captureFields_record data (pc_Capture p) r1 w1) as [Hn Hm].
        destruct (captureFields data (pc_Capture p) r1 w1) as [r2 w2]. simpl in *.
        destruct (Heval r2 w2) as (Hn' & Ha' & Hr' & Hcase).
        destruct (finishStep p r2 w2) as [[r3 [e|]] w3]; simpl in *.
        -- destruct Hcase as (Hst & Her & Hma & msg & cause & -> & Hmsg).
           split; [by rewrite Hn', Hn|]. split; [by rewrite Ha', Ha, Hc0|].
           split_and!; try done; [by rewrite Hma, Hm|].
           eexists _, _. split; [done|]. right. split; [done|].
           rewrite Hr', <- Hr0. unfold recordedError. by rewrite Had.
        -- destruct Hcase as [Hst Her].
           split; [by rewrite Hn', Hn|]. split; [by rewrite Ha', Ha, Hc0|].
           split_and!; [by rewrite Hst, Hs | by rewrite Her, He|].
           rewrite Hr', <- Hr0. unfold recordedError. by rewrite Had.
      * rewrite Hc0. split_and!; try done. eexists _, _. split; [done|].
        left. by split_and!; [right|..].
  - unfold ret at 1. simpl.
    destruct (Heval (newResult p) wl) as (Hn' & Ha' & Hr' & Hcase).
    destruct (finishStep p (newResult p) wl) as [[r3 [e|]] w3]; simpl in *.
    + destruct Hcase as (Hst & Her & Hma & msg & cause & -> & Hmsg).
      split; [done|]. split; [by rewrite Ha', Hc0, app_nil_r|].
      split_and!; try done. eexists _, _. split; [done|]. right. split; [done|].
      by rewrite Hr'.
    + destruct Hcase as [Hst Her].
      split; [done|]. split; [by rewrite Ha', Hc0, app_nil_r|].
      split_and!; try done. by rewrite Hr'.
Qed.

(** One turn of the loop of [ExecuteAll]. *)
Lemma ExecuteAll_cons (p : Precondition) (rest : list Precondition) (w : World) :
  ExecuteAll (p :: rest) w =
    let run := executePrecondition p w in
    match run.1.2 with
    | Some e => ({| po_AllMatched := false; po_Results := [run.1.1];
                    po_Error := Some e; po_NotMetReason := "" |}, run.2)
    | None =>
        if pr_Matched run.1.1
        then (prependResults [run.1.1] (ExecuteAll rest run.2).1, (ExecuteAll rest run.2).2)
        else ({| po_AllMatched := false; po_Results := [run.1.1]; po_Error := None;
                 po_NotMetReason := notMetReason p run.1.1 |}, run.2)
    end.
Proof.
  unfold ExecuteAll at 1. simpl. unfold bind.
  destruct (executePrecondition p w) as [[r [e|]] w1]; simpl; [done|].
  destruct (pr_Matched r); simpl; [|done]. apply executeLoop_acc.
Qed.

(** X6. The records of [ExecuteAll] are those of a prefix of the
    preconditions, one per precondition and in declaration order, and the
    calls sent during the phase are exactly the API calls of that prefix, in
    order: a precondition after the one that stopped the phase sends
    nothing. *)
Theorem preconditions_run_in_order (ps : list Precondition) (w : World) :
  let run := ExecuteAll ps w in
  let n := length (po_Results run.1) in
  n ≤ length ps
  ∧ pr_Name <$> po_Results run.1 = pc_Name <$> take n ps
  ∧ apiCalls run.2 = apiCalls w ++ omap pc_APICall (take n ps).
Proof.
  revert w. induction ps as [|p ps IH]; intros w.
  - simpl. split_and!; try done. by rewrite app_nil_r.
  - cbv zeta. rewrite ExecuteAll_cons. cbv zeta.
    destruct (executePrecondition_spec p w) as (Hn & Ha & _).
    destruct (executePrecondition p w) as [[r [e|]] w1]; simpl in *.
    + split_and!; [lia | by rewrite Hn|].
      rewrite Ha. by destruct (pc_APICall p).
    + destruct (pr_Matched r); simpl.
      * destruct (IH w1) as (Hlen & Hnames & Hcalls).
        split_and!; [lia | by f_equal|].
        rewrite Hcalls, Ha, <- app_assoc. by destruct (pc_APICall p).
      * split_and!; [lia | by rewrite Hn|].
        rewrite Ha. by destruct (pc_APICall p).
Qed.

(** X7. The outcome of [ExecuteAll], classified. With [AllMatched] there is
    no error and no reason, every precondition has its record and every
    record matched with status success. Without it the records end with the
    one that stopped the phase, all the records before it having passed:
    either an error is returned and that record is failed, carries an error
    and is unmatched, with an empty reason; or no error is returned and that
    record is a successful, unmatched one, with a non-empty reason. *)
Theorem preconditions_outcome_classified (ps : list Precondition) (w : World) :
  let o := (ExecuteAll ps w).1 in
  if po_AllMatched o then
    po_Error o = None ∧ po_NotMetReason o = ""
    ∧ length (po_Results o) = length ps
    ∧ Forall passed (po_Results o)
  else
    ∃ front last,
      po_Results o = front ++ [last]
      ∧ Forall passed front
      ∧ match po_Error o with
        | Some _ =>
            pr_Status last = StatusFailed ∧ is_Some (pr_Error last)
            ∧ pr_Matched last = false ∧ po_NotMetReason o = ""
        | None =>
            pr_Status last = StatusSuccess ∧ pr_Error last = None
            ∧ pr_Matched last = false ∧ po_NotMetReason o ≠ ""
        end.
Proof.
  revert w. induction ps as [|p ps IH]; intros w.
  - simpl. by split_and!.
  - cbv zeta. rewrite ExecuteAll_cons. cbv zeta.
    destruct (executePrecondition_spec p w) as (_ & _ & Hcase).
    destruct (executePrecondition p w) as [[r [e|]] w1]; simpl in *.
    + destruct Hcase as (Hs & He & Hm & _). exists [], r. by split_and!.
    + destruct Hcase as (Hs & He & _).
      destruct (pr_Matched r) eqn:Hm; simpl.
      * specialize (IH w1). simpl in IH.
        destruct (po_AllMatched (ExecuteAll ps w1).1).
        -- destruct IH as (H1 & H2 & H3 & H4). split_and!; try done; [by rewrite H3|].
           by constructor.
        -- destruct IH as (front & last & Hres & Hfront & Hlast).
           exists (r :: front), last. rewrite Hres. split_and!; try done.
           by constructor.
      * exists [], r. by split_and!.
Qed.

(** X8. The preconditions phase records [ExecutionError] for a failed API
    call and for a response that does not decode, with the name of the
    precondition as the step and the text of the underlying error as the
    message, and for nothing else: the error it returns is always an
    [ExecutorError] of the preconditions phase naming the precondition, but
    when it stems from the evaluation of the conditions or of the CEL
    expression, or when the phase returns no error, the record in the
    adapter metadata is the one the phase found. *)
Theorem preconditions_execution_error_sites (ps : list Precondition) (w : World) :
  let run := ExecuteAll ps w in
  match po_Error run.1 with
  | None => recordedError run.2 = recordedError w
  | Some e =>
      ∃ p msg cause,
        p ∈ ps
        ∧ e = ExecutorError PhasePreconditions (pc_Name p) msg (Some cause)
        ∧ (((msg = "API call failed" ∨ msg = "failed to parse API response")
            ∧ is_Some (pc_APICall p)
            ∧ recordedError run.2 =
                Some {| ee_Phase := PhasePreconditions; ee_Step := pc_Name p;
                        ee_Message := errorString cause |})
           ∨ ((msg = "condition evaluation failed"
               ∨ msg = "CEL expression evaluation failed")
              ∧ recordedError run.2 = recordedError w))
  end.
Proof.
  revert w. induction ps as [|p ps IH]; intros w; [done|].
  cbv zeta. rewrite ExecuteAll_cons. cbv zeta.
  destruct (executePrecondition_spec p w) as (_ & _ & Hcase).
  destruct (executePrecondition p w) as [[r [e|]] w1]; simpl in *.
  - destruct Hcase as (_ & _ & _ & msg & cause & -> & Hsite).
    exists p, msg, cause. split; [by left|]. split; [done|]. exact Hsite.
  - destruct Hcase as (_ & _ & Hrec).
    destruct (pr_Matched r); simpl; [|done].
    specialize (IH w1). simpl in IH.
    destruct (po_Error (ExecuteAll ps w1).1) as [e|]; [|by rewrite IH].
    destruct IH as (p' & msg & cause & Hin & -> & Hsite).
    exists p', msg, cause. split; [by right|]. split; [done|].
    by rewrite <- Hrec.
Qed.

(** The capture loop binds the same values in the record and in the
    parameters, under names the capture entries declare. *)
Lemma captureFields_bound (data : gmap string Value) (cs : list CaptureField) :
  ∀ (r : PreconditionResult) (w : World),
    let run := captureFields data cs r w in
    (pr_CapturedFields r ⊆ Params (execCtx w) →
       pr_CapturedFields run.1 ⊆ Params (execCtx run.2))
    ∧ (∀ k, is_Some (pr_CapturedFields run.1 !! k) →
         is_Some (pr_CapturedFields r !! k) ∨ ∃ c, c ∈ cs ∧ cf_Name c = k).
Proof.
  induction cs as [|c cs IH]; intros r w; simpl.
  - split; [done|]. intros k Hk. by left.
  - destruct (captureFieldFromData data (cf_Field c)) as [v|e]; unfold bind; simpl.
    + destruct (IH (withCaptured (cf_Name c) v r)
                  (modifyCtx (withParams (insert (cf_Name c) v)) w).2) as [Hsub Hnames].
      split.
      * intros Hr. apply Hsub. simpl. by apply insert_mono.
      * intros k Hk. destruct (Hnames k Hk) as [Hin|(c' & Hin & Hc')].
        -- simpl in Hin. destruct (decide (cf_Name c = k)) as [<-|Hne].
           ++ right. exists c. split; [by left|done].
           ++ rewrite lookup_insert_ne in Hin by done. by left.
        -- right. exists c'. split; [by right|done].
    + destruct (IH r (logAt LevelWarning (captureWarning c e) w).2) as [Hsub Hnames].
      split; [done|].
      intros k Hk. destruct (Hnames k Hk) as [Hin|(c' & Hin & Hc')]; [by left|].
      right. exists c'. split; [by right|done].
Qed.

(** Step 3 and the closing log line leave the parameters and the captured
    fields of the record. *)
Lemma finishStep_frame (p : Precondition) (r : PreconditionResult) (w : World) :
  pr_CapturedFields (finishStep p r w).1.1 = pr_CapturedFields r
  ∧ Params (execCtx (finishStep p r w).2) = Params (execCtx w).
Proof.
  unfold finishStep, evaluateStep, bind, getCtx, logOutcome. simpl.
  destruct (pc_Conditions p) as [|c cs].
  - destruct (String.eqb (pc_Expression p) ""); simpl; [done|].
    destruct (EvaluateCEL _ _) as [cel|e]; simpl; [|done].
    by destruct (cel_Matched cel).
  - destruct (EvaluateConditionsWithResult _ _) as [cr|e]; simpl; [|done].
    by destruct (cr_Matched cr).
Qed.

(** X9. What a precondition captures is what it binds: after
    [executePrecondition] every captured field of the record is a parameter
    with the same value; captured names are names of capture entries; a
    parameter that no capture entry names is left as it was; and without an
    API call nothing is captured and the parameters are untouched, whatever
    capture entries the precondition declares. *)
Theorem captured_fields_become_params (p : Precondition) (w : World) :
  let run := executePrecondition p w in
  pr_CapturedFields run.1.1 ⊆ Params (execCtx run.2)
  ∧ (∀ k, is_Some (pr_CapturedFields run.1.1 !! k) →
       ∃ c, c ∈ pc_Capture p ∧ cf_Name c = k)
  ∧ (∀ k, (∀ c, c ∈ pc_Capture p → cf_Name c ≠ k) →
       Params (execCtx run.2) !! k = Params (execCtx w) !! k)
  ∧ (pc_APICall p = None →
       pr_CapturedFields run.1.1 = ∅ ∧ Params (execCtx run.2) = Params (execCtx w)).
Proof.
  intros run. subst run. unfold executePrecondition, bind.
  assert (Hpre : Params (execCtx (preamble p w).2) = Params (execCtx w)).
  { unfold preamble, bind, runLogAction, getCtx. simpl. by destruct (pc_Log p). }
  destruct (preamble p w) as [[] wl]. simpl in Hpre.
  destruct (pc_APICall p) as [a|].
  - unfold apiCallStep, bind.
    destruct (executeAPICall_frame a wl) as (Hctx & _ & _).
    destruct (executeAPICall a wl) as [[body|e] wa]; simpl in Hctx.
    + destruct (jsonUnmarshal body) as [data|e]; simpl.
      * destruct (captureFields_bound data (pc_Capture p) (withResponse body (newResult p)) wa)
          as [Hsub Hnames].
        destruct (captureFields_frame data (pc_Capture p) (withResponse body (newResult p)) wa)
          as (_ & _ & _ & _ & _ & _ & Hother).
        destruct (captureFields data (pc_Capture p) (withResponse body (newResult p)) wa)
          as [r2 w2]. simpl in *.
        destruct (finishStep_frame p r2 w2) as [Hcap Hpar].
        destruct (finishStep p r2 w2) as [[r3 err] w3]. simpl in *.
        rewrite Hcap, Hpar. split_and!; [| | |done].
        -- apply Hsub. apply map_empty_subseteq.
        -- intros k Hk. destruct (Hnames k Hk) as [Hin|?]; [|done].
           rewrite lookup_empty in Hin. by destruct Hin.
        -- intros k Hk. destruct (Hother k Hk) as [_ ->]. by rewrite Hctx, Hpre.
      * rewrite Hctx, Hpre. split_and!; try done; [apply map_empty_subseteq|].
        intros k Hk. rewrite lookup_empty in Hk. by destruct Hk.
    + simpl. rewrite Hctx, Hpre. split_and!; try done; [apply map_empty_subseteq|].
      intros k Hk. rewrite lookup_empty in Hk. by destruct Hk.
  - change (ret (newResult p, @None error) wl) with ((newResult p, @None error), wl).
    cbv beta iota zeta.
    destruct (finishStep_frame p (newResult p) wl) as [Hcap Hpar].
    destruct (finishStep p (newResult p) wl) as [[r3 err] w3]. simpl in *.
    rewrite Hcap, Hpar, Hpre. split_and!; try done; [apply map_empty_subseteq|].
    intros k Hk. rewrite lookup_empty in Hk. by destruct Hk.
Qed.

(** The capture loop and step 3 leave the response fields of the record. *)
Lemma captureFields_response (data : gmap string Value) (cs : list CaptureField) :
  ∀ (r : PreconditionResult) (w : World),
    pr_APICallMade (captureFields data cs r w).1 = pr_APICallMade r
    ∧ pr_APIResponse (captureFields data cs r w).1 = pr_APIResponse r.
Proof.
  induction cs as [|c cs IH]; intros r w; simpl; [done|].
  destruct (captureFieldFromData data (cf_Field c)); unfold bind; simpl;
    (split; (etrans; [apply IH|done])).
Qed.

(** Step 3 leaves them too; its errors are those of the evaluation. *)
Lemma finishStep_response (p : Precondition) (r : PreconditionResult) (w : World) :
  pr_APICallMade (finishStep p r w).1.1 = pr_APICallMade r
  ∧ pr_APIResponse (finishStep p r w).1.1 = pr_APIResponse r
  ∧ ∀ e, (finishStep p r w).1.2 = Some e →
      ∃ msg cause, e = ExecutorError PhasePreconditions (pc_Name p) msg (Some cause)
                   ∧ msg ≠ "API call failed".
Proof.
  unfold finishStep, evaluateStep, bind, getCtx, logOutcome. simpl.
  destruct (pc_Conditions p) as [|c cs].
  - destruct (String.eqb (pc_Expression p) ""); simpl; [done|].
    destruct (EvaluateCEL _ _) as [cel|e]; simpl.
    + by destruct (cel_Matched cel).
    + split_and!; try done. intros ? [= <-]. by eexists _, _.
  - destruct (EvaluateConditionsWithResult _ _) as [cr|e]; simpl.
    + by destruct (cr_Matched cr).
    + split_and!; try done. intros ? [= <-]. by eexists _, _.
Qed.

(** X10. In a precondition record [APICallMade] means that the call
    succeeded, not that it was sent: the flag is set exactly when the record
    holds a response body, which requires an API call to be configured; and
    for a precondition with an API call, the call is always sent, once, and
    the flag is unset exactly when that call failed, the step then returning
    the error "API call failed" around the error of the record. *)
Theorem precondition_call_flag (p : Precondition) (w : World) :
  let run := executePrecondition p w in
  (pr_APICallMade run.1.1 = true ↔ is_Some (pr_APIResponse run.1.1))
  ∧ (pr_APICallMade run.1.1 = true → is_Some (pc_APICall p))
  ∧ (∀ a, pc_APICall p = Some a →
       apiCalls run.2 = apiCalls w ++ [a]
       ∧ (pr_APICallMade run.1.1 = false
          ↔ ∃ cause, run.1.2 = Some (ExecutorError PhasePreconditions (pc_Name p)
                                       "API call failed" (Some cause))
                     ∧ pr_Error run.1.1 = Some cause)).
Proof.
  intros run. subst run. unfold executePrecondition, bind.
  assert (Hpre : apiCalls (preamble p w).2 = apiCalls w).
  { unfold preamble, bind, runLogAction, getCtx. simpl. by destruct (pc_Log p). }
  destruct (preamble p w) as [[] wl]. simpl in Hpre.
  destruct (pc_APICall p) as [a|].
  - unfold apiCallStep, executeAPICall, sendAPICall, bind.
    destruct (ExecuteAPICall a (execCtx wl) (apiCalls wl)) as [[resp url] err].
    destruct (ValidateAPIResponse resp err (ac_Method a) url) as [verr|]; simpl.
    + split; [split; [done|by intros [? ?]]|]. split; [done|].
      intros a' [= <-]. split; [by rewrite Hpre|]. split; [by eexists|done].
    + destruct (jsonUnmarshal _) as [data|jerr]; simpl.
      * set (r1 := withResponse _ _). set (w1 := {| execCtx := execCtx wl |}).
        destruct (captureFields_response data (pc_Capture p) r1 w1) as [Hm Hr].
        destruct (captureFields_frame data (pc_Capture p) r1 w1)
          as (_ & _ & Ha & _).
        destruct (captureFields data (pc_Capture p) r1 w1) as [r2 w2]. simpl in *.
        destruct (finishStep_response p r2 w2) as (Hm' & Hr' & He').
        assert (Ha' : apiCalls (finishStep p r2 w2).2 = apiCalls w2).
        { unfold finishStep, evaluateStep, bind, getCtx, logOutcome. simpl.
          destruct (pc_Conditions p) as [|c cs].
          - destruct (String.eqb (pc_Expression p) ""); simpl; [done|].
            destruct (EvaluateCEL _ _) as [cel|e]; simpl; [|done].
            by destruct (cel_Matched cel).
          - destruct (EvaluateConditionsWithResult _ _) as [cr|e]; simpl; [|done].
            by destruct (cr_Matched cr). }
        destruct (finishStep p r2 w2) as [[r3 e3] w3]. simpl in *.
        rewrite Hm', Hr', Hm, Hr, Ha', Ha, Hpre.
        split; [split; [by eexists|done]|]. split; [by eexists|].
        intros a' [= <-]. split; [done|]. split; [done|].
        intros (cause & -> & _). destruct (He' _ eq_refl) as (msg & cause' & [= <- <-] & Hne).
        done.
      * split; [split; [by eexists|done]|]. split; [by eexists|].
        intros a' [= <-]. split; [by rewrite Hpre|]. split; [done|].
        by intros (cause & [= ?] & _).
  - change (ret (newResult p, @None error) wl) with ((newResult p, @None error), wl).
    cbv beta iota zeta.
    destruct (finishStep_response p (newResult p) wl) as (Hm' & Hr' & _).
    destruct (finishStep p (newResult p) wl) as [[r3 e3] w3]. simpl in *.
    rewrite Hm', Hr'. split; [split; [done|by intros [? ?]]|]. by split.
Qed.

End PreconditionInvariants.

Lemma condition_details_cover_unmatched_only_witness :
  @PreconditionExecutor.formatConditionDetails Demo.externals
    (withConditionResults
       [Demo.evalCondition {[ "status" := VStr "ready" ]}
          {| cd_Field := "status"; cd_Operator := "equals"; cd_Value := VStr "ready" |}]
       (PreconditionExecutor.newResult (Demo.bare "A")))
    = "no specific details available".
Proof.
  apply (proj2 (proj2 (@condition_details_cover_unmatched_only Demo.externals _)));
    [done | by repeat constructor].
Defined.

(** ** Invariants of the post-action executor *)

Section PostActionInvariants.
Context `{!Externals}.
Import PostActionExecutor.

(** What a single post-action leaves behind. *)
Lemma executePostAction_spec (a : PostAction) (w : World) :
  let run := executePostAction a w in
  par_Name run.1.1 = pa_Name a
  ∧ apiCalls run.2 = apiCalls w ++ option_list (pa_APICall a)
  ∧ execCtx run.2 = execCtx w
  ∧ match run.1.2 with
    | None => succeeded run.1.1
    | Some e =>
        par_Status run.1.1 = StatusFailed
        ∧ par_APICallMade run.1.1 = true
        ∧ is_Some (pa_APICall a)
        ∧ ∃ context verr,
            e = ExecutorError PhasePostActions (pa_Name a) context (Some verr)
            ∧ par_Error run.1.1 = Some verr
    end.
Proof.
  intros run. subst run.
  unfold executePostAction, preamble, executeAPICall, sendAPICall, runLogAction, bind.
  simpl.
  destruct (pa_APICall a) as [c|]; simpl.
  - destruct (pa_Log a); simpl.
    + destruct (ExecuteAPICall c _ _) as [[resp url] err].
      destruct (ValidateAPIResponse resp err (ac_Method c) url); simpl.
      * split_and!; try done; [by destruct resp ..|].
        eexists _, _. split; [by destruct resp|done].
      * split_and!; try done; by destruct resp.
    + destruct (ExecuteAPICall c _ _) as [[resp url] err].
      destruct (ValidateAPIResponse resp err (ac_Method c) url); simpl.
      * split_and!; try done; [by destruct resp ..|].
        eexists _, _. split; [by destruct resp|done].
      * split_and!; try done; by destruct resp.
  - destruct (pa_Log a); simpl; split_and!; try done; by rewrite app_nil_r.
Qed.

Lemma actionsLoop_cons (a : PostAction) (rest : list PostAction)
    (acc : list PostActionResult) (w : World) :
  actionsLoop (a :: rest) acc w =
    let run := executePostAction a w in
    match run.1.2 with
    | Some e =>
        ((acc ++ [run.1.1], Some e),
         ((logAt LevelError ("Post action '" +:+ pa_Name a +:+ "' failed: " +:+ errorString e) ;;
           setExecutionError {| ee_Phase := PhasePostActions; ee_Step := pa_Name a;
                                ee_Message := errorString e |}) run.2).2)
    | None => actionsLoop rest (acc ++ [run.1.1]) run.2
    end.
Proof.
  simpl. unfold bind at 1. by destruct (executePostAction a w) as [[r [e|]] w1].
Qed.

(** The loop over the post-actions, from any accumulator. *)
Lemma actionsLoop_spec (actions : list PostAction) :
  ∀ (acc : list PostActionResult) (w : World),
    let run := actionsLoop actions acc w in
    ∃ more,
      run.1.1 = acc ++ more
      ∧ length more ≤ length actions
      ∧ par_Name <$> more = pa_Name <$> take (length more) actions
      ∧ apiCalls run.2 = apiCalls w ++ omap pa_APICall (take (length more) actions)
      ∧ Params (execCtx run.2) = Params (execCtx w)
      ∧ match run.1.2 with
        | None => length more = length actions ∧ Forall succeeded more
        | Some e =>
            ∃ front last context verr,
              more = front ++ [last]
              ∧ Forall succeeded front
              ∧ par_Status last = StatusFailed
              ∧ par_Error last = Some verr
              ∧ e = ExecutorError PhasePostActions (par_Name last) context (Some verr)
              ∧ recordedError run.2 =
                  Some {| ee_Phase := PhasePostActions; ee_Step := par_Name last;
                          ee_Message := errorString e |}
        end.
Proof.
  induction actions as [|a actions IH]; intros acc w.
  - exists []. simpl. rewrite !app_nil_r. by split_and!.
  - cbv zeta. rewrite actionsLoop_cons. cbv zeta.
    destruct (executePostAction_spec a w) as (Hn & Ha & Hctx & Hcase).
    destruct (executePostAction a w) as [[r [e|]] w1]; simpl in *.
    + destruct Hcase as (Hs & _ & _ & context & verr & -> & He).
      exists [r]. simpl. split; [done|]. split; [lia|]. split; [by rewrite Hn|].
      split; [rewrite Ha; by destruct (pa_APICall a)|]. split; [by rewrite Hctx|].
      exists [], r, context, verr. rewrite Hn. by split_and!.
    + destruct (IH (acc ++ [r]) w1) as (more & Hres & Hlen & Hnames & Hcalls & Hpar & Hout).
      exists (r :: more). simpl.
      split_and!; [by rewrite Hres, <- app_assoc | lia | by f_equal | | by rewrite Hpar, Hctx |].
      * rewrite Hcalls, Ha, <- app_assoc. by destruct (pa_APICall a).
      * destruct (actionsLoop actions (acc ++ [r]) w1).1.2 as [e|].
        -- destruct Hout as (front & last & context & verr & -> & Hf & Hrest).
           exists (r :: front), last, context, verr. split_and!; try apply Hrest; [done|].
           by constructor.
        -- destruct Hout as [Hl Hall]. split; [by rewrite Hl|]. by constructor.
Qed.

(** Building the payloads sends no API call and touches nothing of the
    context but the parameters. *)
Lemma buildPayloadsLoop_frame (vars : gmap string Value) (payloads : list Payload) :
  ∀ w, apiCalls (buildPayloadsLoop vars payloads w).2 = apiCalls w.
Proof.
  induction payloads as [|p ps IH]; intros w; simpl; [done|].
  destruct (buildDefOf p) as [def|]; [|done].
  unfold bind, getCtx. simpl.
  destruct (buildPayload def vars (Params (execCtx w))) as [[v|e] entries]; simpl; [|done].
  destruct (jsonMarshal v); simpl; [|done]. by rewrite IH.
Qed.

(** X11. The records of the post-actions phase are those of a prefix of the
    declared post-actions, one per action and in declaration order, and the
    calls sent during the phase are exactly the API calls of that prefix, in
    order: building the payloads sends nothing, and neither does an action
    after the one that failed. *)
Theorem post_actions_run_in_order (postConfig : option PostConfig) (w : World) :
  let run := ExecuteAll postConfig w in
  let n := length run.1.1 in
  n ≤ length (declaredActions postConfig)
  ∧ par_Name <$> run.1.1 = pa_Name <$> take n (declaredActions postConfig)
  ∧ apiCalls run.2 = apiCalls w ++ omap pa_APICall (take n (declaredActions postConfig)).
Proof.
  destruct postConfig as [pc|]; simpl.
  - unfold bind.
    assert (Hb : ∀ w0, apiCalls
               (match Payloads pc with
                | [] => ret None
                | _ :: _ => buildPostPayloads (Payloads pc)
                end w0).2 = apiCalls w0).
    { intros w0. destruct (Payloads pc); [done|].
      unfold buildPostPayloads, bind, getCtx. apply buildPayloadsLoop_frame. }
    specialize (Hb w).
    destruct (match Payloads pc with
              | [] => ret None
              | _ :: _ => buildPostPayloads (Payloads pc)
              end w) as [[e|] w1]; simpl in *.
    + split_and!; [lia | done | by rewrite Hb, app_nil_r].
    + destruct (actionsLoop_spec (PostActions pc) [] w1)
        as (more & Hres & Hlen & Hnames & Hcalls & _).
      simpl in Hres. rewrite Hres. split_and!; [done | done | by rewrite Hcalls, Hb].
  - split_and!; [done | done | by rewrite app_nil_r].
Qed.

(** X12. The outcome of the post-actions phase, classified. Without an
    error every declared action has its record and every record is a
    success. With an error, either the payloads could not be built: there
    is no record, no call was sent, the error is the [ExecutorError] of step
    [build_payloads] and [ExecutionError] records that step with the text of
    the cause; or an action failed: its record is the last one, failed and
    carrying the validation error, the records before it are successes, the
    error is the [ExecutorError] naming the action around that validation
    error, and [ExecutionError] records the action with the text of the
    error returned. *)
Theorem post_actions_outcome_classified (postConfig : option PostConfig) (w : World) :
  let run := ExecuteAll postConfig w in
  match run.1.2 with
  | None =>
      length run.1.1 = length (declaredActions postConfig)
      ∧ Forall succeeded run.1.1
  | Some e =>
      (run.1.1 = []
       ∧ apiCalls run.2 = apiCalls w
       ∧ declaredPayloads postConfig ≠ []
       ∧ ∃ cause,
           e = ExecutorError PhasePostActions "build_payloads"
                 "failed to build post payloads" (Some cause)
           ∧ recordedError run.2 =
               Some {| ee_Phase := PhasePostActions; ee_Step := "build_payloads";
                       ee_Message := errorString cause |})
      ∨ (∃ front last context verr,
           run.1.1 = front ++ [last]
           ∧ Forall succeeded front
           ∧ par_Status last = StatusFailed
           ∧ par_Error last = Some verr
           ∧ e = ExecutorError PhasePostActions (par_Name last) context (Some verr)
           ∧ recordedError run.2 =
               Some {| ee_Phase := PhasePostActions; ee_Step := par_Name last;
                       ee_Message := errorString e |})
  end.
Proof.
  destruct postConfig as [pc|]; simpl; [|done].
  unfold bind.
  assert (Hb : ∀ w0, let b := match Payloads pc with
                               | [] => ret None
                               | _ :: _ => buildPostPayloads (Payloads pc)
                               end w0 in
                      apiCalls b.2 = apiCalls w0 ∧ (is_Some b.1 → Payloads pc ≠ [])).
  { intros w0. destruct (Payloads pc); simpl; [split; [done|by intros [? ?]]|].
    split; [|done]. unfold buildPostPayloads, bind, getCtx. apply buildPayloadsLoop_frame. }
  destruct (Hb w) as [Hcalls Hne].
  destruct (match Payloads pc with
            | [] => ret None
            | _ :: _ => buildPostPayloads (Payloads pc)
            end w) as [[e|] w1]; simpl in *.
  - left. split_and!; try done; [by apply Hne|]. by eexists.
  - destruct (actionsLoop_spec (PostActions pc) [] w1)
      as (more & Hres & _ & _ & _ & _ & Hout).
    simpl in Hres. rewrite Hres.
    destruct (actionsLoop (PostActions pc) [] w1).1.2 as [e|]; [by right | done].
Qed.

(** What the loop of [buildPostPayloads] leaves behind. *)
Lemma buildPayloadsLoop_spec (vars : gmap string Value) (payloads : list Payload) :
  ∀ (w : World),
    let run := buildPayloadsLoop vars payloads w in
    apiCalls run.2 = apiCalls w
    ∧ cluster run.2 = cluster w
    ∧ Adapter (execCtx run.2) = Adapter (execCtx w)
    ∧ (∀ k, (∀ p, p ∈ payloads → pl_Name p ≠ k) →
         Params (execCtx run.2) !! k = Params (execCtx w) !! k)
    ∧ (run.1 = None →
         ∀ p, p ∈ payloads →
           is_Some (buildDefOf p)
           ∧ ∃ json, Params (execCtx run.2) !! pl_Name p = Some (VStr json)).
Proof.
  induction payloads as [|p ps IH]; intros w; simpl.
  - split_and!; try done. by intros _ p ?%elem_of_nil.
  - destruct (buildDefOf p) as [def|] eqn:Hdef; [|by split_and!].
    unfold bind, getCtx. simpl.
    destruct (buildPayload def vars (Params (execCtx w))) as [[v|e] entries]; simpl;
      [|by split_and!].
    destruct (jsonMarshal v) as [json|e]; simpl; [|by split_and!].
    set (w1 := {| execCtx := withParams _ _ |}).
    destruct (IH w1) as (Ha & Hc & Had & Hk & Hok).
    split_and!; try done.
    + intros k Hne. rewrite Hk by (intros p' Hin; apply Hne; by right).
      simpl. rewrite lookup_insert_ne; [done|]. apply Hne. by left.
    + intros Hnone p' [->|Hin]%elem_of_cons; [|by apply Hok].
      split; [by rewrite Hdef|].
      destruct (decide (Exists (fun q => pl_Name q = pl_Name p) ps)) as [Hex|Hnex].
      * apply Exists_exists in Hex as (q & Hq & Hname). rewrite <- Hname.
        by apply Hok.
      * exists json. rewrite Hk.
        -- simpl. by rewrite lookup_insert_eq.
        -- intros q Hq Hname. apply Hnex, Exists_exists. by exists q.
Qed.

(** A successful run of the loop, cut at one of its payloads. *)
Lemma buildPayloadsLoop_split (vars : gmap string Value) (front : list Payload)
    (p : Payload) (back : list Payload) :
  ∀ (w w' : World),
    buildPayloadsLoop vars (front ++ p :: back) w = (None, w') →
    ∃ wi def built entries json,
      buildPayloadsLoop vars front w = (None, wi)
      ∧ buildDefOf p = Some def
      ∧ buildPayload def vars (Params (execCtx wi)) = (Ok built, entries)
      ∧ jsonMarshal built = Ok json
      ∧ buildPayloadsLoop vars back (storePayload (pl_Name p) json entries wi) = (None, w').
Proof.
  induction front as [|f front IH]; intros w w'; simpl.
  - destruct (buildDefOf p) as [def|]; [|done].
    unfold bind, getCtx. simpl.
    destruct (buildPayload def vars (Params (execCtx w))) as [[v|e] entries] eqn:Hb;
      simpl; [|done].
    destruct (jsonMarshal v) as [json|e] eqn:Hj; simpl; [|done].
    intros Hrun. by exists w, def, v, entries, json.
  - destruct (buildDefOf f) as [def|]; [|done].
    unfold bind, getCtx. simpl.
    destruct (buildPayload def vars (Params (execCtx w))) as [[v|e] entries]; simpl; [|done].
    destruct (jsonMarshal v) as [json|e]; simpl; [|done].
    apply IH.
Qed.

(** X13. When [buildPostPayloads] returns no error, every payload had a
    build source, and what its name is bound to is the JSON text of what was
    built: for a payload at any position, the payloads before it were built
    without error, the builder run on its source, with the variables fixed
    at the start and the parameters as the earlier payloads left them,
    returned a value, [json.Marshal] turned that value into a text, and the
    name of the payload is bound to that text at the end unless a later
    payload has the same name. Every payload name is bound to a string; the
    parameters no payload names are as before, and so are the calls sent,
    the cluster and the adapter metadata. *)
Theorem payloads_stored_as_json (payloads : list Payload) (w w' : World) :
  buildPostPayloads payloads w = (None, w') →
  (∀ front p back, payloads = (front ++ p :: back)%list →
     (pl_Build p ≠ VNil ∨ pl_BuildRefContent p ≠ VNil)
     ∧ ∃ wi def built entries json,
         buildPostPayloads front w = (None, wi)
         ∧ buildDefOf p = Some def
         ∧ buildPayload def
             (<["adapter" := adapterMetadataToMap (Adapter (execCtx w))]> (Params (execCtx w)))
             (Params (execCtx wi)) = (Ok built, entries)
         ∧ jsonMarshal built = Ok json
         ∧ ((∀ q, q ∈ back → pl_Name q ≠ pl_Name p) →
              Params (execCtx w') !! pl_Name p = Some (VStr json)))
  ∧ (∀ p, p ∈ payloads → ∃ json, Params (execCtx w') !! pl_Name p = Some (VStr json))
  ∧ (∀ k, (∀ p, p ∈ payloads → pl_Name p ≠ k) →
       Params (execCtx w') !! k = Params (execCtx w) !! k)
  ∧ apiCalls w' = apiCalls w
  ∧ cluster w' = cluster w
  ∧ Adapter (execCtx w') = Adapter (execCtx w).
Proof.
  unfold buildPostPayloads, bind, getCtx. simpl. intros Hrun.
  set (vars := <["adapter" := adapterMetadataToMap (Adapter (execCtx w))]>
                 (Params (execCtx w))) in *.
  destruct (buildPayloadsLoop_spec vars payloads w) as (Ha & Hc & Had & Hk & Hok).
  rewrite Hrun in *. simpl in *. split_and!; try done.
  - intros front p back ->.
    destruct (buildPayloadsLoop_split vars front p back w w' Hrun)
      as (wi & def & built & entries & json & Hfront & Hdef & Hbuilt & Hjson & Hback).
    split.
    { unfold buildDefOf in Hdef.
      destruct (pl_Build p); try (by left). destruct (pl_BuildRefContent p); by right. }
    exists wi, def, built, entries, json. split_and!; try done.
    intros Hlast.
    destruct (buildPayloadsLoop_spec vars back (storePayload (pl_Name p) json entries wi))
      as (_ & _ & _ & Hk' & _).
    rewrite Hback in Hk'. simpl in Hk'. rewrite Hk' by done.
    by rewrite lookup_insert_eq.
  - intros p Hin. by destruct (Hok eq_refl p Hin) as [_ Hjson].
Qed.

End PostActionInvariants.

Lemma payloads_stored_as_json_witness :
  ∃ json,
    @jsonMarshal Demo.externals (pl_Build Fixtures.statusPayload) = Ok json
    ∧ Params (execCtx (@PostActionExecutor.buildPostPayloads Demo.externals
                         [Fixtures.statusPayload] Demo.emptyWorld).2)
        !! "clusterStatusPayload" = Some (VStr json).
Proof.
  edestruct (@payloads_stored_as_json Demo.externals [Fixtures.statusPayload]
               Demo.emptyWorld) as (Hstored & _); [vm_compute; reflexivity|].
  destruct (Hstored [] Fixtures.statusPayload [] eq_refl)
    as (_ & wi & def & built & entries & json & Hfront & Hdef & Hbuilt & Hjson & Hlast).
  exists json. vm_compute in Hfront, Hdef. injection Hfront as <-. injection Hdef as <-.
  vm_compute in Hbuilt. injection Hbuilt as <- <-.
  split; [exact Hjson|]. apply Hlast. by intros q ?%elem_of_nil.
Defined.

(** ** Invariants of the event interpreter *)

Section ExecuteInvariants.
Context `{!Externals}.

(** The finalisation attaches the context it finds and only logs. *)
Lemma finalize_spec (r : ExecutionResult) (w : World) :
  (finalize r w).1 = attachContext (execCtx w) r
  ∧ execCtx (finalize r w).2 = execCtx w
  ∧ apiCalls (finalize r w).2 = apiCalls w
  ∧ cluster (finalize r w).2 = cluster w.
Proof.
  unfold finalize, bind, getCtx. simpl.
  destruct (isSuccess (Status r)); [destruct (ResourcesSkipped r)|]; done.
Qed.

(** The result of phases 2 and 3 on a fresh result, by the outcome of the
    preconditions. *)
Lemma earlierPhases_cases (config : AdapterConfig) (e : Event) (w1 : World) :
  let r0 := setPhase PhaseParamExtraction (initResult e) in
  let pre := PreconditionExecutor.ExecuteAll (spec_Preconditions config)
               (announceParams w1).2 in
  let r1 := setPreconditionResults (po_Results pre.1) (setPhase PhasePreconditions r0) in
  let before := earlierPhases config r0 w1 in
  match po_Error pre.1 with
  | Some err =>
      before =
        (setPhase PhaseResources (setFailed err "precondition evaluation failed" r1),
         ((modifyCtx (SetError "PreconditionFailed" (errorString err)) ;;
           logAt LevelError ("Precondition execution failed: " +:+ errorString err) ;;
           logAt LevelInfo "Resources skipped due to previous error") pre.2).2)
  | None =>
      if po_AllMatched pre.1 then
        before =
          resourcesPhase config r1
            (logAt LevelInfo ("Preconditions completed: "
                               +:+ pretty (length (po_Results pre.1))
                               +:+ " preconditions evaluated") pre.2).2
      else
        po_NotMetReason pre.1 ≠ ""
        ∧ before =
            (setPhase PhaseResources (setSkipped (po_NotMetReason pre.1) r1),
             ((modifyCtx (SetSkipped "PreconditionNotMet" (po_NotMetReason pre.1)) ;;
               logAt LevelInfo ("Preconditions not met, resources will be skipped: "
                                 +:+ po_NotMetReason pre.1) ;;
               logAt LevelInfo ("Resources skipped: " +:+ po_NotMetReason pre.1)) pre.2).2)
  end.
Proof.
  intros r0 pre r1 before. subst before. unfold earlierPhases.
  rewrite (bind_run announceParams _ w1 (announceParams w1).2 tt)
    by (by destruct (announceParams w1) as [[] ?]).
  assert (Hpre : PreconditionExecutor.ExecuteAll (spec_Preconditions config)
                   (announceParams w1).2 = (pre.1, pre.2)) by apply surjective_pairing.
  destruct (po_Error pre.1) as [err|] eqn:Herr.
  - rewrite (bind_run _ _ _ _ _ (preconditionsPhase_failed config _ _ _ _ _ Hpre Herr)).
    by rewrite resourcesPhase_skipped.
  - destruct (po_AllMatched pre.1) eqn:Hall.
    + by rewrite (bind_run _ _ _ _ _ (preconditionsPhase_matched config _ _ _ _ Hpre Herr Hall)).
    + split.
      * pose proof (executeLoop_not_met (spec_Preconditions config) [] (announceParams w1).2)
          as Hnm.
        unfold PreconditionExecutor.ExecuteAll in Hpre. rewrite Hpre in Hnm. simpl in Hnm.
        destruct (Hnm Herr Hall) as (p & r & _ & _ & ->). done.
      * rewrite (bind_run _ _ _ _ _
                   (preconditionsPhase_not_met config _ _ _ _ Hpre Herr Hall)).
        by rewrite resourcesPhase_skipped.
Qed.

(** Phases 2 and 3 leave a coherent result that still carries the event id. *)
Lemma earlierPhases_coherent (config : AdapterConfig) (e : Event) (w1 : World) :
  let before := earlierPhases config (setPhase PhaseParamExtraction (initResult e)) w1 in
  coherent before.1 ∧ EventID before.1 = evt_ID e.
Proof.
  pose proof (earlierPhases_cases config e w1) as Hc. cbv zeta in *.
  destruct (po_Error _).
  - rewrite Hc. unfold coherent. simpl. by split_and!.
  - destruct (po_AllMatched _).
    + rewrite Hc. unfold resourcesPhase, bind. simpl.
      destruct (resourceExecuteAll _ _) as [[rs [rerr|]] w3]; unfold coherent; simpl;
        by split_and!.
    + destruct Hc as [Hne ->]. unfold coherent. simpl. by split_and!.
Qed.

(** Phase 4 and the finalisation keep a result coherent. *)
Lemma lastPhases_coherent (config : AdapterConfig) (r : ExecutionResult) (w : World) :
  coherent r → coherent (lastPhases config r w).1.
Proof.
  intros (H1 & H2 & H3 & H4).
  destruct (lastPhases_spec config r w)
    as (_ & _ & Hrr & Hrs & Hsr & _ & _ & _ & _ & Hst).
  unfold coherent. rewrite Hrr, Hrs, Hsr.
  destruct (PostActionExecutor.ExecuteAll _ _).1.2 as [err|].
  - destruct Hst as (-> & -> & ->). by split_and!.
  - destruct Hst as (-> & -> & ->). by split_and!.
Qed.

(** X14. Whatever the event and the configuration, the result of [Execute]
    is coherent: its status is success exactly when it carries no error, and
    exactly when its error reason is empty; it is marked [ResourcesSkipped]
    exactly when it carries a skip reason; and a result marked
    [ResourcesSkipped] holds no resource record. *)
Theorem Execute_result_coherent (config : AdapterConfig) (evt : option Event) (w : World) :
  coherent (Execute config evt w).1.
Proof.
  unfold Execute. destruct evt as [e|]; [|unfold coherent; simpl; by split_and!].
  destruct (parseEventData (Some e)) as [data|perr];
    [|unfold coherent; simpl; by split_and!].
  unfold bind at 1. destruct (beginExecution e data w) as [[] w0].
  unfold bind at 1. destruct (executeParamExtraction config w0) as [[xerr|] w1].
  - unfold finishWithError, bind, getCtx, coherent. simpl. by split_and!.
  - rewrite laterPhases_split. apply lastPhases_coherent, earlierPhases_coherent.
Qed.

(** The last phases attach the context they end in. *)
Lemma lastPhases_context (config : AdapterConfig) (r : ExecutionResult) (w : World) :
  let run := lastPhases config r w in
  EventID run.1 = EventID r
  ∧ PreconditionResults run.1 = PreconditionResults r
  ∧ ResultContext run.1 = Some (execCtx run.2)
  ∧ ResultParams run.1 = Params (execCtx run.2).
Proof.
  intros run. subst run. unfold lastPhases, bind.
  destruct (postActionsPhase config r w) as [r4 w4] eqn:Hpost.
  destruct (finalize_spec r4 w4) as (-> & -> & _). simpl.
  revert Hpost. unfold postActionsPhase, bind.
  destruct (PostActionExecutor.ExecuteAll _ _) as [[rs [perr|]] w5]; simpl;
    by intros [= <- _].
Qed.

(** The answer of the handler, read off the result of [Execute]. *)
Lemma CreateHandler_answer (config : AdapterConfig) (evt : option Event) (w : World) :
  (CreateHandler config evt w).1 =
    match Status (Execute config evt w).1 with
    | StatusFailed =>
        match Phase (Execute config evt w).1 with
        | PhaseParamExtraction => None
        | _ => Error (Execute config evt w).1
        end
    | StatusSuccess => None
    end.
Proof.
  unfold CreateHandler, bind. destruct (Execute config evt w) as [r w']. simpl.
  destruct (Status r); [done|]. by destruct (Phase r).
Qed.

(** X15. The phase a result reports is never that of the preconditions or
    of the resources. It is empty only for a nil event, which leaves the
    world alone and which the handler answers with an error. It is
    [PhaseParamExtraction] only when the event data did not parse (the
    world is then left alone) or the parameter extraction returned an error
    (which the result reports): the result is failed and has no
    precondition, resource or post-action record, no API call has been sent,
    the cluster is untouched, and the handler acknowledges the event. It is
    [PhasePostActions] only for an event that parsed and whose parameters
    were extracted, whichever phase failed afterwards; the result then
    carries the event id and the final context, its parameters being those
    of that context. *)
Theorem Execute_reported_phase (config : AdapterConfig) (evt : option Event) (w : World) :
  let run := Execute config evt w in
  match Phase run.1 with
  | PhaseNone => evt = None ∧ run.2 = w ∧ is_Some (CreateHandler config evt w).1
  | PhaseParamExtraction =>
      Status run.1 = StatusFailed
      ∧ apiCalls run.2 = apiCalls w
      ∧ cluster run.2 = cluster w
      ∧ PreconditionResults run.1 = []
      ∧ ResourceResults run.1 = []
      ∧ PostActionResults run.1 = []
      ∧ (CreateHandler config evt w).1 = None
      ∧ ((∃ perr, parseEventData evt = Err perr ∧ run.2 = w)
         ∨ (∃ e data xerr,
              evt = Some e ∧ parseEventData evt = Ok data
              ∧ ((beginExecution e data ;; executeParamExtraction config) w).1 = Some xerr
              ∧ Error run.1 = Some xerr))
  | PhasePostActions =>
      ∃ e data,
        evt = Some e
        ∧ parseEventData evt = Ok data
        ∧ ((beginExecution e data ;; executeParamExtraction config) w).1 = None
        ∧ EventID run.1 = evt_ID e
        ∧ ResultContext run.1 = Some (execCtx run.2)
        ∧ ResultParams run.1 = Params (execCtx run.2)
  | PhasePreconditions | PhaseResources => False
  end.
Proof.
  intros run. subst run. rewrite CreateHandler_answer.
  destruct evt as [e|]; [|simpl; split_and!; try done; by eexists].
  destruct (parseEventData (Some e)) as [data|perr] eqn:Hparse.
  2:{ unfold Execute. rewrite Hparse. simpl. split_and!; try done. left. by eexists. }
  destruct ((beginExecution e data ;; executeParamExtraction config) w)
    as [[xerr|] w1] eqn:Hext.
  - pose proof (cluster_extraction config e data w) as Hcl.
    pose proof (apiCalls_extraction config e data w) as Hca.
    rewrite Hext in Hcl, Hca.
    rewrite (Execute_extraction_failed config e data w w1 xerr Hparse Hext).
    unfold finishWithError, bind, getCtx. simpl. split_and!; try done.
    right. exists e, data, xerr. split_and!; try done.
    change (((beginExecution e data ;; executeParamExtraction config) w).1 = Some xerr).
    by rewrite Hext.
  - rewrite (Execute_extracted config e data w w1 Hparse Hext), laterPhases_split.
    set (before := earlierPhases config _ w1).
    destruct (lastPhases_spec config before.1 before.2) as (Hph & _).
    destruct (lastPhases_context config before.1 before.2) as (Hid & _ & Hctx & Hpar).
    rewrite Hph. exists e, data. rewrite Hext. split_and!; try done.
    rewrite Hid. apply earlierPhases_coherent.
Qed.

(** X16. When the preconditions phase returns an error, no resource step
    runs: the result has no resource record, is not marked as skipped, and
    the cluster is as it was when the event arrived; the result is failed and
    keeps the precondition records; the post-actions phase still runs, on the
    context on which the failure was reported, its records and calls ending
    up in the result; unless that phase fails too, the result reports the
    precondition error; and the handler returns an error, so the event is
    not acknowledged. *)
Theorem hard_failure_skips_resources (config : AdapterConfig) (e : Event)
    (data : gmap string Value) (w w1 : World) (err : error) :
  parseEventData (Some e) = Ok data →
  (beginExecution e data ;; executeParamExtraction config) w = (None, w1) →
  let pre := PreconditionExecutor.ExecuteAll (spec_Preconditions config)
               (announceParams w1).2 in
  po_Error pre.1 = Some err →
  let run := Execute config (Some e) w in
  let reported :=
    (modifyCtx (SetError "PreconditionFailed" (errorString err)) ;;
     logAt LevelError ("Precondition execution failed: " +:+ errorString err) ;;
     logAt LevelInfo "Resources skipped due to previous error") pre.2 in
  let post := PostActionExecutor.ExecuteAll (spec_Post config) reported.2 in
  ResourceResults run.1 = []
  ∧ cluster run.2 = cluster w
  ∧ ResourcesSkipped run.1 = false
  ∧ Status run.1 = StatusFailed
  ∧ PreconditionResults run.1 = po_Results pre.1
  ∧ PostActionResults run.1 = post.1.1
  ∧ apiCalls run.2 = apiCalls post.2
  ∧ (post.1.2 = None →
       Error run.1 = Some err ∧ ErrorReason run.1 = "precondition evaluation failed")
  ∧ is_Some (CreateHandler config (Some e) w).1.
Proof.
  intros Hparse Hext pre Herr run reported post.
  pose proof (earlierPhases_cases config e w1) as Hc. cbv zeta in Hc.
  fold pre in Hc. rewrite Herr in Hc. fold reported in Hc.
  assert (Hcl : cluster reported.2 = cluster w).
  { pose proof (cluster_extraction config e data w) as H1. rewrite Hext in H1.
    pose proof (cluster_pre_ExecuteAll (spec_Preconditions config) (announceParams w1).2)
      as H2. fold pre in H2. simpl in H1, H2. unfold reported. simpl. congruence. }
  pose proof (cluster_post_ExecuteAll (spec_Post config) reported.2) as Hpc.
  fold post in Hpc.
  assert (Hfailed : Status run.1 = StatusFailed ∧ Phase run.1 = PhasePostActions
            ∧ ResourceResults run.1 = [] ∧ ResourcesSkipped run.1 = false
            ∧ PreconditionResults run.1 = po_Results pre.1
            ∧ PostActionResults run.1 = post.1.1
            ∧ apiCalls run.2 = apiCalls post.2
            ∧ cluster run.2 = cluster post.2
            ∧ (post.1.2 = None →
                 Error run.1 = Some err
                 ∧ ErrorReason run.1 = "precondition evaluation failed")).
  { subst run. rewrite (Execute_extracted config e data w w1 Hparse Hext).
    rewrite laterPhases_split, Hc.
    change (?a, ?b).1 with a. change (?a, ?b).2 with b.
    set (r3 := setPhase PhaseResources _).
    destruct (lastPhases_spec config r3 reported.2)
      as (Hph & Hpa & Hrr & Hrs & _ & _ & Hcalls & Hclu & _ & Hst).
    destruct (lastPhases_context config r3 reported.2) as (_ & Hpr & _).
    fold post in Hpa, Hcalls, Hclu, Hst.
    set (lp := lastPhases config r3 reported.2) in *. clearbody lp.
    split_and!; try done.
    - destruct (post.1.2); by destruct Hst as (-> & _).
    - intros Hnone. rewrite Hnone in Hst. by destruct Hst as (_ & -> & ->). }
  destruct Hfailed as (Hs & Hph & Hrr & Hrs & Hpr & Hpa & Hca & Hclu & Herrs).
  split_and!; try done; [by rewrite Hclu, Hpc|].
  rewrite CreateHandler_answer. fold run. rewrite Hs, Hph.
  by apply (Execute_failed_has_error config (Some e) w run.2 run.1);
    [apply surjective_pairing|].
Qed.

(** X17. When every precondition matched, the resource executor runs on
    the declared resources in the world the preconditions left (one log line
    later): its records are those of the result and the cluster it leaves is
    the cluster at the end of the event, the later phases not touching it.
    The post-actions phase runs whatever the resource executor returned. If
    it returned an error the result is failed, reports that error unless the
    post-actions fail too, and the handler returns an error; if not, the
    result is a success exactly when the post-actions phase succeeds. *)
Theorem resources_applied_when_matched (config : AdapterConfig) (e : Event)
    (data : gmap string Value) (w w1 : World) :
  parseEventData (Some e) = Ok data →
  (beginExecution e data ;; executeParamExtraction config) w = (None, w1) →
  let pre := PreconditionExecutor.ExecuteAll (spec_Preconditions config)
               (announceParams w1).2 in
  po_Error pre.1 = None →
  po_AllMatched pre.1 = true →
  let run := Execute config (Some e) w in
  let ready := logAt LevelInfo ("Preconditions completed: "
                                 +:+ pretty (length (po_Results pre.1))
                                 +:+ " preconditions evaluated") pre.2 in
  let applied := resourceExecuteAll (spec_Resources config) ready.2 in
  ResourceResults run.1 = applied.1.1
  ∧ cluster run.2 = cluster applied.2
  ∧ ResourcesSkipped run.1 = false
  ∧ PreconditionResults run.1 = po_Results pre.1
  ∧ (∃ wp, cluster wp = cluster applied.2
           ∧ PostActionResults run.1 =
               (PostActionExecutor.ExecuteAll (spec_Post config) wp).1.1
           ∧ match applied.1.2 with
             | Some rerr =>
                 Status run.1 = StatusFailed
                 ∧ ((PostActionExecutor.ExecuteAll (spec_Post config) wp).1.2 = None →
                      Error run.1 = Some rerr
                      ∧ ErrorReason run.1 = "resource execution failed")
             | None =>
                 Status run.1 = StatusSuccess
                 ↔ (PostActionExecutor.ExecuteAll (spec_Post config) wp).1.2 = None
             end)
  ∧ (is_Some applied.1.2 → is_Some (CreateHandler config (Some e) w).1).
Proof.
  intros Hparse Hext pre Herr Hall run ready applied.
  pose proof (earlierPhases_cases config e w1) as Hc. cbv zeta in Hc.
  fold pre in Hc. rewrite Herr, Hall in Hc. fold ready in Hc.
  assert (Hbefore : ∃ r3 wp,
            earlierPhases config (setPhase PhaseParamExtraction (initResult e)) w1 = (r3, wp)
            ∧ cluster wp = cluster applied.2
            ∧ ResourceResults r3 = applied.1.1
            ∧ ResourcesSkipped r3 = false
            ∧ PreconditionResults r3 = po_Results pre.1
            ∧ match applied.1.2 with
              | Some rerr => Status r3 = StatusFailed ∧ Error r3 = Some rerr
                             ∧ ErrorReason r3 = "resource execution failed"
              | None => Status r3 = StatusSuccess
              end).
  { rewrite Hc. subst applied ready. unfold resourcesPhase, bind. simpl.
    destruct (resourceExecuteAll _ _) as [[rs [rerr|]] w3]; simpl; eexists _, _;
      by split_and!. }
  destruct Hbefore as (r3 & wp & Hbefore & Hclw & Hrr & Hrs & Hpr & Hst3).
  pose proof (cluster_post_ExecuteAll (spec_Post config) wp) as Hpc.
  assert (Hrun : run = lastPhases config r3 wp).
  { subst run. rewrite (Execute_extracted config e data w w1 Hparse Hext).
    by rewrite laterPhases_split, Hbefore. }
  destruct (lastPhases_spec config r3 wp)
    as (Hph & Hpa & Hrr' & Hrs' & _ & _ & _ & Hclu & _ & Hst).
  destruct (lastPhases_context config r3 wp) as (_ & Hpr' & _).
  rewrite <- Hrun in *. clear Hrun.
  assert (Hfailed : is_Some applied.1.2 → Status run.1 = StatusFailed).
  { intros [rerr Hsome]. rewrite Hsome in Hst3. destruct Hst3 as (Hs3 & _).
    destruct (PostActionExecutor.ExecuteAll (spec_Post config) wp).1.2;
      destruct Hst as (-> & _); done. }
  split; [by rewrite Hrr'|]. split; [by rewrite Hclu, Hpc|]. split; [by rewrite Hrs'|].
  split; [by rewrite Hpr'|]. split.
  - exists wp. split; [done|]. split; [done|].
    destruct applied.1.2 as [rerr|].
    + split; [apply Hfailed; by eexists|]. intros Hnone. rewrite Hnone in Hst.
      destruct Hst3 as (_ & He3 & Hr3). by destruct Hst as (_ & -> & ->).
    + destruct (PostActionExecutor.ExecuteAll (spec_Post config) wp).1.2;
        destruct Hst as (-> & _); rewrite ?Hst3; done.
  - intros Hsome. rewrite CreateHandler_answer. fold run.
    rewrite (Hfailed Hsome), Hph.
    by apply (Execute_failed_has_error config (Some e) w run.2 run.1);
      [apply surjective_pairing | apply Hfailed].
Qed.

(** The record a failed preconditions phase leaves: the phase ends with the
    failed record of the precondition the error names. *)
Lemma ExecuteAll_failure_record (ps : list Precondition) (w : World) :
  let run := PreconditionExecutor.ExecuteAll ps w in
  match po_Error run.1 with
  | None => recordedError run.2 = recordedError w
  | Some e =>
      ∃ front last msg cause,
        po_Results run.1 = front ++ [last]
        ∧ pr_Status last = StatusFailed
        ∧ e = ExecutorError PhasePreconditions (pr_Name last) msg (Some cause)
        ∧ (((msg = "API call failed" ∨ msg = "failed to parse API response")
            ∧ recordedError run.2 =
                Some {| ee_Phase := PhasePreconditions; ee_Step := pr_Name last;
                        ee_Message := errorString cause |})
           ∨ ((msg = "condition evaluation failed"
               ∨ msg = "CEL expression evaluation failed")
              ∧ recordedError run.2 = recordedError w))
  end.
Proof.
  revert w. induction ps as [|p ps IH]; intros w; [done|].
  cbv zeta. rewrite ExecuteAll_cons. cbv zeta.
  destruct (executePrecondition_spec p w) as (Hname & _ & Hcase).
  destruct (PreconditionExecutor.executePrecondition p w) as [[r [e|]] w1]; simpl in *.
  - destruct Hcase as (Hst & _ & _ & msg & cause & -> & Hsite).
    exists [], r, msg, cause. rewrite Hname. split_and!; try done.
    destruct Hsite as [(Hm & _ & Hrec)|Hsite]; [left|right]; done.
  - destruct Hcase as (_ & _ & Hrec).
    destruct (pr_Matched r); simpl; [|done].
    specialize (IH w1). simpl in IH.
    destruct (po_Error (PreconditionExecutor.ExecuteAll ps w1).1) as [e|];
      [|by rewrite IH].
    destruct IH as (front & last & msg & cause & Hres & Hst & -> & Hsite).
    exists (r :: front), last, msg, cause. rewrite Hres. split_and!; try done.
    by rewrite <- Hrec.
Qed.

(** The record a failed post-actions phase leaves. *)
Lemma post_ExecuteAll_failure_record (postConfig : option PostConfig) (w : World) :
  let run := PostActionExecutor.ExecuteAll postConfig w in
  match run.1.2 with
  | None => recordedError run.2 = recordedError w
  | Some e =>
      (run.1.1 = []
       ∧ ∃ cause,
           e = ExecutorError PhasePostActions "build_payloads"
                 "failed to build post payloads" (Some cause)
           ∧ recordedError run.2 =
               Some {| ee_Phase := PhasePostActions; ee_Step := "build_payloads";
                       ee_Message := errorString cause |})
      ∨ (∃ front last,
           run.1.1 = front ++ [last]
           ∧ par_Status last = StatusFailed
           ∧ recordedError run.2 =
               Some {| ee_Phase := PhasePostActions; ee_Step := par_Name last;
                       ee_Message := errorString e |})
  end.
Proof.
  pose proof (post_ExecuteAll_adapter postConfig w) as Had.
  destruct postConfig as [pc|]; simpl in *; [|done].
  revert Had. unfold bind.
  destruct (match Payloads pc with
            | [] => ret None
            | _ :: _ => PostActionExecutor.buildPostPayloads (Payloads pc)
            end w) as [[e|] w1]; simpl.
  - intros _. left. split; [done|]. by eexists.
  - destruct (actionsLoop_spec (PostActions pc) [] w1)
      as (more & Hres & _ & _ & _ & _ & Hout).
    simpl in Hres. rewrite Hres.
    destruct (PostActionExecutor.actionsLoop (PostActions pc) [] w1).1.2 as [e|].
    + intros _. right.
      destruct Hout as (front & last & context & verr & -> & _ & Hst & _ & _ & Hrec).
      by exists front, last.
    + intros Had. unfold recordedError. by rewrite Had.
Qed.

(** C3 (amended). [ExecutionError] is assigned unconditionally at every
    site that records it, so the last recorded failure wins. A preconditions
    phase that fails ends with the failed record of the precondition its
    error names; when the API call failed or the response did not parse, the
    phase has recorded [{preconditions, that name, the text of the cause}],
    and when the evaluation of the conditions or of the CEL expression
    failed it has recorded nothing; [Execute] leaves that record as it is on
    the way to the post-actions. A post-actions phase that fails records
    [{postActions, build_payloads, the text of the cause}] when the payloads
    could not be built and [{postActions, the name of the failed action, the
    text of the error}] otherwise, and that is the record at the end of the
    event: it replaces whatever record the preconditions phase had left.
    When the post-actions phase does not fail, the record at the end of the
    event is the one the earlier phases left. *)
Theorem execution_error_last_failure_wins (config : AdapterConfig) (e : Event)
    (data : gmap string Value) (w w1 w2 : World) (outcome : PreconditionsOutcome) :
  parseEventData (Some e) = Ok data →
  (beginExecution e data ;; executeParamExtraction config) w = (None, w1) →
  (announceParams ;; PreconditionExecutor.ExecuteAll (spec_Preconditions config)) w1
    = (outcome, w2) →
  let run := Execute config (Some e) w in
  let before := earlierPhases config (setPhase PhaseParamExtraction (initResult e)) w1 in
  let post := PostActionExecutor.ExecuteAll (spec_Post config) before.2 in
  match po_Error outcome with
  | Some err =>
      recordedError before.2 = recordedError w2
      ∧ (∃ front last msg cause,
           po_Results outcome = front ++ [last]
           ∧ pr_Status last = StatusFailed
           ∧ err = ExecutorError PhasePreconditions (pr_Name last) msg (Some cause)
           ∧ (((msg = "API call failed" ∨ msg = "failed to parse API response")
               ∧ recordedError w2 =
                   Some {| ee_Phase := PhasePreconditions; ee_Step := pr_Name last;
                           ee_Message := errorString cause |})
              ∨ ((msg = "condition evaluation failed"
                  ∨ msg = "CEL expression evaluation failed")
                 ∧ recordedError w2 = recordedError w1)))
      ∧ (post.1.2 = None → ErrorReason run.1 = "precondition evaluation failed")
  | None =>
      recordedError w2 = recordedError w1
      ∧ ErrorReason run.1 ≠ "precondition evaluation failed"
  end
  ∧ match post.1.2 with
    | Some perr =>
        ErrorReason run.1 = "post action execution failed"
        ∧ Error run.1 = Some perr
        ∧ ((PostActionResults run.1 = []
            ∧ ∃ cause,
                perr = ExecutorError PhasePostActions "build_payloads"
                         "failed to build post payloads" (Some cause)
                ∧ recordedError run.2 =
                    Some {| ee_Phase := PhasePostActions; ee_Step := "build_payloads";
                            ee_Message := errorString cause |})
           ∨ (∃ front last,
                PostActionResults run.1 = front ++ [last]
                ∧ par_Status last = StatusFailed
                ∧ recordedError run.2 =
                    Some {| ee_Phase := PhasePostActions; ee_Step := par_Name last;
                            ee_Message := errorString perr |}))
        ∧ (∀ step msg,
             recordedError w2 = Some {| ee_Phase := PhasePreconditions; ee_Step := step;
                                        ee_Message := msg |} →
             recordedError run.2 ≠ recordedError w2)
    | None =>
        ErrorReason run.1 ≠ "post action execution failed"
        ∧ recordedError run.2 = recordedError before.2
    end.
Proof.
  intros Hparse Hext Hpre run before post. subst run.
  rewrite (Execute_extracted config e data w w1 Hparse Hext), laterPhases_split.
  fold before.
  assert (Hpre' : PreconditionExecutor.ExecuteAll (spec_Preconditions config)
                    (announceParams w1).2 = (outcome, w2)).
  { revert Hpre. unfold bind. by destruct (announceParams w1) as [[] w1']. }
  pose proof (ExecuteAll_failure_record (spec_Preconditions config) (announceParams w1).2)
    as Hrec. cbv zeta in Hrec. rewrite Hpre' in Hrec.
  change (outcome, w2).1 with outcome in Hrec. change (outcome, w2).2 with w2 in Hrec.
  assert (Hann : recordedError (announceParams w1).2 = recordedError w1) by done.
  rewrite Hann in Hrec.
  pose proof (earlierPhases_cases config e w1) as Hcases. cbv zeta in Hcases.
  rewrite Hpre' in Hcases.
  change (outcome, w2).1 with outcome in Hcases. change (outcome, w2).2 with w2 in Hcases.
  fold before in Hcases.
  destruct (lastPhases_spec config before.1 before.2)
    as (_ & Hpa & _ & _ & _ & Hctx & _ & _ & _ & Hst).
  pose proof (post_ExecuteAll_failure_record (spec_Post config) before.2) as Hpost.
  cbv zeta in Hpost. fold post in Hpa, Hctx, Hst, Hpost.
  assert (Hrun : recordedError (lastPhases config before.1 before.2).2 = recordedError post.2)
    by (unfold recordedError; by rewrite Hctx).
  assert (Hreason : match po_Error outcome with
                    | Some _ => ErrorReason before.1 = "precondition evaluation failed"
                                ∧ recordedError before.2 = recordedError w2
                    | None => ErrorReason before.1 = ""
                              ∨ ErrorReason before.1 = "resource execution failed"
                    end).
  { destruct (po_Error outcome) as [err|].
    - by rewrite Hcases.
    - destruct (po_AllMatched outcome).
      + rewrite Hcases. unfold resourcesPhase. simpl. unfold bind.
        destruct (resourceExecuteAll _ _) as [[rs [rerr|]] w3]; simpl; [by right|by left].
      + destruct Hcases as [_ ->]. by left. }
  split.
  - destruct (po_Error outcome) as [err|].
    + destruct Hreason as [Hr Hb]. split_and!; try done.
      intros Hnone. rewrite Hnone in Hst. destruct Hst as (_ & _ & ->). done.
    + split; [done|].
      destruct (post.1.2) as [perr|]; destruct Hst as (_ & _ & ->); [done|].
      by destruct Hreason as [-> | ->].
  - destruct (post.1.2) as [perr|].
    + destruct Hst as (_ & Herr & Hr). rewrite Hpa, Hrun. split_and!; try done.
      intros step msg Hw2 Heq. rewrite Hw2 in Heq.
      destruct Hpost as [(_ & cause & _ & Hp)|(front & last & _ & _ & Hp)];
        rewrite Hp in Heq; discriminate.
    + destruct Hst as (_ & _ & Hr). rewrite Hr, Hrun. split; [|done].
      destruct (po_Error outcome); [by destruct Hreason as [-> _]|].
      by destruct Hreason as [-> | ->].
Qed.

End ExecuteInvariants.

Lemma execution_error_last_failure_wins_witness :
  let config := Demo.config [Demo.clusterReady "check" "/down"] (Demo.report "/down") in
  let afterPreconditions :=
    (@beginExecution Demo.eventWithId {[ "id" := VStr "evt" ]} ;;
     @executeParamExtraction Demo.externals config ;;
     announceParams ;;
     @PreconditionExecutor.ExecuteAll Demo.externals (spec_Preconditions config))
      Demo.emptyWorld in
  let run := @Execute Demo.externals config (Some Demo.eventWithId) Demo.emptyWorld in
  ErrorReason run.1 = "post action execution failed"
  ∧ recordedError run.2 ≠ recordedError afterPreconditions.2.
Proof.
  intros config afterPreconditions run.
  edestruct (@execution_error_last_failure_wins Demo.externals config Demo.eventWithId
               {[ "id" := VStr "evt" ]} Demo.emptyWorld)
    as [_ Hpost]; [vm_compute; reflexivity ..|].
  vm_compute in Hpost. destruct Hpost as (Hreason & _ & _ & Hover).
  split; [vm_compute; exact Hreason|].
  vm_compute. apply (Hover "check" "GET /down -> 0: connection refused"). reflexivity.
Defined.

Lemma hard_failure_skips_resources_witness :
  let config := Demo.config [Demo.clusterReady "check" "/down"] (Demo.report "/status") in
  let run := @Execute Demo.externals config (Some Demo.eventWithId) Demo.emptyWorld in
  ResourceResults run.1 = []
  ∧ cluster run.2 = ∅
  ∧ Status run.1 = StatusFailed
  ∧ length (PostActionResults run.1) = 1
  ∧ is_Some (@CreateHandler Demo.externals config (Some Demo.eventWithId) Demo.emptyWorld).1.
Proof.
  intros config run.
  edestruct (@hard_failure_skips_resources Demo.externals config Demo.eventWithId
               {[ "id" := VStr "evt" ]} Demo.emptyWorld)
    as (Hres & Hcl & _ & Hst & _ & Hpost & _ & _ & Hnack); [vm_compute; reflexivity ..|].
  split; [exact Hres|]. split; [exact Hcl|]. split; [exact Hst|]. split; [|exact Hnack].
  unfold run. rewrite Hpost. vm_compute. reflexivity.
Defined.

Lemma resources_applied_when_matched_witness :
  let config := Demo.config [Demo.clusterReady "check" "/clusters/ready-id"]
                  (Demo.report "/status") in
  let run := @Execute Demo.externals config (Some Demo.eventWithId) Demo.emptyWorld in
  length (ResourceResults run.1) = 1
  ∧ cluster run.2 !! "ns" = Some (rs_Manifest Demo.namespaceResource)
  ∧ ResourcesSkipped run.1 = false.
Proof.
  intros config run.
  edestruct (@resources_applied_when_matched Demo.externals config Demo.eventWithId
               {[ "id" := VStr "evt" ]} Demo.emptyWorld)
    as (Hres & Hcl & Hskip & _); [vm_compute; reflexivity ..|].
  split; [unfold run; rewrite Hres; vm_compute; reflexivity|].
  split; [unfold run; rewrite Hcl; vm_compute; reflexivity|exact Hskip].
Defined.

(** ** Construction of the executor *)

Section ConstructionProperties.
Import Construction.
Context {APIClient K8sClient Logger ResourceExecutor : Type}.
Variable NewResourceExecutor : option K8sClient → ResourceExecutor.

(** X19. [NewExecutor] succeeds exactly on a configuration that is not nil
    and holds an adapter configuration, an API client and a logger; the
    Kubernetes client may be nil. The executor it returns keeps the
    configuration, its precondition and post-action executors share the API
    client of the configuration, and its resource executor is made from the
    Kubernetes client. Every error it returns is an [ExecutorError] of the
    parameter-extraction phase with step [init]. *)
Theorem NewExecutor_requirements
    (config : option (@ExecutorConfig APIClient K8sClient Logger)) :
  ((∃ ex, NewExecutor NewResourceExecutor config = Ok ex)
   ↔ ∃ c, config = Some c ∧ is_Some (cfg_AdapterConfig c)
          ∧ is_Some (cfg_APIClient c) ∧ is_Some (cfg_Logger c))
  ∧ (∀ ex, NewExecutor NewResourceExecutor config = Ok ex →
       Some (ex_config ex) = config
       ∧ pe_apiClient (ex_precondExecutor ex) = cfg_APIClient (ex_config ex)
       ∧ pae_apiClient (ex_postActionExecutor ex) = cfg_APIClient (ex_config ex)
       ∧ ex_resourceExecutor ex = NewResourceExecutor (cfg_K8sClient (ex_config ex)))
  ∧ (∀ err, NewExecutor NewResourceExecutor config = Err err →
       ∃ message, err = ExecutorError PhaseParamExtraction "init" message None).
Proof.
  unfold NewExecutor. destruct config as [c|].
  - destruct (cfg_AdapterConfig c) as [ac|] eqn:Hac; [destruct (cfg_APIClient c) as [a|] eqn:Ha;
      [destruct (cfg_Logger c) as [l|] eqn:Hl|]|].
    + split_and!.
      * split; [intros _; exists c; rewrite Hac, Ha, Hl; by split_and! | by eexists].
      * intros ex [= <-]. simpl. by rewrite Ha.
      * done.
    + split_and!; [|done|intros err [= <-]; by eexists].
      split; [by intros [? ?]|]. intros (c' & [= <-] & _ & _ & Hs). rewrite Hl in Hs.
      by destruct Hs.
    + split_and!; [|done|intros err [= <-]; by eexists].
      split; [by intros [? ?]|]. intros (c' & [= <-] & _ & Hs & _). rewrite Ha in Hs.
      by destruct Hs.
    + split_and!; [|done|intros err [= <-]; by eexists].
      split; [by intros [? ?]|]. intros (c' & [= <-] & Hs & _). rewrite Hac in Hs.
      by destruct Hs.
  - split_and!; [|done|intros err [= <-]; by eexists].
    split; [by intros [? ?]|]. by intros (c' & ? & _).
Qed.

Lemma last_snoc_omap {A B} (f : A → option B) (l : list A) (x : A) :
  last (omap f (l ++ [x])) = match f x with Some y => Some y | None => last (omap f l) end.
Proof.
  rewrite omap_app. simpl. destruct (f x); [by rewrite last_snoc | by rewrite app_nil_r].
Qed.

(** The configuration a sequence of setter calls leaves in the builder. *)
Lemma builder_calls_config (calls : list (@BuilderCall APIClient K8sClient Logger)) :
  b_config (foldl applyCall NewBuilder calls) =
    {| cfg_AdapterConfig := lastAdapterConfig calls;
       cfg_APIClient := lastAPIClient calls;
       cfg_K8sClient := lastK8sClient calls;
       cfg_Logger := lastLogger calls |}.
Proof.
  induction calls as [|c calls IH] using rev_ind; [done|].
  rewrite foldl_app. simpl.
  unfold lastAdapterConfig, lastAPIClient, lastK8sClient, lastLogger.
  rewrite !last_snoc_omap.
  destruct c; simpl; rewrite IH; done.
Qed.

(** X20. The builder is insensitive to the order of its setters: after any
    sequence of setter calls on a new builder, [Build] succeeds exactly when
    the last call of [WithAdapterConfig], of [WithAPIClient] and of
    [WithLogger] each exists and passed a value that is not nil, whether or
    not [WithK8sClient] was called; the executor built holds, for each
    field, the argument of the last call that set it. *)
Theorem Build_after_calls (calls : list (@BuilderCall APIClient K8sClient Logger)) :
  let b := foldl applyCall NewBuilder calls in
  ((∃ ex, Build NewResourceExecutor b = Ok ex)
   ↔ is_Some (lastAdapterConfig calls) ∧ is_Some (lastAPIClient calls)
     ∧ is_Some (lastLogger calls))
  ∧ ∀ ex, Build NewResourceExecutor b = Ok ex →
      cfg_AdapterConfig (ex_config ex) = lastAdapterConfig calls
      ∧ pe_apiClient (ex_precondExecutor ex) = lastAPIClient calls
      ∧ pae_apiClient (ex_postActionExecutor ex) = lastAPIClient calls
      ∧ ex_resourceExecutor ex = NewResourceExecutor (lastK8sClient calls)
      ∧ cfg_Logger (ex_config ex) = lastLogger calls.
Proof.
  intros b. subst b. unfold Build, NewExecutor. rewrite builder_calls_config. simpl.
  destruct (lastAdapterConfig calls) as [ac|]; [destruct (lastAPIClient calls) as [a|];
    [destruct (lastLogger calls) as [l|]|]|].
  - split; [split; [intros _; split_and!; by eexists | by eexists]|]. by intros ex [= <-].
  - split; [|done]. split; [by intros [? ?] | by intros (_ & _ & [? ?])].
  - split; [|done]. split; [by intros [? ?] | by intros (_ & [? ?] & _)].
  - split; [|done]. split; [by intros [? ?] | by intros ([? ?] & _)].
Qed.

End ConstructionProperties.

(** ** Induction on values *)

Section ValueInduction.

Lemma vsize_elem (l : list Value) (x : Value) : x ∈ l → vsize x < vsize (VList l).
Proof.
  simpl. induction 1 as [x l|x y l _ IH]; simpl; lia.
Qed.

Lemma vsize_lookup `{Countable K} (m : gmap K Value) (k : K) (x : Value) :
  m !! k = Some x → vsize x ≤ map_fold (fun _ x acc => vsize x + acc) 0 m.
Proof.
  intros Hk. rewrite (map_fold_delete_L _ _ k x m); [lia| |done].
  intros. lia.
Qed.

(** Induction on values, through the sequences and the maps. *)
Lemma Value_nested_ind (P : Value → Prop) :
  P VNil → (∀ b, P (VBool b)) → (∀ n, P (VNum n)) → (∀ s, P (VStr s)) →
  (∀ l, Forall P l → P (VList l)) →
  (∀ m, map_Forall (fun _ => P) m → P (VMap m)) →
  (∀ m, map_Forall (fun _ => P) m → P (VAnyMap m)) →
  ∀ v, P v.
Proof.
  intros Hnil Hbool Hnum Hstr Hlist Hmap Hany v.
  remember (vsize v) as n eqn:Hn. revert v Hn.
  induction n as [n IH] using lt_wf_ind. intros v ->.
  destruct v as [| | | |l|m|m]; try done.
  - apply Hlist. apply Forall_forall. intros x Hx.
    apply (IH (vsize x)); [by apply vsize_elem|done].
  - apply Hmap. intros k x Hk.
    apply (IH (vsize x)); [|done]. simpl. pose proof (vsize_lookup m k x Hk). lia.
  - apply Hany. intros k x Hk.
    apply (IH (vsize x)); [|done]. simpl. pose proof (vsize_lookup m k x Hk). lia.
Qed.

End ValueInduction.

(** ** The payload builder *)

Section PayloadBuilderProperties.
Context `{!Externals, !Rendering}.
Import PayloadBuilder.

(** [processValue] by the shape of the value. *)
Lemma processValue_eq (fuel : nat) (vars params : gmap string Value) (v : Value) :
  processValue fuel vars params v =
    match v with
    | VMap val =>
        match val !! "expression" with
        | Some (VStr expr) => evaluateExpression vars expr
        | _ =>
            match val !! "value" with
            | Some (VStr strVal) => renderValue strVal params
            | Some value => (Ok value, [])
            | None => buildMapPayload fuel vars params val
            end
        end
    | VAnyMap val =>
        match fuel with
        | 0 => (Err depthExceeded, [])
        | S fuel' => processValue fuel' vars params (VMap (convertToStringKeyMap val))
        end
    | VList val =>
        let '(out, entries) := processItems (processValue fuel vars params) val in
        (match out with Ok l => Ok (VList l) | Err err => Err err end, entries)
    | VStr val => renderValue val params
    | _ => (Ok v, [])
    end.
Proof. destruct fuel, v; reflexivity. Qed.

(** The loop over a slice succeeds exactly when every item does. *)
Lemma processItems_Ok (f : Value → Logged Value) (items out : list Value) :
  (processItems f items).1 = Ok out ↔ Forall2 (fun item value => (f item).1 = Ok value) items out.
Proof.
  revert out. induction items as [|item items IH]; intros out; simpl.
  - split; [intros [= <-]; constructor | by inversion 1].
  - destruct (f item) as [[value|err] entries] eqn:Hitem; simpl.
    + destruct (processItems f items) as [[l|err] more]; simpl in *.
      * split.
        -- intros [= <-]. constructor; [by rewrite Hitem|]. by apply IH.
        -- inversion 1 as [|? y ? l' Hy Hl]; subst. rewrite Hitem in Hy.
           injection Hy as <-. apply IH in Hl. by injection Hl as <-.
      * split; [done|]. inversion 1 as [|? y ? l' Hy Hl]; subst. by apply IH in Hl.
    + split; [done|]. inversion 1 as [|? y ? l' Hy Hl]; subst. by rewrite Hitem in Hy.
Qed.

(** X21. Sequences are processed element by element: processing a sequence
    succeeds exactly when processing each of its elements does, and the
    result is then the sequence, of the same length, of the processed
    elements in their order; an element that fails fails the sequence. *)
Theorem payload_sequence_elementwise (fuel : nat) (vars params : gmap string Value)
    (items : list Value) (result : Value) :
  (processValue fuel vars params (VList items)).1 = Ok result
  ↔ ∃ out, result = VList out
           ∧ Forall2 (fun item value => (processValue fuel vars params item).1 = Ok value)
               items out.
Proof.
  rewrite processValue_eq.
  pose proof (processItems_Ok (processValue fuel vars params) items) as Hitems.
  destruct (processItems (processValue fuel vars params) items) as [[l|err] entries]; simpl in *.
  - split.
    + intros [= <-]. exists l. split; [done|]. by apply Hitems.
    + intros (out & -> & Hall). apply Hitems in Hall. by injection Hall as <-.
  - split; [done|]. intros (out & -> & Hall). by apply Hitems in Hall.
Qed.

(** What the loop of [buildMapPayload] has put into the result. *)
Lemma buildEntries_sound (params : gmap string Value)
    (processed : gmap string (Logged Value)) (keys : list string) :
  ∀ (acc built : gmap string Value),
    (buildEntries params processed keys acc).1 = Ok built →
    (∀ rk, is_Some (acc !! rk) → is_Some (built !! rk))
    ∧ (∀ k res entries, k ∈ keys → processed !! k = Some (res, entries) →
         ∃ rk pv, renderTemplate k params = Ok rk ∧ res = Ok pv ∧ is_Some (built !! rk))
    ∧ (∀ rk pv, built !! rk = Some pv →
         acc !! rk = Some pv
         ∨ ∃ k entries, k ∈ keys ∧ processed !! k = Some (Ok pv, entries)
                        ∧ renderTemplate k params = Ok rk).
Proof.
  induction keys as [|k keys IH]; intros acc built; simpl.
  - intros [= <-]. split_and!; [done | by intros ? ? ? ?%elem_of_nil | by left].
  - destruct (processed !! k) as [[res entries]|] eqn:Hk.
    + destruct (renderTemplate k params) as [rk|err] eqn:Hrk; [|done].
      destruct res as [pv|err]; [|done].
      destruct (buildEntries params processed keys (<[rk := pv]> acc)) as [out more] eqn:Hrest.
      simpl. intros ->.
      destruct (IH (<[rk := pv]> acc) built) as (Hacc & Hkeys & Hbuilt); [by rewrite Hrest|].
      split_and!.
      * intros rk' Hin. apply Hacc.
        destruct (decide (rk = rk')) as [->|Hne];
          [rewrite lookup_insert_eq; by eexists | by rewrite lookup_insert_ne].
      * intros k' res' entries' [->|Hin]%elem_of_cons Hk'.
        -- rewrite Hk in Hk'. injection Hk' as <- <-. exists rk, pv.
           split_and!; try done. apply Hacc. rewrite lookup_insert_eq. by eexists.
        -- by apply (Hkeys k' res' entries').
      * intros rk' pv' Hb. destruct (Hbuilt rk' pv' Hb) as [Hins|(k' & e' & Hin & Hp & Hr)].
        -- destruct (decide (rk = rk')) as [->|Hne].
           ++ rewrite lookup_insert_eq in Hins. injection Hins as <-.
              right. exists k, entries. split_and!; [by left | done | done].
           ++ rewrite lookup_insert_ne in Hins by done. by left.
        -- right. exists k', e'. split_and!; [by right | done | done].
    + intros Hb. destruct (IH acc built Hb) as (Hacc & Hkeys & Hbuilt).
      split_and!; [done| |].
      * intros k' res' entries' [->|Hin]%elem_of_cons Hk'; [congruence|].
        by apply (Hkeys k' res' entries').
      * intros rk' pv' Hb'. destruct (Hbuilt rk' pv' Hb') as [?|(k' & e' & Hin & Hp & Hr)];
          [by left|]. right. exists k', e'. split_and!; [by right | done | done].
Qed.

(** The loop succeeds when every entry it visits does. *)
Lemma buildEntries_complete (params : gmap string Value)
    (processed : gmap string (Logged Value)) (keys : list string) :
  (∀ k res entries, k ∈ keys → processed !! k = Some (res, entries) →
     (∃ rk, renderTemplate k params = Ok rk) ∧ (∃ pv, res = Ok pv)) →
  ∀ acc, ∃ built, (buildEntries params processed keys acc).1 = Ok built.
Proof.
  induction keys as [|k keys IH]; intros Hall acc; simpl; [by eexists|].
  assert (Hrest : ∀ k' res entries, k' ∈ keys → processed !! k' = Some (res, entries) →
            (∃ rk, renderTemplate k' params = Ok rk) ∧ (∃ pv, res = Ok pv)).
  { intros k' res entries Hin. apply Hall. by right. }
  destruct (processed !! k) as [[res entries]|] eqn:Hk; [|by apply IH].
  destruct (Hall k res entries) as [[rk ->] [pv ->]]; [by left | done |].
  destruct (IH Hrest (<[rk := pv]> acc)) as [built Hb].
  destruct (buildEntries params processed keys (<[rk := pv]> acc)) as [out more].
  by exists built.
Qed.

(** X22. [buildMapPayload] rebuilds a map entry by entry, in whatever order
    [range] visits the entries once each: it succeeds exactly when every key
    renders and every value processes; the map it then returns has an entry
    under the rendering of each key, and each of its entries holds the
    processed value of an entry of the source under the rendering of that
    entry's key. *)
Theorem payload_map_entries (fuel : nat) (vars params : gmap string Value)
    (m : gmap string Value) :
  rangeOrder m ≡ₚ (map_to_list m).*1 →
  ((∃ result, (buildMapPayload fuel vars params m).1 = Ok result)
   ↔ ∀ k v, m !! k = Some v →
       (∃ rk, renderTemplate k params = Ok rk)
       ∧ (∃ pv, (processValue fuel vars params v).1 = Ok pv))
  ∧ ∀ result, (buildMapPayload fuel vars params m).1 = Ok result →
      ∃ built, result = VMap built
        ∧ (∀ k v rk, m !! k = Some v → renderTemplate k params = Ok rk →
             is_Some (built !! rk))
        ∧ (∀ rk pv, built !! rk = Some pv →
             ∃ k v, m !! k = Some v ∧ renderTemplate k params = Ok rk
                    ∧ (processValue fuel vars params v).1 = Ok pv).
Proof.
  intros Horder.
  assert (Hkeys : ∀ k, k ∈ rangeOrder m ↔ is_Some (m !! k)).
  { intros k. rewrite Horder, list_elem_of_fmap. split.
    - intros ([k' v] & -> & Hin%elem_of_map_to_list). by eexists.
    - intros [v Hv]. exists (k, v). split; [done|]. by apply elem_of_map_to_list. }
  set (f := processValue fuel vars params).
  assert (Hsound : ∀ result, (buildMapPayload fuel vars params m).1 = Ok result →
      ∃ built, result = VMap built
        ∧ (∀ k v, m !! k = Some v →
             ∃ rk pv, renderTemplate k params = Ok rk ∧ (f v).1 = Ok pv
                      ∧ is_Some (built !! rk))
        ∧ (∀ rk pv, built !! rk = Some pv →
             ∃ k v, m !! k = Some v ∧ renderTemplate k params = Ok rk
                    ∧ (f v).1 = Ok pv)).
  { intros result. unfold buildMapPayload, buildMapPayloadWith. fold f.
    pose proof (buildEntries_sound params (f <$> m) (rangeOrder m) ∅) as Hs.
    destruct (buildEntries params (f <$> m) (rangeOrder m) ∅) as [[built|err] entries];
      simpl; [|done].
    intros [= <-]. destruct (Hs built eq_refl) as (_ & Hk & Hb).
    exists built. split_and!; [done| |].
    - intros k v Hv.
      destruct (Hk k (f v).1 (f v).2) as (rk & pv & Hr & Hp & Hin).
      + apply Hkeys. by eexists.
      + rewrite lookup_fmap, Hv. simpl. by destruct (f v).
      + by exists rk, pv.
    - intros rk pv Hrk. destruct (Hb rk pv Hrk) as [Hempty|(k & entries' & Hin & Hp & Hr)];
        [by rewrite lookup_empty in Hempty|].
      rewrite lookup_fmap in Hp. destruct (m !! k) as [v|] eqn:Hv; [|done].
      simpl in Hp. exists k, v. split_and!; try done. injection Hp as Hp. by rewrite Hp. }
  split; [split|].
  - intros [result Hres] k v Hv.
    destruct (Hsound result Hres) as (built & _ & Hk & _).
    destruct (Hk k v Hv) as (rk & pv & Hr & Hp & _). split; by eexists.
  - intros Hall. unfold buildMapPayload, buildMapPayloadWith. fold f.
    destruct (buildEntries_complete params (f <$> m) (rangeOrder m)) with (acc := (∅ : gmap string Value))
      as [built Hb].
    { intros k res entries _ Hk. rewrite lookup_fmap in Hk.
      destruct (m !! k) as [v|] eqn:Hv; [|done]. simpl in Hk.
      destruct (Hall k v Hv) as [Hr [pv Hp]]. split; [done|].
      exists pv. injection Hk as Hk. by rewrite Hk in Hp. }
    destruct (buildEntries params (f <$> m) (rangeOrder m) ∅) as [out entries].
    simpl in Hb. subst out. by eexists.
  - intros result Hres. destruct (Hsound result Hres) as (built & -> & Hk & Hb).
    exists built. split_and!; [done| |done].
    intros k v rk Hv Hr. destruct (Hk k v Hv) as (rk' & pv & Hr' & _ & Hin). congruence.
Qed.

(** X23. Leaf nodes. A map whose [expression] key holds a string is
    replaced by the evaluation of that expression, whatever else the map
    holds; when the evaluator returns a result, its value is the value of
    the node, also when the result carries an error reason. A map without
    such an expression and with a [value] key is replaced by what that key
    holds: rendered when it is a string, and as it stands otherwise, maps
    and sequences under it not being processed. *)
Theorem payload_leaf_nodes (fuel : nat) (vars params : gmap string Value)
    (val : gmap string Value) :
  (∀ expr, val !! "expression" = Some (VStr expr) →
     processValue fuel vars params (VMap val) = evaluateExpression vars expr
     ∧ ∀ res, EvaluateCEL vars (TrimSpace expr) = Ok res →
         (processValue fuel vars params (VMap val)).1 = Ok (cel_Value res))
  ∧ (∀ value, (∀ expr, val !! "expression" ≠ Some (VStr expr)) →
       val !! "value" = Some value →
       processValue fuel vars params (VMap val) =
         match value with
         | VStr strVal => renderValue strVal params
         | _ => (Ok value, [])
         end).
Proof.
  split.
  - intros expr Hexpr. rewrite processValue_eq, Hexpr. split; [done|].
    intros res Hres. unfold evaluateExpression. by rewrite Hres.
  - intros value Hno Hvalue. rewrite processValue_eq, Hvalue.
    destruct (val !! "expression") as [[]|] eqn:He; try by destruct value.
    by destruct (Hno s).
Qed.

(** X24. The root of a build definition is not a node like the others: a
    root map is always rebuilt entry by entry, so that a root of the form
    [{expression: e}] is not evaluated but returned with its key and its
    string rendered, although the same map inside a payload is an expression
    node; and a root string is returned as it stands, although a string
    inside a payload is rendered. *)
Theorem payload_root_is_not_processed (fuel : nat) (vars params : gmap string Value)
    (expr renderedKey renderedExpr : string) :
  let node : gmap string Value := {[ "expression" := VStr expr ]} in
  rangeOrder node ≡ₚ (map_to_list node).*1 →
  renderTemplate "expression" params = Ok renderedKey →
  renderTemplate expr params = Ok renderedExpr →
  buildPayload fuel (VMap node) vars params = (Ok (VMap {[ renderedKey := VStr renderedExpr ]}), [])
  ∧ processValue fuel vars params (VMap node) = evaluateExpression vars expr
  ∧ buildPayload fuel (VStr expr) vars params = (Ok (VStr expr), [])
  ∧ processValue fuel vars params (VStr expr) = (Ok (VStr renderedExpr), []).
Proof.
  intros node Horder Hkey Hexpr.
  assert (Hkeys : rangeOrder node = ["expression"]).
  { unfold node in *. rewrite map_to_list_singleton in Horder. simpl in Horder.
    by apply Permutation_singleton_r. }
  split_and!.
  - unfold buildPayload, buildMapPayload, buildMapPayloadWith. rewrite Hkeys. simpl.
    unfold node. rewrite lookup_fmap, lookup_singleton_eq. simpl.
    rewrite processValue_eq, Hkey. unfold renderValue. rewrite Hexpr. simpl.
    by rewrite insert_empty.
  - rewrite processValue_eq. unfold node. by rewrite lookup_singleton_eq.
  - done.
  - rewrite processValue_eq. unfold renderValue. by rewrite Hexpr.
Qed.

(** The loops only depend on the successful results of the function that
    processes the values. *)
Lemma processItems_agree (f g : Value → Logged Value) (items : list Value) :
  Forall (fun x => ∀ r logs, f x = (Ok r, logs) → g x = (Ok r, logs)) items →
  ∀ r logs, processItems f items = (Ok r, logs) → processItems g items = (Ok r, logs).
Proof.
  induction 1 as [|x items Hx _ IH]; intros r logs; simpl; [done|].
  destruct (f x) as [[v|e] entries] eqn:Hf; [|done].
  rewrite (Hx v entries eq_refl).
  destruct (processItems f items) as [[l|e] more] eqn:Hrest; [|done].
  rewrite (IH l more eq_refl). done.
Qed.

Lemma buildEntries_agree (params : gmap string Value)
    (p1 p2 : gmap string (Logged Value)) (keys : list string) :
  (∀ k, p1 !! k = None → p2 !! k = None) →
  (∀ k r logs, p1 !! k = Some (Ok r, logs) → p2 !! k = Some (Ok r, logs)) →
  ∀ acc r logs,
    buildEntries params p1 keys acc = (Ok r, logs) →
    buildEntries params p2 keys acc = (Ok r, logs).
Proof.
  intros Hnone Hok. induction keys as [|k keys IH]; intros acc r logs; simpl; [done|].
  destruct (p1 !! k) as [[[v|e] entries]|] eqn:Hk.
  - rewrite (Hok k v entries Hk).
    destruct (renderTemplate k params) as [rk|e]; [|done].
    destruct (buildEntries params p1 keys (<[rk := v]> acc)) as [out more] eqn:Hrest.
    intros [= -> <-]. by rewrite (IH _ _ _ Hrest).
  - by destruct (renderTemplate k params).
  - intros Hb. specialize (IH _ _ _ Hb). pose proof (Hnone k Hk) as Hn.
    unfold Logged in *. by rewrite Hn.
Qed.

(** What one level of fuel more preserves, node by node. *)
Lemma processValue_list_agree (vars params : gmap string Value) (n n' : nat)
    (l : list Value) :
  Forall (fun v => ∀ r logs, processValue n vars params v = (Ok r, logs) →
                             processValue n' vars params v = (Ok r, logs)) l →
  ∀ r logs, processValue n vars params (VList l) = (Ok r, logs) →
            processValue n' vars params (VList l) = (Ok r, logs).
Proof.
  intros Hl r logs. rewrite (processValue_eq n), (processValue_eq n').
  destruct (processItems (processValue n vars params) l) as [[out|e] entries] eqn:Hitems;
    [|done].
  by rewrite (processItems_agree _ _ l Hl out entries Hitems).
Qed.

Lemma processValue_map_agree (vars params : gmap string Value) (n n' : nat)
    (m : gmap string Value) :
  map_Forall (fun _ v => ∀ r logs, processValue n vars params v = (Ok r, logs) →
                                   processValue n' vars params v = (Ok r, logs)) m →
  ∀ r logs, processValue n vars params (VMap m) = (Ok r, logs) →
            processValue n' vars params (VMap m) = (Ok r, logs).
Proof.
  intros Hm r logs. rewrite (processValue_eq n), (processValue_eq n').
  set (f := processValue n vars params). set (g := processValue n' vars params).
  assert (Hnone : ∀ k, (f <$> m) !! k = None → (g <$> m) !! k = None).
  { intros k. rewrite !lookup_fmap. by destruct (m !! k). }
  assert (Hok : ∀ k r' logs', (f <$> m) !! k = Some (Ok r', logs') →
                              (g <$> m) !! k = Some (Ok r', logs')).
  { intros k r' logs'. rewrite !lookup_fmap. destruct (m !! k) as [x|] eqn:Hx; [|done].
    simpl. intros [= Hp]. f_equal. by apply (Hm k x Hx). }
  pose proof (buildEntries_agree params _ _ (rangeOrder m) Hnone Hok ∅) as Hagree.
  unfold buildMapPayload, buildMapPayloadWith. fold f g.
  destruct (buildEntries params (f <$> m) (rangeOrder m) ∅) as [[out|e] entries] eqn:Hb.
  - rewrite (Hagree out entries eq_refl). done.
  - destruct (m !! "expression") as [[]|]; try done;
      destruct (m !! "value") as [[]|]; done.
Qed.

(** A successful result is stable under more fuel. *)
Lemma processValue_more_fuel (vars params : gmap string Value) (n : nat) :
  ∀ v r logs,
    processValue n vars params v = (Ok r, logs) →
    processValue (S n) vars params v = (Ok r, logs).
Proof.
  induction n as [|n IHn]; intros v;
    induction v as [| | | |l Hl|m Hm|m Hm] using Value_nested_ind; intros r logs;
    try (by rewrite !processValue_eq);
    try (by apply processValue_list_agree);
    try (by apply processValue_map_agree).
  rewrite (processValue_eq (S n) _ _ (VAnyMap m)), (processValue_eq (S (S n)) _ _ (VAnyMap m)).
  apply IHn.
Qed.

Lemma processValue_enough_fuel (vars params : gmap string Value) (n n' : nat)
    (v r : Value) (logs : list (LogLevel * string)) :
  n ≤ n' →
  processValue n vars params v = (Ok r, logs) →
  processValue n' vars params v = (Ok r, logs).
Proof.
  induction 1 as [|n' _ IH]; [done|]. intros Hn. by apply processValue_more_fuel, IH.
Qed.

End PayloadBuilderProperties.

Lemma payload_map_entries_witness :
  ∃ result,
    (@PayloadBuilder.buildMapPayload Demo.externals Fixtures.rendering 0 ∅ ∅
       {[ "phase" := VStr "Ready" ]}).1 = Ok result.
Proof.
  destruct (@payload_map_entries Demo.externals Fixtures.rendering 0 ∅ ∅
              {[ "phase" := VStr "Ready" ]}) as [Hiff _]; [done|].
  apply Hiff. intros k v [<- <-]%lookup_singleton_Some. split; by eexists.
Defined.

Lemma payload_leaf_nodes_witness :
  (@PayloadBuilder.processValue Demo.externals Fixtures.rendering 0 ∅ ∅
     (VMap (<["value" := VStr "ignored"]> {[ "expression" := VStr "true" ]}))).1
    = Ok (VBool true).
Proof.
  destruct (@payload_leaf_nodes Demo.externals Fixtures.rendering 0 ∅ ∅
              (<["value" := VStr "ignored"]> {[ "expression" := VStr "true" ]}))
    as [Hexpr _].
  destruct (Hexpr "true") as [_ Hres]; [vm_compute; reflexivity|].
  apply (Hres {| cel_Matched := true; cel_Value := VBool true;
                 cel_ErrorReason := ""; cel_Error := None |}).
  vm_compute. reflexivity.
Defined.

Lemma payload_root_is_not_processed_witness :
  @PayloadBuilder.buildPayload Demo.externals Fixtures.rendering 0
    (VMap {[ "expression" := VStr "1 + 1" ]}) ∅ ∅
    = (Ok (VMap {[ "expression" := VStr "1 + 1" ]}), []).
Proof.
  edestruct (@payload_root_is_not_processed Demo.externals Fixtures.rendering 0 ∅ ∅
               "1 + 1" "expression" "1 + 1") as (Hroot & _); [done ..|].
  exact Hroot.
Defined.

(** ** The health server *)

Section HealthProperties.
Import Health.

(** X25. The probes, after any sequence of [SetReady] calls on a new server:
    the server is ready exactly when the last call said so, and not ready
    when there was no call; the readiness probe then answers 200 with status
    [ok] when the server is ready and 503 with status [error] and message
    [not ready] when it is not; the liveness probe answers 200 with status
    [ok] whatever the readiness; both declare a JSON content type and write
    a single value; the port the server listens on is the one it was created
    with. *)
Theorem readiness_follows_last_SetReady (port component : string) (calls : list bool) :
  let s := foldl (fun s isReady => SetReady isReady s) (NewServer port component) calls in
  let up := default false (last calls) in
  IsReady s = up
  ∧ readyzHandler s NewRecorder =
      {| rw_Code := Some (if up then 200 else 503)%Z;
         rw_Header := {[ "Content-Type" := "application/json" ]};
         rw_Body := [if up then {| hr_Status := "ok"; hr_Message := "" |}
                     else {| hr_Status := "error"; hr_Message := "not ready" |}] |}
  ∧ healthzHandler s NewRecorder =
      {| rw_Code := Some 200%Z;
         rw_Header := {[ "Content-Type" := "application/json" ]};
         rw_Body := [{| hr_Status := "ok"; hr_Message := "" |}] |}
  ∧ Addr s = ":" +:+ port.
Proof.
  intros s up.
  assert (Hs : ready s = up ∧ Health.port s = port).
  { subst s up. induction calls as [|c calls IH] using rev_ind; [done|].
    rewrite foldl_app, last_snoc. simpl. split; [done|]. apply IH. }
  destruct Hs as [Hr Hp]. unfold IsReady, readyzHandler, healthzHandler, Addr.
  rewrite Hr, Hp. split_and!; try done. by destruct up.
Qed.

End HealthProperties.

(** ** Composition of the sequential executors *)

Section CompositionProperties.
Context `{!Externals}.

(** X26. Running the preconditions [ps ++ qs] is running [ps] and, only
    when all of them matched, running [qs] in the world [ps] left behind,
    with the records of [ps] in front; when [ps] stops (not met, or failed)
    the outcome is the one of [ps] and nothing of [qs] is executed. *)
Theorem preconditions_compose (ps qs : list Precondition) (w : World) :
  let first := PreconditionExecutor.ExecuteAll ps w in
  PreconditionExecutor.ExecuteAll (ps ++ qs) w =
    if po_AllMatched first.1
    then (PreconditionExecutor.prependResults (po_Results first.1)
            (PreconditionExecutor.ExecuteAll qs first.2).1,
          (PreconditionExecutor.ExecuteAll qs first.2).2)
    else first.
Proof.
  revert w. induction ps as [|p ps IH]; intros w.
  - simpl. unfold PreconditionExecutor.prependResults. simpl.
    by destruct (PreconditionExecutor.ExecuteAll qs w) as [[] ?].
  - cbv zeta. rewrite <- app_comm_cons, !ExecuteAll_cons. cbv zeta.
    destruct (PreconditionExecutor.executePrecondition p w) as [[r [e|]] w1]; simpl; [done|].
    destruct (pr_Matched r); simpl; [|done].
    rewrite IH. cbv zeta.
    destruct (po_AllMatched (PreconditionExecutor.ExecuteAll ps w1).1); simpl; [|done].
    unfold PreconditionExecutor.prependResults. simpl. done.
Qed.

(** X27. When a precondition has structured conditions, its CEL expression
    is never looked at: replacing the expression by any other changes
    neither the record, the error and the world of the precondition nor the
    outcome of a run that starts with it. *)
Theorem conditions_take_precedence (p : Precondition) (expression : string)
    (rest : list Precondition) (w : World) :
  pc_Conditions p ≠ [] →
  PreconditionExecutor.executePrecondition (withExpression expression p) w
    = PreconditionExecutor.executePrecondition p w
  ∧ PreconditionExecutor.ExecuteAll (withExpression expression p :: rest) w
    = PreconditionExecutor.ExecuteAll (p :: rest) w.
Proof.
  intros Hconds.
  assert (Hone : ∀ w0, PreconditionExecutor.executePrecondition (withExpression expression p) w0
                       = PreconditionExecutor.executePrecondition p w0).
  { intros w0. unfold PreconditionExecutor.executePrecondition, PreconditionExecutor.finishStep,
      PreconditionExecutor.evaluateStep. simpl.
    by destruct (pc_Conditions p) as [|c cs]. }
  split; [apply Hone|]. by rewrite !ExecuteAll_cons, Hone.
Qed.

(** The loop over a concatenation of post-actions. *)
Lemma actionsLoop_app (actions more : list PostAction) :
  ∀ (acc : list PostActionResult) (w : World),
    PostActionExecutor.actionsLoop (actions ++ more) acc w =
      let first := PostActionExecutor.actionsLoop actions acc w in
      match first.1.2 with
      | Some e => first
      | None => PostActionExecutor.actionsLoop more first.1.1 first.2
      end.
Proof.
  induction actions as [|a actions IH]; intros acc w; [done|].
  rewrite <- app_comm_cons, !actionsLoop_cons. cbv zeta.
  destruct (PostActionExecutor.executePostAction a w) as [[r [e|]] w1]; simpl; [done|].
  apply IH.
Qed.

(** The records collected so far are only carried along by the loop. *)
Lemma actionsLoop_acc (actions : list PostAction) :
  ∀ (acc : list PostActionResult) (w : World),
    PostActionExecutor.actionsLoop actions acc w =
      let run := PostActionExecutor.actionsLoop actions [] w in
      ((acc ++ run.1.1, run.1.2), run.2).
Proof.
  induction actions as [|a actions IH]; intros acc w.
  - simpl. unfold ret. simpl. by rewrite app_nil_r.
  - rewrite !actionsLoop_cons. cbv zeta.
    destruct (PostActionExecutor.executePostAction a w) as [[r [e|]] w1]; simpl; [done|].
    rewrite (IH (acc ++ [r])), (IH [r]). cbv zeta. simpl. by rewrite <- app_assoc.
Qed.

(** X28. Running the post-actions [actions ++ more] of a post configuration
    is running it with [actions] and, only when that returned no error,
    running [more] (with no payloads left to build) in the world it left
    behind, the records of [actions] in front; when the first part fails,
    at the payloads or at an action, nothing of [more] is executed. *)
Theorem post_actions_compose (pc : PostConfig) (actions more : list PostAction) (w : World) :
  let first := PostActionExecutor.ExecuteAll (Some (withPostActions actions pc)) w in
  PostActionExecutor.ExecuteAll (Some (withPostActions (actions ++ more) pc)) w =
    match first.1.2 with
    | Some e => first
    | None =>
        let rest := PostActionExecutor.ExecuteAll
                      (Some {| Payloads := []; PostActions := more |}) first.2 in
        ((first.1.1 ++ rest.1.1, rest.1.2), rest.2)
    end.
Proof.
  cbv zeta. unfold PostActionExecutor.ExecuteAll. simpl. unfold bind.
  destruct (match Payloads pc with
            | [] => ret None
            | _ :: _ => PostActionExecutor.buildPostPayloads (Payloads pc)
            end w) as [[e|] w1]; simpl; [done|].
  rewrite actionsLoop_app. cbv zeta.
  destruct (PostActionExecutor.actionsLoop actions [] w1) as [[rs [e|]] w2]; simpl; [done|].
  rewrite actionsLoop_acc. cbv zeta. done.
Qed.

(** X29. The post-action phase leaves the event data, the recorded
    evaluations and the cluster as they were; it changes the parameters
    only at the names of the declared payloads; and it changes the adapter
    metadata only when it returns an error. *)
Theorem post_actions_context_frame (postConfig : option PostConfig) (w : World) :
  let run := PostActionExecutor.ExecuteAll postConfig w in
  EventData (execCtx run.2) = EventData (execCtx w)
  ∧ Evaluations (execCtx run.2) = Evaluations (execCtx w)
  ∧ cluster run.2 = cluster w
  ∧ (∀ k, (∀ p, p ∈ declaredPayloads postConfig → pl_Name p ≠ k) →
       Params (execCtx run.2) !! k = Params (execCtx w) !! k)
  ∧ (run.1.2 = None → Adapter (execCtx run.2) = Adapter (execCtx w)).
Proof.
  intros run.
  pose proof (cluster_post_ExecuteAll postConfig w) as Hcl.
  pose proof (post_ExecuteAll_adapter postConfig w) as Had. simpl in Had.
  assert (Hloop : ∀ actions acc w0,
            EventData (execCtx (PostActionExecutor.actionsLoop actions acc w0).2)
              = EventData (execCtx w0)
            ∧ Evaluations (execCtx (PostActionExecutor.actionsLoop actions acc w0).2)
              = Evaluations (execCtx w0)
            ∧ Params (execCtx (PostActionExecutor.actionsLoop actions acc w0).2)
              = Params (execCtx w0)).
  { induction actions as [|a actions IH]; intros acc w0; [done|].
    rewrite actionsLoop_cons. cbv zeta.
    destruct (executePostAction_spec a w0) as (_ & _ & Hctx & _).
    destruct (PostActionExecutor.executePostAction a w0) as [[r [e|]] w1]; simpl in *.
    - by rewrite Hctx.
    - destruct (IH (acc ++ [r]) w1) as (-> & -> & ->). by rewrite Hctx. }
  assert (Hbuild : ∀ vars payloads w0,
            EventData (execCtx (PostActionExecutor.buildPayloadsLoop vars payloads w0).2)
              = EventData (execCtx w0)
            ∧ Evaluations (execCtx (PostActionExecutor.buildPayloadsLoop vars payloads w0).2)
              = Evaluations (execCtx w0)).
  { intros vars payloads. induction payloads as [|p ps IH]; intros w0; simpl; [done|].
    destruct (PostActionExecutor.buildDefOf p) as [def|]; [|done].
    unfold bind, getCtx. simpl.
    destruct (buildPayload def vars (Params (execCtx w0))) as [[v|e] entries]; simpl; [|done].
    destruct (jsonMarshal v) as [json|e]; simpl; [|done].
    destruct (IH {| execCtx := withParams (insert (pl_Name p) (VStr json)) (execCtx w0);
                    logs := logs w0 ++ entries; apiCalls := apiCalls w0;
                    cluster := cluster w0 |}) as [-> ->]. done. }
  split_and!; try done.
  4:{ intros Hnone. subst run. by rewrite Hnone in Had. }
  all: subst run; destruct postConfig as [pc|]; simpl; try done; unfold bind.
  all: destruct (Payloads pc) as [|p0 ps] eqn:Hps.
  all: try (destruct (Hloop (PostActions pc) [] w) as (H1 & H2 & H3); unfold ret at 1; simpl;
            first [exact H1 | exact H2 | intros k _; by rewrite H3]).
  all: unfold PostActionExecutor.buildPostPayloads, bind, getCtx.
  all: set (vars := <["adapter" := _]> _).
  all: destruct (Hbuild vars (p0 :: ps) w) as [Hb1 Hb2].
  all: destruct (buildPayloadsLoop_spec vars (p0 :: ps) w) as (_ & _ & _ & Hb3 & _).
  all: destruct (PostActionExecutor.buildPayloadsLoop vars (p0 :: ps) w) as [[e|] w1];
         simpl in *; try done.
  all: try (intros k Hk; by apply Hb3).
  all: destruct (Hloop (PostActions pc) [] w1) as (H1 & H2 & H3); try congruence.
  intros k Hk. rewrite H3. by apply Hb3.
Qed.

End CompositionProperties.

Lemma conditions_take_precedence_witness :
  let p := Demo.clusterReady "check" "/clusters/ready" in
  let run := @PreconditionExecutor.ExecuteAll Demo.externals
               [withExpression "false" p] Demo.emptyWorld in
  run = @PreconditionExecutor.ExecuteAll Demo.externals [p] Demo.emptyWorld
  ∧ po_AllMatched run.1 = true
  ∧ (pr_ConditionResults <$> po_Results run.1)
    = [[{| er_Field := "status"; er_Operator := "equals";
           er_ExpectedValue := VStr "ready"; er_FieldValue := VStr "ready";
           er_Matched := true |}]]
  ∧ (pr_CELResult <$> po_Results run.1) = [None]
  ∧ length (Evaluations (execCtx run.2)) = 1
  ∧ po_AllMatched
      (@PreconditionExecutor.ExecuteAll Demo.externals
         [withExpression "false" (Demo.bare "check")] Demo.emptyWorld).1 = false.
Proof.
  intros p run. split.
  - refine (proj2 (@conditions_take_precedence Demo.externals p "false" []
                     Demo.emptyWorld _)).
    discriminate.
  - split_and!; vm_compute; reflexivity.
Defined.
